(** * Zrythm audio engine core: fader, automation, channel strip, regions

    A shallow embedding of the parts of the engine that the specification
    makes claims about, with the claims proved (or refuted) against it.

    Conventions used throughout:
    - object identities ([Track *], plugin UUIDs) are natural-number ids and
      a null pointer / empty optional is [None];
    - [signed_frame_t], [int] and [size_t] values are mathematical integers
      ([Z] or [nat]); no claim here depends on their overflow;
    - [float] and [double] values are rationals ([Q]); the operations are
      exact, except where a property depends on the rounding of the
      arithmetic: there they are rounded with [Float.float32] and
      [Float.float64].  Overflow, underflow, NaN and infinities are outside
      the model. *)

From Stdlib Require Import ZArith QArith Qround Qabs Qminmax Qpower Lia Lqa.
From stdpp Require Import base option list gmap.

Local Open Scope Z_scope.

(** * Tracks and the tracklist *)

Abbreviation TrackId := nat.

Module Fader.

(** [Fader::Type]; the audio types own stereo ports, [MidiChannel] owns MIDI
    ports. *)
Inductive Type_ := AudioChannel | MidiChannel | Monitor | SampleProcessor.

#[global] Instance Type_eq_dec : EqDecision Type_.
Proof. solve_decision. Defined.

Inductive MidiFaderMode :=
  | MIDI_FADER_MODE_VEL_MULTIPLIER
  | MIDI_FADER_MODE_CC_VOLUME.

#[global] Instance MidiFaderMode_eq_dec : EqDecision MidiFaderMode.
Proof. solve_decision. Defined.

(** The members of [Fader] that [process_block] reads or writes.  A control
    port is represented by its current value ([amp], [balance]) or toggle
    state; the audio and MIDI ports are kept apart in [Ports] below. *)
Record t := mk {
  type_ : Type_;
  midi_mode_ : MidiFaderMode;
  passthrough_ : bool;
  track_ : option TrackId;     (* back-pointer, see [Fader::get_track] *)
  amp : Q;                     (* get_amp_port ().get_control_value (false) *)
  balance : Q;                 (* get_balance_port ().get_control_value (false) *)
  mute : bool;                 (* get_mute_port ().is_toggled () *)
  solo : bool;                 (* get_solo_port ().is_toggled () *)
  listen : bool;               (* get_listen_port ().is_toggled () *)
  mono_compat_enabled : bool;
  swap_phase : bool;
  fade_in_samples_ : Z;
  fade_out_samples_ : Z;
  fading_out_ : bool;
  was_effectively_muted_ : bool;
}.

Definition set_fade_in_samples (f : t) (n : Z) : t :=
  let 'mk ty mm pt tr a b mu so li mc sp _ fo fg wm := f in
  mk ty mm pt tr a b mu so li mc sp n fo fg wm.

Definition set_fade_out_samples (f : t) (n : Z) : t :=
  let 'mk ty mm pt tr a b mu so li mc sp fi _ fg wm := f in
  mk ty mm pt tr a b mu so li mc sp fi n fg wm.

Definition set_fading_out (f : t) (v : bool) : t :=
  let 'mk ty mm pt tr a b mu so li mc sp fi fo _ wm := f in
  mk ty mm pt tr a b mu so li mc sp fi fo v wm.

Definition set_was_effectively_muted (f : t) (v : bool) : t :=
  let 'mk ty mm pt tr a b mu so li mc sp fi fo fg _ := f in
  mk ty mm pt tr a b mu so li mc sp fi fo fg v.

Definition is_channel_type (ty : Type_) : bool :=
  match ty with AudioChannel | MidiChannel => true | _ => false end.

Definition has_audio_ports (f : t) : bool :=
  match type_ f with
  | AudioChannel | Monitor | SampleProcessor => true
  | MidiChannel => false
  end.

Definition has_midi_ports (f : t) : bool :=
  match type_ f with MidiChannel => true | _ => false end.

Definition get_muted (f : t) : bool := mute f.
Definition get_soloed (f : t) : bool := solo f.
Definition get_listened (f : t) : bool := listen f.

End Fader.

Inductive PortType := Audio | CV | MIDI | Control.

#[global] Instance PortType_eq_dec : EqDecision PortType.
Proof. solve_decision. Defined.

(** A track, as far as routing and soloing are concerned.  [output_track_uuid_]
    and the channel fader belong to the track's [Channel]; [children_] belongs
    to [GroupTargetTrack]. *)
Record Track := mkTrack {
  has_channel : bool;
  is_master : bool;
  can_be_group_target : bool;
  output_track_uuid_ : option TrackId;
  children_ : list TrackId;
  fader_ : Fader.t;            (* channel_->fader_ *)
  bounce_ : bool;
  out_signal_type_ : PortType;
  fader_stereo_out : list Q * list Q;  (* buffers of the fader's stereo out *)
}.

Abbreviation Tracklist := (gmap TrackId Track).

(** [Track::get_soloed] delegates to the channel fader. *)
Definition track_get_soloed (t : Track) : bool := Fader.get_soloed (fader_ t).

Definition track_get_listened (t : Track) : bool :=
  Fader.get_listened (fader_ t).

(** [TrackSpan::has_soloed]: some track of the tracklist is soloed. *)
Definition has_soloed (tl : Tracklist) : bool :=
  bool_decide (map_Exists (fun _ t => track_get_soloed t = true) tl).

(** [TrackSpan::has_listened] *)
Definition has_listened (tl : Tracklist) : bool :=
  bool_decide (map_Exists (fun _ t => track_get_listened t = true) tl).

(** [Channel::get_output_track] for the channel of track [tid]: the output
    must be registered, be a group target and differ from the track itself. *)
Definition get_output_track (tl : Tracklist) (tid : TrackId) (t : Track)
  : option (TrackId * Track) :=
  match output_track_uuid_ t with
  | None => None
  | Some oid =>
      match tl !! oid with
      | None => None
      | Some o =>
          if can_be_group_target o
          then if decide (tid = oid) then None else Some (oid, o)
          else None
      end
  end.

(** * Implied solo ([Fader::get_implied_soloed]) *)

(** The [do ... while (out_track)] walk up the output chain.  The loop has
    no bound of its own (a routing cycle without a soloed member would spin
    forever), so the model takes fuel; [None] means the fuel ran out. *)
Fixpoint parents_soloed (fuel : nat) (tl : Tracklist)
    (tid : TrackId) (out_track : Track) : option bool :=
  match fuel with
  | O => None
  | S k =>
      if has_channel out_track then
        match get_output_track tl tid out_track with
        | Some (oid, o) =>
            if track_get_soloed o then Some true
            else parents_soloed k tl oid o
        | None => Some false
        end
      else Some false
  end.

(** The loop over [group_target->children_]: [implied] is
    [Track::get_implied_soloed] of a registered child. *)
Fixpoint children_soloed (implied : Track -> option bool) (tl : Tracklist)
    (cs : list TrackId) : option bool :=
  match cs with
  | [] => Some false
  | c :: cs' =>
      match tl !! c with
      | None => children_soloed implied tl cs'
      | Some ct =>
          if track_get_soloed ct then Some true
          else match implied ct with
               | None => None
               | Some true => Some true
               | Some false => children_soloed implied tl cs'
               end
      end
  end.

Fixpoint get_implied_soloed (fuel : nat) (tl : Tracklist) (f : Fader.t)
  : option bool :=
  match fuel with
  | O => None
  | S k =>
      (* only check channel faders *)
      if negb (Fader.is_channel_type (Fader.type_ f))
         || Fader.passthrough_ f || Fader.get_soloed f
      then Some false
      else
        match Fader.track_ f with
        | None => Some false
        | Some tid =>
            match tl !! tid with
            | None => Some false
            | Some track =>
                (* check parents *)
                match parents_soloed fuel tl tid track with
                | None => None
                | Some true => Some true
                | Some false =>
                    (* check children *)
                    if can_be_group_target track then
                      children_soloed
                        (fun ct => get_implied_soloed k tl (fader_ ct))
                        tl (children_ track)
                    else Some false
                end
            end
        end
  end.

(** * Effective mute ([Fader::process_block], first part) *)

Inductive BounceMode := BOUNCE_OFF | BOUNCE_ON | BOUNCE_INHERIT.

#[global] Instance BounceMode_eq_dec : EqDecision BounceMode.
Proof. solve_decision. Defined.

(** The globals [process_block] reads: [TRACKLIST], [P_MASTER_TRACK] and
    [AUDIO_ENGINE->bounce_mode_] and
    [AUDIO_ENGINE->denormal_prevention_val_]. *)
Record Project := mkProject {
  TRACKLIST : Tracklist;
  P_MASTER_TRACK : TrackId;
  bounce_mode_ : BounceMode;
  denormal_prevention_val_ : Q;
}.

(** The local [Track * track] of [process_block]: fetched for
    [Type::AudioChannel] only, null otherwise.  [None] in the outer option
    is the [z_return_if_fail (track)] exit. *)
Definition block_track (p : Project) (f : Fader.t)
  : option (option (TrackId * Track)) :=
  match Fader.type_ f with
  | Fader.AudioChannel =>
      match Fader.track_ f with
      | None => None
      | Some tid =>
          match TRACKLIST p !! tid with
          | None => None
          | Some t => Some (Some (tid, t))
          end
      end
  | _ => Some None
  end.

(** [track != P_MASTER_TRACK] on the (possibly null) local pointer. *)
Definition track_ne_master (p : Project) (track : option (TrackId * Track))
  : bool :=
  match track with
  | None => true
  | Some (tid, _) => negb (bool_decide (tid = P_MASTER_TRACK p))
  end.

(** Short-circuit conjunction with a computation that may run out of fuel. *)
Definition and_then (b : bool) (k : option bool) : option bool :=
  if b then k else Some false.

(** The value of [effectively_muted] that [process_block] computes for the
    already fetched [track]. *)
Definition effectively_muted (fuel : nat) (p : Project) (f : Fader.t)
    (track : option (TrackId * Track)) : option bool :=
  if Fader.passthrough_ f then Some false
  else if Fader.get_muted f then Some true
  else
    match
      and_then (Fader.is_channel_type (Fader.type_ f)
                && has_soloed (TRACKLIST p) && negb (Fader.get_soloed f))
        (option_map (fun imp => negb imp && track_ne_master p track)
           (get_implied_soloed fuel (TRACKLIST p) f))
    with
    | None => None
    | Some true => Some true
    | Some false =>
        Some (bool_decide (bounce_mode_ p = BOUNCE_ON)
              && Fader.is_channel_type (Fader.type_ f)
              && match track with
                 | None => false
                 | Some (_, t) => negb (is_master t) && negb (bounce_ t)
                 end)
    end.
(** * Floating-point arithmetic

    Where a property depends on the result of [float] or [double]
    arithmetic digit for digit, the operation is written with its rounding:
    [Float.float32 x] is the [float] and [Float.float64 x] the [double]
    nearest to the rational [x]. *)

Module Float.

(** The exponent of a positive [x]: the greatest [e] with [2 ^ e <= x]. *)
Definition exponent (x : Q) : Z :=
  let e0 := Z.log2 (Qnum x) - Z.log2 (Zpos (Qden x)) in
  if Qle_bool (2 ^ e0) x then e0 else e0 - 1.

(** The integer nearest to [s], the even one of two that are as near. *)
Definition nearest_even (s : Q) : Z :=
  let q := Qfloor s in
  match (s - inject_Z q ?= 1 # 2)%Q with
  | Lt => q
  | Gt => q + 1
  | Eq => if Z.even q then q else q + 1
  end.

(** [x] rounded to the nearest number with [prec] significant bits, ties to
    even.  The exponent is not bounded: overflow, underflow, infinities and
    NaN are outside the model. *)
Definition round (prec : Z) (x : Q) : Q :=
  if Qeq_bool x 0 then 0%Q
  else
    let ulp := (2 ^ (exponent (Qabs x) - (prec - 1)))%Q in
    let y := (inject_Z (nearest_even (Qabs x / ulp)) * ulp)%Q in
    if Qle_bool 0 x then y else (- y)%Q.

(** [float]: 24 significant bits. *)
Definition float32 (x : Q) : Q := round 24 x.

(** [double]: 53 significant bits. *)
Definition float64 (x : Q) : Q := round 53 x.

(** The unit roundoff of [float], [2 ^ -24]. *)
Definition eps32 : Q := 1 # 16777216.

(** The unit roundoff of [double], [2 ^ -53]. *)
Definition eps64 : Q := 1 # 9007199254740992.


End Float.


(** * The specification's formula for the effective mute *)

(** [Fader::get_track] resolved in the tracklist. *)
Definition fader_track (p : Project) (f : Fader.t) : option Track :=
  match Fader.track_ f with
  | None => None
  | Some tid => TRACKLIST p !! tid
  end.

(** The formula as the specification words it:
    [mute OR (others_soloed AND !soloed AND !implied_soloed)
          OR (bouncing AND !bounce AND !master)]. *)
Definition claimed_effectively_muted (p : Project) (f : Fader.t)
    (implied : bool) : bool :=
  Fader.get_muted f
  || (Fader.is_channel_type (Fader.type_ f) && has_soloed (TRACKLIST p)
      && negb (Fader.get_soloed f) && negb implied)
  || (bool_decide (bounce_mode_ p = BOUNCE_ON)
      && match fader_track p f with
         | Some t => negb (bounce_ t) && negb (is_master t)
         | None => false
         end).

(** The fader is the audio fader of the project's master track. *)
Definition on_master_track (p : Project) (f : Fader.t) : bool :=
  bool_decide (Fader.type_ f = Fader.AudioChannel)
  && bool_decide (Fader.track_ f = Some (P_MASTER_TRACK p)).

(** The formula the code implements: the solo clause spares the master
    track, and the bounce clause applies to channel faders only. *)
Definition guarded_effectively_muted (p : Project) (f : Fader.t)
    (implied : bool) : bool :=
  negb (Fader.passthrough_ f)
  && (Fader.get_muted f
      || (Fader.is_channel_type (Fader.type_ f) && has_soloed (TRACKLIST p)
          && negb (Fader.get_soloed f) && negb implied
          && negb (on_master_track p f))
      || (bool_decide (bounce_mode_ p = BOUNCE_ON)
          && Fader.is_channel_type (Fader.type_ f)
          && match fader_track p f with
             | Some t => negb (is_master t) && negb (bounce_ t)
             | None => false
             end)).

(** * Routing relations used to state the implied-solo results *)

(** Some track further up the output chain of [t] is soloed.  The chain is
    followed through [Channel::get_output_track] and stops at a track
    without a channel. *)
Inductive soloed_ancestor (tl : Tracklist) : TrackId -> Track -> Prop :=
  | soloed_parent tid t oid o :
      has_channel t = true ->
      get_output_track tl tid t = Some (oid, o) ->
      track_get_soloed o = true ->
      soloed_ancestor tl tid t
  | soloed_further tid t oid o :
      has_channel t = true ->
      get_output_track tl tid t = Some (oid, o) ->
      soloed_ancestor tl oid o ->
      soloed_ancestor tl tid t.

(** Some registered group child of [t] is soloed or implied-soloed, where
    [implied] answers the query for a child. *)
Definition soloed_child (implied : Track -> option bool) (tl : Tracklist)
    (t : Track) : Prop :=
  can_be_group_target t = true
  /\ exists c ct, c ∈ children_ t /\ tl !! c = Some ct
       /\ (track_get_soloed ct = true \/ implied ct = Some true).

(** The reading of the specification: a fader is implied-soloed iff some
    ancestor output track or some group child is soloed or implied-soloed. *)
Definition claimed_implied_soloed (implied : Track -> option bool)
    (tl : Tracklist) (f : Fader.t) : Prop :=
  exists tid t, Fader.track_ f = Some tid /\ tl !! tid = Some t
    /\ ((exists oid o, has_channel t = true
           /\ get_output_track tl tid t = Some (oid, o)
           /\ (track_get_soloed o = true \/ implied o = Some true))
        \/ soloed_ancestor tl tid t
        \/ soloed_child implied tl t).

(** What the code decides: only an unsoloed, non-passthrough channel fader
    can be implied-soloed, through a soloed ancestor or through a child that
    is soloed or implied-soloed. *)
Definition implied_by_routing (implied : Track -> option bool)
    (tl : Tracklist) (f : Fader.t) : Prop :=
  Fader.is_channel_type (Fader.type_ f) = true
  /\ Fader.passthrough_ f = false
  /\ Fader.get_soloed f = false
  /\ exists tid t, Fader.track_ f = Some tid /\ tl !! tid = Some t
       /\ (soloed_ancestor tl tid t \/ soloed_child implied tl t).

(** Acyclic routing, witnessed by a level for every track id: outputs sit on
    a lower level, children on a higher one, all below [N]; and every channel
    fader points back to its own track. *)
Record routing_levels (lvl : TrackId -> nat) (N : nat) (tl : Tracklist)
  : Prop := {
  lvl_bound : forall id t, tl !! id = Some t -> (lvl id < N)%nat;
  lvl_output : forall id t oid,
    tl !! id = Some t -> output_track_uuid_ t = Some oid ->
    (lvl oid < lvl id)%nat;
  lvl_children : forall id t c,
    tl !! id = Some t -> c ∈ children_ t -> (lvl id < lvl c)%nat;
  fader_owner : forall id t,
    tl !! id = Some t -> Fader.track_ (fader_ t) = Some id;
}.

(** A checker for [routing_levels] on a concrete tracklist. *)
Definition track_levels_ok (lvl : TrackId -> nat) (N : nat)
    (id : TrackId) (t : Track) : bool :=
  (lvl id <? N)%nat
  && match output_track_uuid_ t with
     | Some oid => (lvl oid <? lvl id)%nat
     | None => true
     end
  && forallb (fun c => (lvl id <? lvl c)%nat) (children_ t)
  && bool_decide (Fader.track_ (fader_ t) = Some id).

Definition check_routing_levels (lvl : TrackId -> nat) (N : nat)
    (tl : Tracklist) : bool :=
  bool_decide (map_Forall (fun id t => track_levels_ok lvl N id t = true) tl).

(** * Sample buffers ([utils::float_ranges], dsp.h) *)

Definition Qltb (x y : Q) : bool := negb (Qle_bool y x).

Module float_ranges.

(** Index [idx] lies in the [size] samples that start at [off]. *)
Definition in_block (off size idx : nat) : bool :=
  (off <=? idx)%nat && (idx <? off + size)%nat.

(** [std::transform] over the [size] samples at [&buf[off]]; [g] receives the
    index relative to [off].  The buffer keeps its length; the sources never
    pass a range that leaves it. *)
Definition on_range (off size : nat) (g : nat -> Q -> Q) (buf : list Q)
  : list Q :=
  imap (fun idx x => if in_block off size idx then g (idx - off)%nat x else x)
       buf.

(** [std::clamp (x, minf, maxf)] *)
Definition clamp (x minf maxf : Q) : Q :=
  if Qltb x minf then minf else if Qltb maxf x then maxf else x.

Definition fill (buf : list Q) (off : nat) (val : Q) (size : nat) : list Q :=
  on_range off size (fun _ _ => val) buf.

Definition clip (buf : list Q) (off : nat) (minf maxf : Q) (size : nat)
  : list Q :=
  on_range off size (fun _ x => clamp x minf maxf) buf.

(** [copy (&dest[off], &src[off], size)] *)
Definition copy (dest : list Q) (off : nat) (src : list Q) (size : nat)
  : list Q :=
  on_range off size (fun i x => default x (src !! (off + i)%nat)) dest.

Definition mul_k2 (dest : list Q) (off : nat) (k : Q) (size : nat) : list Q :=
  on_range off size (fun _ x => (x * k)%Q) dest.

(** [mix_product (&dest[off], &src[off], k, size)] *)
Definition mix_product (dest : list Q) (off : nat) (src : list Q) (k : Q)
    (size : nat) : list Q :=
  on_range off size
    (fun i x => (x + default 0 (src !! (off + i)%nat) * k)%Q) dest.

(** Modelled from the spec: the body of [linear_fade_out_to] is not part of
    the sources.  The fade "interpolates linearly from 1.0 to [mute_amp]" and
    "sample at index [i] equals [1.0 − i/N]": position [j] of a fade over
    [total] frames towards [fade_to_multiplier] has this gain. *)
Definition fade_out_gain (total : Z) (fade_to_multiplier : Q) (j : Z) : Q :=
  (fade_to_multiplier
   + (1 - fade_to_multiplier) * (1 - inject_Z j / inject_Z total))%Q.

Definition linear_fade_out_to (dest : list Q) (off : nat)
    (start_offset total_frames_to_fade : Z) (size : nat)
    (fade_to_multiplier : Q) : list Q :=
  on_range off size
    (fun i x => (x * fade_out_gain total_frames_to_fade fade_to_multiplier
                       (start_offset + Z.of_nat i))%Q)
    dest.

(** Modelled from the spec: the body of [linear_fade_in_from] is not part of
    the sources.  The fade "interpolates linearly from [mute_amp] to 1.0". *)
Definition fade_in_gain (total : Z) (fade_from_multiplier : Q) (j : Z) : Q :=
  (fade_from_multiplier
   + (1 - fade_from_multiplier) * (inject_Z j / inject_Z total))%Q.

Definition linear_fade_in_from (dest : list Q) (off : nat)
    (start_offset total_frames_to_fade : Z) (size : nat)
    (fade_from_multiplier : Q) : list Q :=
  on_range off size
    (fun i x => (x * fade_in_gain total_frames_to_fade fade_from_multiplier
                       (start_offset + Z.of_nat i))%Q)
    dest.

(** Modelled from the spec: the body of [make_mono] is not part of the
    sources.  With [equal_power = false] it "averages L/R into both
    channels" (dsp.h: equal amplitude sum = (L+R)/2). *)
Definition make_mono (l r : list Q) (off size : nat) : list Q * list Q :=
  (on_range off size
     (fun i x => ((x + default 0 (r !! (off + i)%nat)) / 2)%Q) l,
   on_range off size
     (fun i x => ((default 0 (l !! (off + i)%nat) + x) / 2)%Q) r).

End float_ranges.

(** * The fader's block processing ([Fader::process_block]) *)

(** What the sources use without defining it: the two fade lengths, the
    linear balance law [dsp::calculate_balance_control (Linear, pan)] and the
    test for a note-on message. *)
Record Dsp := mkDsp {
  FADER_DEFAULT_FADE_FRAMES : Z;
  FADER_DEFAULT_FADE_FRAMES_SHORT : Z;
  calculate_balance_control : Q -> Q * Q;
  midi_is_note_on : Z * Z * Z -> bool;
}.

(** [CONTROL_ROOM]: the amps of its three faders and the dim switch. *)
Record ControlRoom := mkControlRoom {
  mute_fader_amp : Q;
  listen_fader_amp : Q;
  dim_fader_amp : Q;
  dim_output_ : bool;
}.

(** [EngineProcessTimeInfo] *)
Record EngineProcessTimeInfo := mkTimeInfo {
  local_offset_ : nat;
  nframes_ : nat;
}.

(** A MIDI event: the three bytes of a channel message and its frame. *)
Record MidiEvent := mkMidiEvent {
  raw_buffer_ : Z * Z * Z;
  time_ : nat;
}.

(** The buffers of the fader's ports. *)
Record Ports := mkPorts {
  stereo_in : list Q * list Q;
  stereo_out : list Q * list Q;
  midi_in : list MidiEvent;
  midi_out : list MidiEvent;
}.

Definition set_stereo_out (ports : Ports) (out : list Q * list Q) : Ports :=
  mkPorts (stereo_in ports) out (midi_in ports) (midi_out ports).

Definition set_midi_out (ports : Ports) (evs : list MidiEvent) : Ports :=
  mkPorts (stereo_in ports) (stereo_out ports) (midi_in ports) evs.

Definition fade_frames_for_type (c : Dsp) (type : Fader.Type_) : Z :=
  match type with
  | Fader.Monitor => FADER_DEFAULT_FADE_FRAMES c
  | _ => FADER_DEFAULT_FADE_FRAMES_SHORT c
  end.

(** The fader and the output buffers while the block is being processed. *)
Definition Blk : Type := Fader.t * (list Q * list Q).

(** A step of the block either goes on or leaves [process_block] at once
    (one of the [z_return_if_fail] exits) in the state reached so far. *)
Inductive Step (A : Type) := Go (a : A) | Return (s : Blk).
Arguments Go {A} a.
Arguments Return {A} s.

Section ProcessBlock.

Import float_ranges.

Context (c : Dsp) (p : Project) (cr : ControlRoom)
        (time_nfo : EngineProcessTimeInfo).

Let off := local_offset_ time_nfo.
Let nframes := nframes_ time_nfo.

(** The first step of the audio path: copy the input to the output. *)
Definition copy_in_to_out (ports : Ports) : list Q * list Q :=
  (copy (stereo_out ports).1 off (stereo_in ports).1 nframes,
   copy (stereo_out ports).2 off (stereo_in ports).2 nframes).

(** The monitor fader: dim the signal and add the listened tracks, then
    apply the dim switch. *)
Definition mix_listened (listen_amp : Q) (out : list Q * list Q) (t : Track)
  : list Q * list Q :=
  if has_channel t
     && bool_decide (out_signal_type_ t = Audio) && track_get_listened t
  then (mix_product out.1 off (fader_stereo_out t).1 listen_amp nframes,
        mix_product out.2 off (fader_stereo_out t).2 listen_amp nframes)
  else out.

Definition process_monitor (out : list Q * list Q) : list Q * list Q :=
  let dim_amp := dim_fader_amp cr in
  let out1 :=
    (* if have listened tracks *)
    if has_listened (TRACKLIST p) then
      (* dim signal *)
      let dimmed := (mul_k2 out.1 off dim_amp nframes,
                     mul_k2 out.2 off dim_amp nframes) in
      (* add listened signal *)
      foldl (mix_listened (listen_fader_amp cr)) dimmed
            (map_to_list (TRACKLIST p)).*2
    else out in
  (* apply dim if enabled *)
  if dim_output_ cr
  then (mul_k2 out1.1 off dim_amp nframes, mul_k2 out1.2 off dim_amp nframes)
  else out1.

(** Add a fade if changed from muted to non-muted or vice versa. *)
Definition arm_fades (default_fade_frames : Z) (effectively_muted : bool)
    (f : Fader.t) : Fader.t :=
  if effectively_muted && negb (Fader.was_effectively_muted_ f) then
    Fader.set_fading_out
      (Fader.set_fade_out_samples f default_fade_frames) true
  else if negb effectively_muted && Fader.was_effectively_muted_ f then
    Fader.set_fade_in_samples
      (Fader.set_fading_out f false) default_fade_frames
  else f.

(** Handle fade in. *)
Definition handle_fade_in (default_fade_frames : Z) (mute_amp : Q)
    (s : Blk) : Step Blk :=
  let '(f, out) := s in
  let fade_in_samples := Fader.fade_in_samples_ f in
  if 0 <? fade_in_samples then
    if negb (default_fade_frames >=? fade_in_samples) then Return s
    else
      let out' :=
        (linear_fade_in_from out.1 off
           (default_fade_frames - fade_in_samples) default_fade_frames
           nframes mute_amp,
         linear_fade_in_from out.2 off
           (default_fade_frames - fade_in_samples) default_fade_frames
           nframes mute_amp) in
      let fade_in_samples := fade_in_samples - Z.of_nat nframes in
      let fade_in_samples := Z.max fade_in_samples 0 in
      Go (Fader.set_fade_in_samples f fade_in_samples, out')
  else Go s.

(** Handle fade out; also yields [faded_out_frames]. *)
Definition handle_fade_out (default_fade_frames : Z) (mute_amp : Q)
    (s : Blk) : Step (Blk * nat) :=
  let '(f, out) := s in
  if Fader.fading_out_ f then
    let fade_out_samples := Fader.fade_out_samples_ f in
    let samples_to_process :=
      Z.max 0 (Z.min fade_out_samples (Z.of_nat nframes)) in
    let faded :=
      if 0 <? fade_out_samples then
        if negb (default_fade_frames >=? fade_out_samples) then Return s
        else
          let out' :=
            (linear_fade_out_to out.1 off
               (default_fade_frames - fade_out_samples) default_fade_frames
               (Z.to_nat samples_to_process) mute_amp,
             linear_fade_out_to out.2 off
               (default_fade_frames - fade_out_samples) default_fade_frames
               (Z.to_nat samples_to_process) mute_amp) in
          let fade_out_samples := fade_out_samples - samples_to_process in
          Go (Fader.set_fade_out_samples f fade_out_samples, out',
              fade_out_samples, Z.to_nat samples_to_process)
      else Go (f, out, fade_out_samples, 0%nat) in
    match faded with
    | Return s' => Return s'
    | Go (f', out', fade_out_samples, faded_out_frames) =>
        (* if still fading out and have no more fade out samples, silence *)
        if fade_out_samples =? 0 then
          let remaining_frames :=
            (nframes - Z.to_nat samples_to_process)%nat in
          if (0 <? remaining_frames)%nat then
            Go (f',
                (mul_k2 out'.1 (off + faded_out_frames) mute_amp
                   remaining_frames,
                 mul_k2 out'.2 (off + faded_out_frames) mute_amp
                   remaining_frames),
                (faded_out_frames + remaining_frames)%nat)
          else Go (f', out', faded_out_frames)
        else Go (f', out', faded_out_frames)
    end
  else Go (s, 0%nat).

(** Apply fader and pan, mono compatibility and phase. *)
Definition apply_gain (f : Fader.t) (out : list Q * list Q)
  : list Q * list Q :=
  let pan := Fader.balance f in
  let amp := Fader.amp f in
  let '(calc_l, calc_r) := calculate_balance_control c pan in
  let out := (mul_k2 out.1 off (amp * calc_l)%Q nframes,
              mul_k2 out.2 off (amp * calc_r)%Q nframes) in
  let out :=
    if Fader.mono_compat_enabled f then make_mono out.1 out.2 off nframes
    else out in
  if Fader.swap_phase f
  then (mul_k2 out.1 off (-1)%Q nframes, mul_k2 out.2 off (-1)%Q nframes)
  else out.

(** Apply the mute level to what no fade-out has covered. *)
Definition apply_mute_level (effectively_muted : bool) (mute_amp : Q)
    (faded_out_frames : nat) (f : Fader.t) (out : list Q * list Q)
  : list Q * list Q :=
  let fade_out_samples := Fader.fade_out_samples_ f in
  if effectively_muted && (fade_out_samples =? 0)
     && (0 <? nframes - faded_out_frames)%nat
  then
    if Qltb mute_amp (1 # 100000)%Q then
      (fill out.1 (off + faded_out_frames) (denormal_prevention_val_ p)
         (nframes - faded_out_frames),
       fill out.2 (off + faded_out_frames) (denormal_prevention_val_ p)
         (nframes - faded_out_frames))
    else
      (mul_k2 out.1 off mute_amp (nframes - faded_out_frames),
       mul_k2 out.2 (off + faded_out_frames) mute_amp
         (nframes - faded_out_frames))
  else out.

(** If master or monitor or sample processor, hard limit the output. *)
Definition hard_limited (f : Fader.t) (track : option (TrackId * Track))
  : bool :=
  (bool_decide (Fader.type_ f = Fader.AudioChannel)
   && match track with Some (_, t) => is_master t | None => false end)
  || bool_decide (Fader.type_ f = Fader.Monitor)
  || bool_decide (Fader.type_ f = Fader.SampleProcessor).

Definition hard_limit (f : Fader.t) (track : option (TrackId * Track))
    (out : list Q * list Q) : list Q * list Q :=
  if hard_limited f track
  then (clip out.1 off (-2)%Q 2%Q nframes, clip out.2 off (-2)%Q 2%Q nframes)
  else out.

(** The branch of a non-passthrough fader with audio ports. *)
Definition process_audio (effectively_muted : bool)
    (track : option (TrackId * Track)) (s : Blk) : Step Blk :=
  let '(f, out) := s in
  let default_fade_frames := fade_frames_for_type c (Fader.type_ f) in
  let '(mute_amp, f, out) :=
    if bool_decide (Fader.type_ f = Fader.Monitor)
    then (denormal_prevention_val_ p, f, process_monitor out)
    else (mute_fader_amp cr,
          arm_fades default_fade_frames effectively_muted f, out) in
  match handle_fade_in default_fade_frames mute_amp (f, out) with
  | Return s' => Return s'
  | Go s1 =>
      match handle_fade_out default_fade_frames mute_amp s1 with
      | Return s' => Return s'
      | Go (f2, out2, faded_out_frames) =>
          let out3 := apply_gain f2 out2 in
          let out4 :=
            apply_mute_level effectively_muted mute_amp faded_out_frames
              f2 out3 in
          Go (f2, hard_limit f2 track out4)
      end
  end.

(** ** The MIDI branch *)

(** The velocity of a channel message is its third byte. *)
Definition midi_get_velocity (raw : Z * Z * Z) : Z := raw.2.

Definition set_velocity (ev : MidiEvent) (vel : Z) : MidiEvent :=
  mkMidiEvent ((raw_buffer_ ev).1, vel) (time_ ev).

(** [(midi_byte_t) x] for a float [x]: the fraction is dropped.  The
    conversion is only defined by C++ when the result fits the byte; the
    model wraps what does not fit. *)
Definition to_midi_byte (x : Q) : Z :=
  (if Qle_bool 0 x then Qfloor x else Qceiling x) mod 256.

(** The body of the loop over the output events.  The product
    [(float) prev_vel * amp_val] is a [float]: it is rounded before the
    conversion drops its fraction. *)
Definition scale_velocity (f : Fader.t) (ev : MidiEvent) : MidiEvent :=
  if bool_decide (Fader.midi_mode_ f = Fader.MIDI_FADER_MODE_VEL_MULTIPLIER)
     && midi_is_note_on c (raw_buffer_ ev)
  then
    let prev_vel := midi_get_velocity (raw_buffer_ ev) in
    let new_vel :=
      to_midi_byte (Float.float32 (inject_Z prev_vel * Fader.amp f)%Q) in
    set_velocity ev (Z.min new_vel 127)
  else ev.

(** [MidiEventVector::append (src, local_offset, nframes)]: the events of
    [src] inside the block are added at the end. *)
Definition append (dest src : list MidiEvent) : list MidiEvent :=
  dest ++ filter (fun ev => in_block off nframes (time_ ev) = true) src.

Definition process_midi (effectively_muted : bool) (f : Fader.t)
    (ports : Ports) : Ports :=
  if negb effectively_muted then
    let out := append (midi_out ports) (midi_in ports) in
    (* if not prefader, also apply volume changes *)
    if negb (Fader.passthrough_ f)
    then set_midi_out ports (scale_velocity f <$> out)
    else set_midi_out ports out
  else ports.

(** ** The whole block *)

(** [process_block]: the fader and its ports afterwards.  [None] only when
    the implied-solo query runs out of fuel. *)
Definition process_block (fuel : nat) (f : Fader.t) (ports : Ports)
  : option (Fader.t * Ports) :=
  match block_track p f with
  | None => Some (f, ports)
  | Some track =>
      match effectively_muted fuel p f track with
      | None => None
      | Some em =>
          if Fader.has_audio_ports f then
            (* copy the input to output *)
            let out := copy_in_to_out ports in
            if Fader.passthrough_ f then
              Some (Fader.set_was_effectively_muted f em,
                    set_stereo_out ports out)
            else
              match process_audio em track (f, out) with
              | Return (f', out') => Some (f', set_stereo_out ports out')
              | Go (f', out') =>
                  Some (Fader.set_was_effectively_muted f' em,
                        set_stereo_out ports out')
              end
          else if bool_decide (Fader.type_ f = Fader.MidiChannel) then
            Some (Fader.set_was_effectively_muted f em,
                  process_midi em f ports)
          else Some (Fader.set_was_effectively_muted f em, ports)
      end
  end.

End ProcessBlock.

(** ** Notions used to state the results about the block *)

(** Both fade counters are within the fade length [d]: the condition under
    which [process_block] takes none of its early exits. *)
Definition fades_in_range (d : Z) (f : Fader.t) : Prop :=
  Fader.fade_in_samples_ f <= d /\ Fader.fade_out_samples_ f <= d.

(** What the block does to a sample after the fades, with mono
    compatibility and phase swap off: amp and the pan gain [calc] of the
    channel, then the hard limit where the fader has one. *)
Definition after_fade (f : Fader.t) (track : option (TrackId * Track))
    (calc : Q) (x : Q) : Q :=
  let y := (x * (Fader.amp f * calc))%Q in
  if hard_limited f track then float_ranges.clamp y (-2) 2 else y.

(** ** Notions used to state what a block leaves alone *)

(** Two buffers of the same length that agree on every sample outside the
    [size] samples at [off]. *)
Definition same_outside (off size : nat) (a b : list Q) : Prop :=
  length a = length b
  /\ forall idx, float_ranges.in_block off size idx = false ->
                 a !! idx = b !! idx.

Definition same_outside2 (off size : nat) (a b : list Q * list Q) : Prop :=
  same_outside off size a.1 b.1 /\ same_outside off size a.2 b.2.

(** The same for the block of a [process_block] call and both channels. *)
Definition outside_block (time_nfo : EngineProcessTimeInfo)
    (a b : list Q * list Q) : Prop :=
  same_outside2 (local_offset_ time_nfo) (nframes_ time_nfo) a b.

(** The members of the fader that are set at construction or through its
    control ports; what remains is the fade state. *)
Definition controls (f : Fader.t) :=
  (Fader.type_ f, Fader.midi_mode_ f, Fader.passthrough_ f, Fader.track_ f,
   Fader.amp f, Fader.balance f, Fader.mute f, Fader.solo f, Fader.listen f,
   Fader.mono_compat_enabled f, Fader.swap_phase f).

(** * Peaks, normalizing and reversing (dsp.h) *)

Module dsp.

Import float_ranges.

(** What the optimized build ([ZRYTHM_USE_OPTIMIZED_DSP]) takes from JUCE:
    [juce::FloatVectorOperations::findMinAndMax], as the pair
    [(getStart (), getEnd ())].  It is not part of the sources. *)
Record Juce := mkJuce {
  findMinAndMax : list Q -> Q * Q;
}.

(** [std::max_element (first, last, comp)]: the first of the largest
    elements; [None] for the empty range, where the iterator returned is
    [last] and the sources dereference it. *)
Fixpoint max_element_from (comp : Q -> Q -> bool) (largest : Q)
    (rest : list Q) : Q :=
  match rest with
  | [] => largest
  | x :: rest' =>
      max_element_from comp (if comp largest x then x else largest) rest'
  end.

Definition max_element (comp : Q -> Q -> bool) (range : list Q) : option Q :=
  match range with
  | [] => None
  | x :: rest => Some (max_element_from comp x rest)
  end.

(** [std::max (a, b)] *)
Definition std_max (a b : Q) : Q := if Qltb a b then b else a.

(** [dsp_abs_max (buf, size)] in either build. *)
Definition dsp_abs_max (juce : Juce) (optimized : bool) (buf : list Q)
    (size : nat) : option Q :=
  if optimized then
    let min_and_max := findMinAndMax juce (take size buf) in
    Some (std_max (Qabs min_and_max.1) (Qabs min_and_max.2))
  else
    match
      max_element (fun a b => Qltb (Qabs a) (Qabs b)) (take size buf)
    with
    | Some x => Some (Qabs x)
    | None => None
    end.

(** The loop of the plain build of [dsp_abs_max_with_existing_peak]. *)
Definition peak_step (new_peak : Q) (x : Q) : Q :=
  let val := Qabs x in
  if Qltb new_peak val then val else new_peak.

(** [dsp_abs_max_with_existing_peak (buf, cur_peak, size)]: the value
    returned and [*cur_peak] afterwards.  [floats_equal] is
    [math_floats_equal], which is not part of the sources. *)
Definition dsp_abs_max_with_existing_peak (juce : Juce) (optimized : bool)
    (floats_equal : Q -> Q -> bool) (buf : list Q) (cur_peak : Q)
    (size : nat) : option (bool * Q) :=
  let new_peak :=
    if optimized then dsp_abs_max juce optimized buf size
    else Some (foldl peak_step cur_peak (take size buf)) in
  match new_peak with
  | Some new_peak => Some (negb (floats_equal new_peak cur_peak), new_peak)
  | None => None
  end.

(** [dsp_reverse (dest, src, size)]: [std::reverse_copy]. *)
Definition dsp_reverse (dest src : list Q) (size : nat) : list Q :=
  on_range 0 size (fun i x => default x (src !! (size - 1 - i)%nat)) dest.

(** [dsp_normalize (dest, src, size)].  The factor [1.f / abs_peak] is a
    [float], and so is every product that [dsp_mul_k2] writes: both are
    rounded.  For a peak of 0 the sources divide by zero; the quotient is 0
    here. *)
Definition dsp_normalize (juce : Juce) (optimized : bool) (dest src : list Q)
    (size : nat) : option (list Q) :=
  let dest := copy dest 0 src size in
  match dsp_abs_max juce optimized dest size with
  | Some abs_peak =>
      let k := Float.float32 (1 / abs_peak) in
      Some (on_range 0 size (fun _ x => Float.float32 (x * k)) dest)
  | None => None
  end.

(** ** Notions used to state the results *)

(** The assumption on JUCE: of a range that is not empty,
    [findMinAndMax] returns the least and the greatest sample. *)
Definition juce_ok (juce : Juce) : Prop :=
  forall range, range <> [] ->
    (findMinAndMax juce range).1 ∈ range
    /\ (findMinAndMax juce range).2 ∈ range
    /\ forall x, x ∈ range ->
         ((findMinAndMax juce range).1 <= x)%Q
         /\ (x <= (findMinAndMax juce range).2)%Q.

(** [m] is the peak of the samples [range]: the absolute value of one of
    them, not exceeded by that of any other. *)
Definition is_peak (range : list Q) (m : Q) : Prop :=
  (exists x, x ∈ range /\ (m == Qabs x)%Q)
  /\ forall y, y ∈ range -> (Qabs y <= m)%Q.

(** A test stand-in for JUCE: least and greatest sample by comparison. *)
Definition test_juce : Juce :=
  mkJuce (fun range =>
            match range with
            | [] => (0%Q, 0%Q)
            | x :: rest =>
                (max_element_from (fun a b => Qltb b a) x rest,
                 max_element_from Qltb x rest)
            end).

End dsp.

(** * Automation tracks ([AutomationTrack::get_val_at_pos]) *)

Module AutomationTrack.

(** An automation point: its position inside the region, in frames, its
    normalized and real value, and its place in the region's list. *)
Record AutomationPoint := mkAp {
  ap_frames : Z;               (* pos_->frames_ *)
  normalized_val_ : Q;
  fvalue_ : Q;
  index_ : nat;
}.

(** An automation region: its start and end on the timeline, in frames,
    whether it (or its lane) is muted, and its points. *)
Record AutomationRegion := mkRegion {
  pos_frames : Z;              (* pos_->frames_ *)
  end_pos_frames : Z;          (* end_pos_->frames_ *)
  muted : bool;                (* get_muted (true) *)
  aps_ : list AutomationPoint;
}.

(** The control port behind [port_id_]. *)
Record ControlPort := mkPort {
  get_control_value : bool -> Q;       (* normalized or real *)
  normalized_val_to_real : Q -> Q;
}.

Record t := mk {
  port : option ControlPort;           (* PROJECT->find_port_by_id (port_id_) *)
  regions_ : list AutomationRegion;    (* region_list_->regions_ *)
  region_snapshots_ : list AutomationRegion;
}.

(** [std::numeric_limits<signed_frame_t>::min ()] *)
Definition SIGNED_FRAME_MIN : Z := - 2 ^ 63.

(** What the sources use of a region and a point without defining it. *)
Record RegionOps := mkRegionOps {
  (* Region::timeline_frames_to_local (timeline_frames, normalize) *)
  timeline_frames_to_local : AutomationRegion -> Z -> bool -> Z;
  (* AutomationRegion::get_next_ap (ap, false, false) *)
  get_next_ap : AutomationRegion -> AutomationPoint -> option AutomationPoint;
  (* AutomationPoint::get_normalized_value_in_curve (region, x) *)
  get_normalized_value_in_curve :
    AutomationPoint -> AutomationRegion -> Q -> Q;
}.

Section GetValAtPos.

Context (ops : RegionOps).

(** The loop of [get_region_before_pos] for [ends_after = true]. *)
Fixpoint first_region_around (pos : Z) (rs : list AutomationRegion)
  : option AutomationRegion :=
  match rs with
  | [] => None
  | region :: rest =>
      if (pos_frames region <=? pos) && (end_pos_frames region >=? pos)
      then Some region
      else first_region_around pos rest
  end.

(** The loop of [get_region_before_pos] for [ends_after = false]: a step
    updates [latest_r] and [latest_distance]. *)
Definition latest_region_step (pos : Z)
    (acc : option AutomationRegion * Z) (region : AutomationRegion)
  : option AutomationRegion * Z :=
  let '(latest_r, latest_distance) := acc in
  let distance_from_r_end := end_pos_frames region - pos in
  if (pos_frames region <=? pos) && (distance_from_r_end >? latest_distance)
  then (Some region, distance_from_r_end)
  else (latest_r, latest_distance).

Definition get_region_before_pos (at_ : t) (pos : Z)
    (ends_after use_snapshots : bool) : option AutomationRegion :=
  let regions :=
    if use_snapshots then region_snapshots_ at_ else regions_ at_ in
  if ends_after then first_region_around pos (reverse regions)
  else (foldl (latest_region_step pos) (None, SIGNED_FRAME_MIN)
              (reverse regions)).1.

(** The position inside region [r] that stands for [pos]: if the region
    ends before [pos], [pos] is taken to be the region's end. *)
Definition local_pos_in (r : AutomationRegion) (pos : Z) (ends_after : bool)
  : Z :=
  timeline_frames_to_local ops r
    (if negb ends_after && (end_pos_frames r <? pos)
     then end_pos_frames r - 1 else pos)
    true.

(** [for (auto &ap : reverse_view (aps)) if (ap->pos_->frames_ <= local_pos)
    return ap;] *)
Fixpoint first_ap_at_or_before (local_pos : Z) (aps : list AutomationPoint)
  : option AutomationPoint :=
  match aps with
  | [] => None
  | ap :: rest =>
      if ap_frames ap <=? local_pos then Some ap
      else first_ap_at_or_before local_pos rest
  end.

Definition get_ap_before_pos (at_ : t) (pos : Z)
    (ends_after use_snapshots : bool) : option AutomationPoint :=
  match get_region_before_pos at_ pos ends_after use_snapshots with
  | None => None
  | Some r =>
      if muted r then None
      else first_ap_at_or_before (local_pos_in r pos ends_after)
             (reverse (aps_ r))
  end.

(** The values of the points and the result are [float]s: the difference,
    the conversion of the curve value, the product and the sum are each
    rounded.  The ratio is the [double] quotient of two frame counts: the
    conversions of the counts to [double] are exact (for counts below
    [2 ^ 53]), the quotient is rounded. *)
Definition get_val_at_pos (at_ : t) (pos : Z)
    (normalized ends_after use_snapshots : bool) : Q :=
  let ap := get_ap_before_pos at_ pos ends_after use_snapshots in
  match port at_ with
  | None => 0
  | Some port =>
      match ap with
      | None =>
          (* no automation points yet, return negative (no change) *)
          get_control_value port normalized
      | Some ap =>
          match get_region_before_pos at_ pos ends_after use_snapshots with
          | None => 0
          | Some region =>
              let localp := local_pos_in region pos ends_after in
              match get_next_ap ops region ap with
              | None =>
                  (* return value at last ap *)
                  if normalized then normalized_val_ ap else fvalue_ ap
              | Some next_ap =>
                  let prev_ap_lower :=
                    Qle_bool (normalized_val_ ap) (normalized_val_ next_ap) in
                  let cur_next_diff :=
                    Qabs (Float.float32
                            (normalized_val_ ap - normalized_val_ next_ap)) in
                  (* ratio of how far in we are in the curve *)
                  let ap_frames := ap_frames ap in
                  let next_ap_frames := AutomationTrack.ap_frames next_ap in
                  let numerator := localp - ap_frames in
                  let denominator := next_ap_frames - ap_frames in
                  let ratio :=
                    if numerator =? 0 then 0%Q
                    else if denominator =? 0 then 1%Q
                    else
                      Float.float64
                        (inject_Z numerator / inject_Z denominator) in
                  if negb (Qle_bool 0 ratio) then 0
                  else
                    let result :=
                      Float.float32
                        (get_normalized_value_in_curve ops ap region ratio) in
                    let result := Float.float32 (result * cur_next_diff) in
                    let result :=
                      if prev_ap_lower
                      then Float.float32 (result + normalized_val_ ap)
                      else Float.float32 (result + normalized_val_ next_ap) in
                    if normalized then result
                    else normalized_val_to_real port result
              end
          end
      end
  end.

End GetValAtPos.

(** ** The interpolation formula of the specification *)

(** [x] clamped into [[0, 1]]. *)
Definition clamp01 (x : Q) : Q :=
  if Qltb x 0 then 0%Q else if Qltb 1 x then 1%Q else x.

(** [ratio = (local_pos - ap.pos) / (next_ap.pos - ap.pos)] clamped into
    [[0, 1]]. *)
Definition claimed_ratio (localp : Z) (ap next_ap : AutomationPoint) : Q :=
  clamp01 (inject_Z (localp - ap_frames ap)
           / inject_Z (ap_frames next_ap - ap_frames ap))%Q.

(** [lower + curve_val * |next.value - ap.value|] *)
Definition claimed_interpolation (curve_val : Q) (ap next_ap : AutomationPoint)
  : Q :=
  (Qmin (normalized_val_ ap) (normalized_val_ next_ap)
   + curve_val * Qabs (normalized_val_ next_ap - normalized_val_ ap))%Q.

(** The same formula as [float] arithmetic evaluates it, for the curve
    value [curve_val] and the normalized values [a] of the point and [b] of
    the next one: the last four steps of [get_val_at_pos]. *)
Definition rounded_interpolation (curve_val a b : Q) : Q :=
  let cur_next_diff := Qabs (Float.float32 (a - b)) in
  let result := Float.float32 curve_val in
  let result := Float.float32 (result * cur_next_diff) in
  if Qle_bool a b then Float.float32 (result + a)
  else Float.float32 (result + b).

(** The assumptions on the curve of a point that the results need: it is a
    function of the value of its argument, and it maps [[0, 1]] into
    [[0, 1]]. *)
Record curve_ok (ops : RegionOps) : Prop := {
  curve_proper : forall ap r x y,
    (x == y)%Q ->
    (get_normalized_value_in_curve ops ap r x
     == get_normalized_value_in_curve ops ap r y)%Q;
  curve_in_01 : forall ap r x,
    (0 <= x)%Q -> (x <= 1)%Q ->
    (0 <= get_normalized_value_in_curve ops ap r x)%Q
    /\ (get_normalized_value_in_curve ops ap r x <= 1)%Q;
}.

(** Test data: regions without loops starting at frame 0 of the timeline,
    the next point taken by index, and a linear curve that runs from the
    value of the point to the value of the next one. *)
Definition next_by_index (r : AutomationRegion) (ap : AutomationPoint)
  : option AutomationPoint :=
  aps_ r !! S (index_ ap).

Definition linear_curve (ap : AutomationPoint) (r : AutomationRegion) (x : Q)
  : Q :=
  match next_by_index r ap with
  | Some next_ap =>
      if Qltb (normalized_val_ next_ap) (normalized_val_ ap)
      then clamp01 (1 - x) else clamp01 x
  | None => clamp01 x
  end.

Definition test_ops : RegionOps :=
  mkRegionOps (fun r frames _ => frames - pos_frames r)
              next_by_index linear_curve.

Definition ap_0 : AutomationPoint := mkAp 0 0 0 0.
Definition ap_1000 : AutomationPoint := mkAp 1000 1 1 1.
Definition ramp_region : AutomationRegion :=
  mkRegion 0 2000 false [ap_0; ap_1000].
Definition test_port : ControlPort := mkPort (fun _ => 9 # 10) (fun x => x).
Definition ramp_track : t := mk (Some test_port) [ramp_region] [].

(** The same track with the region muted. *)
Definition muted_ramp_track : t :=
  mk (Some test_port) [mkRegion 0 2000 true [ap_0; ap_1000]] [].



End AutomationTrack.

(** ** Notions used to state the results about regions and points *)

Module AutomationTrackNotions.

Import AutomationTrack.

(** The list [get_region_before_pos] searches. *)
Definition regions_of (at_ : t) (use_snapshots : bool)
  : list AutomationRegion :=
  if use_snapshots then region_snapshots_ at_ else regions_ at_.

(** [pos] lies inside the region, both ends included. *)
Definition around (pos : Z) (r : AutomationRegion) : Prop :=
  pos_frames r <= pos /\ pos <= end_pos_frames r.

(** What the loop for [ends_after = false] knows after the regions [seen]:
    [latest_r] is one of them, starts at or before [pos] and ends
    [latest_distance] after it, and no region seen that starts at or before
    [pos] ends later. *)
Definition latest_region_inv (pos : Z) (seen : list AutomationRegion)
    (acc : option AutomationRegion * Z) : Prop :=
  match acc.1 with
  | Some r => r ∈ seen /\ pos_frames r <= pos
              /\ acc.2 = end_pos_frames r - pos
  | None => acc.2 = SIGNED_FRAME_MIN
  end
  /\ forall r', r' ∈ seen -> pos_frames r' <= pos ->
                end_pos_frames r' - pos <= acc.2.

End AutomationTrackNotions.

(** * Automation modes ([AutomationTrack::should_read_automation]) *)

Module AutomationRecording.

(** [AutomationMode]: the sources name [AutomationMode::Record]
    ([RecordMode] here, [Record] being a keyword) and [AutomationMode::Off];
    [Read] stands for what remains. *)
Inductive AutomationMode := Read | RecordMode | Off.

#[global] Instance AutomationMode_eq_dec : EqDecision AutomationMode.
Proof. solve_decision. Defined.

Inductive AutomationRecordMode := Touch | Latch.

#[global] Instance AutomationRecordMode_eq_dec
  : EqDecision AutomationRecordMode.
Proof. solve_decision. Defined.

(** The members the two queries read; [last_change_time_] is that of the
    track's port.  Times are [RtTimePoint] microseconds. *)
Record t := mk {
  automation_mode_ : AutomationMode;
  record_mode_ : AutomationRecordMode;
  recording_started_ : bool;
  last_change_time_ : Z;                   (* get_port ().last_change_time_ *)
}.

Section Queries.

(** The constant is not part of the sources. *)
Context (AUTOMATION_RECORDING_TOUCH_REL_MS : Z).

Definition should_be_recording (at_ : t) (cur_time : Z) (record_aps : bool)
  : bool :=
  if negb (bool_decide (automation_mode_ at_ = RecordMode)) then false
  else if bool_decide (record_mode_ at_ = Latch) then
    (* in latch mode, we are always recording *)
    true
  else
    let touch :=
      if bool_decide (record_mode_ at_ = Touch) then
        let diff := cur_time - last_change_time_ at_ in
        if diff <? AUTOMATION_RECORDING_TOUCH_REL_MS * 1000 then
          (* still recording *)
          Some true
        else if negb record_aps then Some (recording_started_ at_)
        else None
      else None in
    match touch with
    | Some b => b
    | None => false
    end.

Definition should_read_automation (at_ : t) (cur_time : Z) : bool :=
  if bool_decide (automation_mode_ at_ = Off) then false
  else if should_be_recording at_ cur_time false then false
  else true.

End Queries.

End AutomationRecording.

(** * The engine's event queue *)

Module AudioEngine.

(** engine.h *)
Definition ENGINE_MAX_EVENTS : nat := 128.

Inductive AudioEngineEventType :=
  | AUDIO_ENGINE_EVENT_BUFFER_SIZE_CHANGE
  | AUDIO_ENGINE_EVENT_SAMPLE_RATE_CHANGE.

(** [AudioEngine::Event], without the fields that only serve logging. *)
Record Event := mkEvent {
  type_ : AudioEngineEventType;
  uint_arg_ : Z;
  float_arg_ : Q;
}.

#[global] Instance AudioEngineEventType_eq_dec : EqDecision AudioEngineEventType.
Proof. solve_decision. Defined.

#[global] Instance Q_eq_dec : EqDecision Q.
Proof. solve_decision. Defined.

#[global] Instance Event_eq_dec : EqDecision Event.
Proof. solve_decision. Defined.

(** The engine as far as events are concerned: the queue, oldest event
    first, and the two settings that events change. *)
Record t := mk {
  ev_queue_ : list Event;
  block_length_ : Z;
  sample_rate_ : Z;
}.

(** Modelled from the spec: [MPMCQueue::push_back] is not part of the
    sources.  The queue is "bounded by [ENGINE_MAX_EVENTS]": an event is
    taken while there is room and refused otherwise. *)
Definition push_back (e : t) (ev : Event) : bool * t :=
  if (length (ev_queue_ e) <? ENGINE_MAX_EVENTS)%nat
  then (true, mk (ev_queue_ e ++ [ev]) (block_length_ e) (sample_rate_ e))
  else (false, e).

(** [ENGINE_EVENTS_PUSH] for each event of a list in turn; the flags tell
    which events were taken. *)
Fixpoint push_all (e : t) (evs : list Event) : list bool * t :=
  match evs with
  | [] => ([], e)
  | ev :: rest =>
      let '(ok, e1) := push_back e ev in
      let '(oks, e2) := push_all e1 rest in
      (ok :: oks, e2)
  end.

(** Modelled from the spec: the body of [clean_duplicate_events_and_copy]
    is not part of the sources (its declaration copies into an array of 100
    slots; the spec gives the pump no such limit, and neither does the
    model).  The pump "dequeues (deduplicating identical consecutive
    events)": of a run of identical events only one is kept. *)
Fixpoint clean_duplicate_events (evs : list Event) : list Event :=
  match evs with
  | [] => []
  | ev :: rest =>
      match rest with
      | next :: _ =>
          if decide (ev = next) then clean_duplicate_events rest
          else ev :: clean_duplicate_events rest
      | [] => [ev]
      end
  end.

Definition clean_duplicate_events_and_copy (e : t) : list Event * t :=
  (clean_duplicate_events (ev_queue_ e),
   mk [] (block_length_ e) (sample_rate_ e)).

(** Modelled from the spec: the body of [process_events] is not part of the
    sources.  For each event the pump "performs [realloc_port_buffers (new)]":
    a buffer-size change sets the block length, a sample-rate change the
    sample rate. *)
Definition handle_event (e : t) (ev : Event) : t :=
  match type_ ev with
  | AUDIO_ENGINE_EVENT_BUFFER_SIZE_CHANGE =>
      mk (ev_queue_ e) (uint_arg_ ev) (sample_rate_ e)
  | AUDIO_ENGINE_EVENT_SAMPLE_RATE_CHANGE =>
      mk (ev_queue_ e) (block_length_ e) (uint_arg_ ev)
  end.

(** The events handled by one run of the pump, in order, and the engine
    afterwards. *)
Definition process_events (e : t) : list Event * t :=
  let '(events, e1) := clean_duplicate_events_and_copy e in
  (events, foldl handle_event e1 events).

(** An engine at 256 frames and 48 kHz with nothing queued, and two
    requests. *)
Definition idle_engine : t := mk [] 256 48000.
Definition buffer_512 : Event :=
  mkEvent AUDIO_ENGINE_EVENT_BUFFER_SIZE_CHANGE 512 0.
Definition rate_44100 : Event :=
  mkEvent AUDIO_ENGINE_EVENT_SAMPLE_RATE_CHANGE 44100 0.

End AudioEngine.

(** * Channel strip wiring ([Channel::connect_plugins]) *)

Module Channel.

Abbreviation PluginUuid := nat.

Definition STRIP_SIZE : nat := 9.

Inductive PluginSlotType := Invalid | Insert | MidiFx | Instrument | Modulator.

#[global] Instance PluginSlotType_eq_dec : EqDecision PluginSlotType.
Proof. solve_decision. Defined.

(** The plugin strip of a channel; [has_project] tells whether
    [get_track ().get_tracklist ()->project_] is set. *)
Record t := mk {
  midi_fx_ : list (option PluginUuid);
  instrument_ : option PluginUuid;
  inserts_ : list (option PluginUuid);
  has_project : bool;
}.

(** The ends of a connection inside the strip, and the port operations the
    wiring routines issue.  [track.processor_->connect_to_plugin (pl)] is
    [Connect TrackProcessor (Plugin pl)],
    [pl.disconnect_from_prefader (ch)] is [Disconnect (Plugin pl) Prefader],
    and so on. *)
Inductive Endpoint := TrackProcessor | Plugin (pl : PluginUuid) | Prefader.

Inductive PortOp :=
  | Connect (src dst : Endpoint)
  | Disconnect (src dst : Endpoint).

Definition connect_no_prev_no_next (pl : PluginUuid) : list PortOp :=
  [ Disconnect TrackProcessor Prefader;
    Connect TrackProcessor (Plugin pl);
    Connect (Plugin pl) Prefader ].

Definition connect_no_prev_next (pl next_pl : PluginUuid) : list PortOp :=
  [ Disconnect TrackProcessor (Plugin next_pl);
    Connect TrackProcessor (Plugin pl);
    Connect (Plugin pl) (Plugin next_pl) ].

Definition connect_prev_no_next (prev_pl pl : PluginUuid) : list PortOp :=
  [ Disconnect (Plugin prev_pl) Prefader;
    Connect (Plugin prev_pl) (Plugin pl);
    Connect (Plugin pl) Prefader ].

Definition connect_prev_next (prev_pl pl next_pl : PluginUuid)
  : list PortOp :=
  [ Disconnect (Plugin prev_pl) (Plugin next_pl);
    Connect (Plugin prev_pl) (Plugin pl);
    Connect (Plugin pl) (Plugin next_pl) ].

(** [for (auto &p : range) { id = p; if (id.has_value ()) break; }] *)
Fixpoint first_occupied (range : list (option PluginUuid))
  : option PluginUuid :=
  match range with
  | [] => None
  | Some p :: _ => Some p
  | None :: rest => first_occupied rest
  end.

(** [for (k ...) { id = plugins[k]; if (id.has_value ()) break; }] over the
    indices [ks], in that order. *)
Fixpoint first_occupied_at (plugins : list (option PluginUuid))
    (ks : list nat) : option PluginUuid :=
  match ks with
  | [] => None
  | k :: ks' =>
      match plugins !! k with
      | Some (Some p) => Some p
      | _ => first_occupied_at plugins ks'
      end
  end.

(** The array searched for neighbours of a slot of the given type; [None]
    is the [default: z_return_if_reached ()] branch. *)
Definition prev_plugins (ch : t) (slot_type : PluginSlotType)
  : option (list (option PluginUuid)) :=
  match slot_type with
  | Insert => Some (inserts_ ch)
  | Instrument | MidiFx => Some (midi_fx_ ch)
  | _ => None
  end.

Definition next_plugins (ch : t) (slot_type : PluginSlotType)
  : option (list (option PluginUuid)) :=
  match slot_type with
  | Insert => Some (inserts_ ch)
  | MidiFx | Instrument => Some (midi_fx_ ch)
  | _ => None
  end.

Definition find_next (ch : t) (slot_type : PluginSlotType) (slot : nat)
    (nexts : list (option PluginUuid)) : option PluginUuid :=
  let k0 := if decide (slot_type = Instrument) then 0%nat else S slot in
  match first_occupied_at nexts (seq k0 (STRIP_SIZE - k0)) with
  | Some n => Some n
  | None =>
      if decide (slot_type = MidiFx) then
        match instrument_ ch with
        | Some i => Some i
        | None => first_occupied (inserts_ ch)
        end
      else None
  end.

Definition find_prev (ch : t) (slot_type : PluginSlotType) (slot : nat)
    (prevs : list (option PluginUuid)) : option PluginUuid :=
  let found :=
    (* if instrument, find previous MIDI FX (if any) *)
    if decide (slot_type = Instrument) then first_occupied (reverse prevs)
    (* else if not instrument, check previous plugins before this slot *)
    else first_occupied_at prevs (reverse (seq 0 slot)) in
  match found with
  | Some p => Some p
  | None =>
      (* if still not found and slot is insert, check instrument or MIDI FX *)
      if decide (slot_type = Insert) then
        match instrument_ ch with
        | Some i => Some i
        | None => first_occupied (reverse (midi_fx_ ch))
        end
      else None
  end.

(** The body of the inner loop for an occupied slot: [None] when one of the
    [z_return_if_...] exits is taken.  Instantiating the plugins involved is
    left out: it does not touch any connection. *)
Definition connect_slot (ch : t) (slot_type : PluginSlotType) (slot : nat)
    (plugin : PluginUuid) : option (list PortOp) :=
  match prev_plugins ch slot_type, next_plugins ch slot_type with
  | Some prevs, Some nexts =>
      if decide (length nexts = STRIP_SIZE) then
        let next_pl_id := find_next ch slot_type slot nexts in
        let prev_pl_id := find_prev ch slot_type slot prevs in
        Some match prev_pl_id, next_pl_id with
             | None, None => connect_no_prev_no_next plugin
             | None, Some n => connect_no_prev_next plugin n
             | Some p, None => connect_prev_no_next p plugin
             | Some p, Some n => connect_prev_next p plugin n
             end
      else None
  | _, _ => None
  end.

(** Slot type and plugin of iteration [(i, j)]. *)
Definition slot_type_of (i : nat) : PluginSlotType :=
  match i with
  | O => MidiFx
  | 1%nat => Instrument
  | _ => Insert
  end.

Definition pl_uuid (ch : t) (i j : nat) : option PluginUuid :=
  match i with
  | O => mjoin (midi_fx_ ch !! j)
  | 1%nat => instrument_ ch
  | _ => mjoin (inserts_ ch !! j)
  end.


Definition iterations : list (nat * nat) :=
  i ← seq 0 3; (fun j => (i, j)) <$> seq 0 STRIP_SIZE.


(** ** The wiring rules of the specification *)

(** Where a plugin is fed from and where it feeds, given its neighbours. *)
Definition source_of (prev : option PluginUuid) : Endpoint :=
  match prev with Some p => Plugin p | None => TrackProcessor end.
Definition sink_of (next : option PluginUuid) : Endpoint :=
  match next with Some n => Plugin n | None => Prefader end.

(** Putting [pl] between [src] and [dst]: the direct link is removed and
    the chain [src → pl → dst] is made. *)
Definition chain (src : Endpoint) (pl : PluginUuid) (dst : Endpoint)
  : list PortOp :=
  [ Disconnect src dst; Connect src (Plugin pl); Connect (Plugin pl) dst ].





(** The neighbours [connect_plugins] computes for slot [slot] of a type. *)
Definition prev_of (ch : t) (slot_type : PluginSlotType) (slot : nat)
  : option PluginUuid :=
  match prev_plugins ch slot_type with
  | Some prevs => find_prev ch slot_type slot prevs
  | None => None
  end.

Definition next_of (ch : t) (slot_type : PluginSlotType) (slot : nat)
  : option PluginUuid :=
  match next_plugins ch slot_type with
  | Some nexts => find_next ch slot_type slot nexts
  | None => None
  end.

(** The wiring of one iteration according to the specification. *)
Definition wire_slot (ch : t) (it : nat * nat) : list PortOp :=
  match pl_uuid ch it.1 it.2 with
  | None => []
  | Some pl =>
      chain (source_of (prev_of ch (slot_type_of it.1) it.2)) pl
            (sink_of (next_of ch (slot_type_of it.1) it.2))
  end.


(** A test strip: MIDI FX in slots 1 and 4, an instrument, inserts in slots
    0 and 3. *)
Definition strip_example : t :=
  mk [None; Some 11; None; None; Some 14; None; None; None; None]%nat
     (Some 20%nat)
     [Some 30; None; None; Some 33; None; None; None; None; None]%nat
     true.

End Channel.

(** * Taking a plugin out of the strip
      ([Channel::disconnect_plugin_from_strip]) *)

Module ChannelDisconnect.

Import Channel.

Definition disconnect_no_prev_no_next (pl : PluginUuid) : list PortOp :=
  [ Disconnect TrackProcessor (Plugin pl);
    Disconnect (Plugin pl) Prefader;
    Connect TrackProcessor Prefader ].

Definition disconnect_no_prev_next (pl next_pl : PluginUuid) : list PortOp :=
  [ Disconnect TrackProcessor (Plugin pl);
    Disconnect (Plugin pl) (Plugin next_pl);
    Connect TrackProcessor (Plugin next_pl) ].

Definition disconnect_prev_no_next (prev_pl pl : PluginUuid) : list PortOp :=
  [ Disconnect (Plugin prev_pl) (Plugin pl);
    Disconnect (Plugin pl) Prefader;
    Connect (Plugin prev_pl) Prefader ].

Definition disconnect_prev_next (prev_pl pl next_pl : PluginUuid)
  : list PortOp :=
  [ Disconnect (Plugin prev_pl) (Plugin pl);
    Disconnect (Plugin pl) (Plugin next_pl);
    Connect (Plugin prev_pl) (Plugin next_pl) ].

(** [dsp::PluginSlot]: a slot type with an index, or a slot type only (the
    instrument). *)
Inductive PluginSlot :=
  | SlotWithIndex (type : PluginSlotType) (index : nat)
  | SlotTypeOnly (type : PluginSlotType).

Definition has_slot_index (slot : PluginSlot) : bool :=
  match slot with SlotWithIndex _ _ => true | SlotTypeOnly _ => false end.

(** [has_slot_index () ? get_slot_with_index ().first
                       : get_slot_type_only ()] *)
Definition slot_type (slot : PluginSlot) : PluginSlotType :=
  match slot with SlotWithIndex ty _ => ty | SlotTypeOnly ty => ty end.

(** [has_slot_index () ? get_slot_with_index ().second : 0] *)
Definition slot_pos (slot : PluginSlot) : nat :=
  match slot with SlotWithIndex _ index => index | SlotTypeOnly _ => 0%nat end.

Definition prev_plugins_ptr (ch : t) (slot_type : PluginSlotType)
  : option (list (option PluginUuid)) :=
  match slot_type with
  | Insert => Some (inserts_ ch)
  | MidiFx => Some (midi_fx_ ch)
  | Instrument => Some (midi_fx_ ch)
  | _ => None
  end.

Definition next_plugins_ptr (ch : t) (slot_type : PluginSlotType)
  : option (list (option PluginUuid)) :=
  match slot_type with
  | Insert => Some (inserts_ ch)
  | MidiFx => Some (midi_fx_ ch)
  | Instrument => Some (inserts_ ch)
  | _ => None
  end.

(** [for (size_t i = pos + 1; i < dsp::STRIP_SIZE; ++i)], then the
    fallback of a MIDI FX slot. *)
Definition next_plugin (ch : t) (slot_type : PluginSlotType) (pos : nat)
    (next_plugins : list (option PluginUuid)) : option PluginUuid :=
  match first_occupied_at next_plugins (seq (S pos) (STRIP_SIZE - S pos)) with
  | Some n => Some n
  | None =>
      if decide (slot_type = MidiFx) then
        match instrument_ ch with
        | Some i => Some i
        | None => first_occupied (inserts_ ch)
        end
      else None
  end.

(** [for (int i = pos - 1; i >= 0; --i)], then the fallback of an insert
    slot. *)
Definition prev_plugin (ch : t) (slot_type : PluginSlotType) (pos : nat)
    (prev_plugins : list (option PluginUuid)) : option PluginUuid :=
  match first_occupied_at prev_plugins (reverse (seq 0 pos)) with
  | Some p => Some p
  | None =>
      if decide (slot_type = Insert) then
        match instrument_ ch with
        | Some i => Some i
        | None => first_occupied (reverse (midi_fx_ ch))
        end
      else None
  end.

(** The port operations of [disconnect_plugin_from_strip (slot, pl)], where
    [pl_slot] is [pl.id_.slot_]; [None] is the [z_return_if_reached] exit.
    Unexposing the plugin's ports at the end touches no connection and is
    left out. *)
Definition disconnect_plugin_from_strip (ch : t) (slot pl_slot : PluginSlot)
    (pl : PluginUuid) : option (list PortOp) :=
  match prev_plugins_ptr ch (slot_type pl_slot),
        next_plugins_ptr ch (slot_type pl_slot) with
  | Some prev_plugins, Some next_plugins =>
      (* FIXME: is 0 correct? *)
      let pos := slot_pos slot in
      let next := next_plugin ch (slot_type pl_slot) pos next_plugins in
      let prev := prev_plugin ch (slot_type pl_slot) pos prev_plugins in
      Some match prev, next with
           | None, None => disconnect_no_prev_no_next pl
           | None, Some n => disconnect_no_prev_next pl n
           | Some p, None => disconnect_prev_no_next p pl
           | Some p, Some n => disconnect_prev_next p pl n
           end
  | _, _ => None
  end.

(** [get_plugins]: the ids collected, in order. *)
Definition get_plugins (ch : t) : list PluginUuid :=
  omap id (inserts_ ch) ++ omap id (midi_fx_ ch)
  ++ option_list (instrument_ ch).

(** ** Notions used to state the results *)

#[global] Instance Endpoint_eq_dec : EqDecision Endpoint.
Proof. solve_decision. Defined.

#[global] Instance PortOp_eq_dec : EqDecision PortOp.
Proof. solve_decision. Defined.

(** The connections inside the strip, and what a port operation does to
    them. *)
Definition Wiring : Type := Endpoint -> Endpoint -> bool.

Definition run_op (w : Wiring) (op : PortOp) : Wiring :=
  match op with
  | Connect src dst =>
      fun a b => if decide (a = src /\ b = dst) then true else w a b
  | Disconnect src dst =>
      fun a b => if decide (a = src /\ b = dst) then false else w a b
  end.

Definition run (w : Wiring) (ops : list PortOp) : Wiring := foldl run_op w ops.

(** Taking [pl] out from between [src] and [dst]: both links of the chain
    are removed and the direct link is made. *)
Definition unchain (src : Endpoint) (pl : PluginUuid) (dst : Endpoint)
  : list PortOp :=
  [ Disconnect src (Plugin pl); Disconnect (Plugin pl) dst; Connect src dst ].

End ChannelDisconnect.

(** * Arranger objects: validated position setter *)

Module ArrangerObject.

(** A [Position] is represented by its frame count: the comparison
    operators, [get_total_frames], [add_frames] and the frame constructor
    only involve [frames_]. *)
Abbreviation Position := Z.

Inductive Type_ :=
  | Region | MidiNote | ChordObject | ScaleObject | Marker
  | AutomationPoint | Velocity.

Inductive RegionType := Midi | Audio | Automation | Chord.

Inductive PositionType :=
  | Start | End | ClipStart | LoopStart | LoopEnd | FadeIn | FadeOut.

#[global] Instance PositionType_eq_dec : EqDecision PositionType.
Proof. solve_decision. Defined.

(** The position members of an arranger object.  The members that a given
    kind of object does not have (a marker has no end, a MIDI region has no
    fades) are never reached: the casts below fail first. *)
Record t := mk {
  type_ : Type_;
  region_type : RegionType;        (* id_.type_, for regions *)
  pos_ : Position;
  end_pos_ : Position;
  clip_start_pos_ : Position;
  loop_start_pos_ : Position;
  loop_end_pos_ : Position;
  fade_in_pos_ : Position;         (* relative to pos_ *)
  fade_out_pos_ : Position;        (* relative to pos_ *)
  clip_num_frames : Z;             (* get_clip ()->num_frames_, audio only *)
}.

Definition type_has_length (ty : Type_) : bool :=
  match ty with Region | MidiNote => true | _ => false end.

Definition type_has_global_pos (ty : Type_) : bool :=
  match ty with Region | ScaleObject | Marker => true | _ => false end.

Definition type_owned_by_region (ty : Type_) : bool :=
  match ty with
  | MidiNote | ChordObject | AutomationPoint | Velocity => true
  | _ => false
  end.

(** [region_type_can_fade], region.h *)
Definition region_type_can_fade (rtype : RegionType) : bool :=
  match rtype with Audio => true | _ => false end.

(** [can_fade ()]: overridden by [Region], [false] elsewhere. *)
Definition can_fade (o : t) : bool :=
  match type_ o with
  | Region => region_type_can_fade (region_type o)
  | _ => false
  end.

(** The outcomes of [dynamic_cast] to the three mix-ins. *)
Definition is_lengthable (o : t) : bool := type_has_length (type_ o).
Definition is_loopable (o : t) : bool :=
  match type_ o with Region => true | _ => false end.
Definition is_fadeable (o : t) : bool := can_fade o.

Definition is_position_valid (o : t) (pos : Position)
    (pos_type : PositionType) : bool :=
  match pos_type with
  | Start =>
      if type_has_length (type_ o) then
        if negb (is_lengthable o) then false
        else if pos >=? end_pos_ o then false
        else if negb (type_owned_by_region (type_ o)) && (pos <? 0) then false
        else if can_fade o then
          if negb (is_fadeable o) then false
          else
            let frames_diff := pos - pos_ o in
            let expected_fade_out := fade_out_pos_ o + - frames_diff in
            if expected_fade_out <=? fade_in_pos_ o then false else true
        else true
      else if type_has_global_pos (type_ o) then pos >=? 0
      else true
  | LoopStart =>
      if negb (is_loopable o) then false
      else (pos <? loop_end_pos_ o) && (pos >=? 0)
  | LoopEnd =>
      if negb (is_loopable o) then false
      else if (pos <? clip_start_pos_ o) || (pos <=? loop_start_pos_ o)
      then false
      else
        match type_ o, region_type o with
        | Region, Audio => pos <=? clip_num_frames o
        | _, _ => true
        end
  | ClipStart =>
      if negb (is_loopable o) then false
      else (pos <? loop_end_pos_ o) && (pos >=? 0)
  | End =>
      if negb (is_lengthable o) then false
      else
        let is_valid := pos >? pos_ o in
        if can_fade o then
          if negb (is_fadeable o) then false
          else
            let frames_diff := pos - end_pos_ o in
            let expected_fade_out := fade_out_pos_ o + frames_diff in
            if expected_fade_out <=? fade_in_pos_ o then false else is_valid
        else is_valid
  | FadeIn =>
      if negb (is_fadeable o) then false
      else
        let local_end_pos := end_pos_ o - pos_ o in
        (pos >=? 0) && (pos >=? 0) && (pos <? local_end_pos)
        && (pos <? fade_out_pos_ o)
  | FadeOut =>
      if negb (is_fadeable o) then false
      else
        let local_end_pos := end_pos_ o - pos_ o in
        (pos >=? 0) && (pos <=? local_end_pos) && (pos >? fade_in_pos_ o)
  end.

(** [*get_position_ptr (pos_type) = pos]: [None] when the pointer is null
    because the object lacks the member. *)
Definition store_position (o : t) (pos_type : PositionType) (pos : Position)
  : option t :=
  let 'mk ty rt st en cs ls le fi fo cf := o in
  match pos_type with
  | Start => Some (mk ty rt pos en cs ls le fi fo cf)
  | End =>
      if is_lengthable o then Some (mk ty rt st pos cs ls le fi fo cf)
      else None
  | ClipStart =>
      if is_loopable o then Some (mk ty rt st en pos ls le fi fo cf)
      else None
  | LoopStart =>
      if is_loopable o then Some (mk ty rt st en cs pos le fi fo cf)
      else None
  | LoopEnd =>
      if is_loopable o then Some (mk ty rt st en cs ls pos fi fo cf)
      else None
  | FadeIn =>
      if is_fadeable o then Some (mk ty rt st en cs ls le pos fo cf)
      else None
  | FadeOut =>
      if is_fadeable o then Some (mk ty rt st en cs ls le fi pos cf)
      else None
  end.

(** [set_position]: the returned flag and the object afterwards.  [pos] is
    the pointer argument, [None] for null. *)
Definition set_position (o : t) (pos : option Position)
    (pos_type : PositionType) (validate : bool) : bool * t :=
  match pos with
  | None => (false, o)
  | Some pos =>
      (* return if validate is on and position is invalid *)
      if validate && negb (is_position_valid o pos pos_type) then (false, o)
      else
        match store_position o pos_type pos with
        | None => (false, o)
        | Some o' => (true, o')
        end
  end.

(** ** The region invariants of the specification *)

Definition length_ok (r : t) : Prop := pos_ r < end_pos_ r.
Definition loop_ok (r : t) : Prop :=
  0 <= loop_start_pos_ r /\ loop_start_pos_ r < loop_end_pos_ r.
Definition clip_start_nonneg (r : t) : Prop := 0 <= clip_start_pos_ r.
Definition clip_start_before_loop_end (r : t) : Prop :=
  clip_start_pos_ r < loop_end_pos_ r.
Definition fade_order_ok (r : t) : Prop :=
  can_fade r = true -> fade_in_pos_ r < fade_out_pos_ r.
Definition fade_in_nonneg (r : t) : Prop :=
  can_fade r = true -> 0 <= fade_in_pos_ r.
Definition fade_out_in_length (r : t) : Prop :=
  can_fade r = true -> fade_out_pos_ r <= end_pos_ r - pos_ r.

(** [end > start], [0 <= loop_start < loop_end],
    [clip_start ∈ [0, loop_end)], and for regions with fades
    [fade_in < fade_out], both inside [[0, end - start]]. *)
Definition region_invariants (r : t) : Prop :=
  length_ok r /\ loop_ok r
  /\ clip_start_nonneg r /\ clip_start_before_loop_end r
  /\ fade_order_ok r /\ fade_in_nonneg r /\ fade_out_in_length r.

(** Test regions. *)
Definition audio_region_0_100 : t :=
  mk Region Audio 0 100 0 0 100 0 100 100.
Definition midi_region_clip_50 : t :=
  mk Region Midi 0 100 50 0 100 0 0 0.

End ArrangerObject.

(** * Arranger objects: reading positions back, start validity *)

Module ArrangerObjectOps.

Import ArrangerObject.

(** [get_position_from_type]: the position written to [*pos].  Except for
    [Start] the source calls a getter through the result of a
    [dynamic_cast] without checking it; [None] stands for the call through
    the null pointer of an object that lacks the member. *)
Definition get_position_from_type (o : t) (type : PositionType)
  : option Position :=
  match type with
  | Start => Some (pos_ o)
  | ClipStart => if is_loopable o then Some (clip_start_pos_ o) else None
  | End => if is_lengthable o then Some (end_pos_ o) else None
  | LoopStart => if is_loopable o then Some (loop_start_pos_ o) else None
  | LoopEnd => if is_loopable o then Some (loop_end_pos_ o) else None
  | FadeIn => if is_fadeable o then Some (fade_in_pos_ o) else None
  | FadeOut => if is_fadeable o then Some (fade_out_pos_ o) else None
  end.

(** [pos_setter]: the object afterwards.  A failure is logged with
    [pos->to_string ()]: after a failure on the null pointer that is a call
    through the null pointer, for which the result is [None]. *)
Definition pos_setter (o : t) (pos : option Position) : option t :=
  let '(success, o') := set_position o pos Start true in
  if negb success then
    match pos with
    | Some _ => Some o'
    | None => None
    end
  else Some o'.

(** [are_members_valid]; [is_project] is not used by the body. *)
Definition are_members_valid (o : t) (is_project : bool) : bool :=
  if negb (is_position_valid o (pos_ o) Start) then false else true.

(** The members no position setter addresses. *)
Definition kind (o : t) : Type_ * RegionType * Z :=
  (type_ o, region_type o, clip_num_frames o).

End ArrangerObjectOps.

(** * Velocities ([Velocity::set_val], the default-velocity setting) *)

From Stdlib Require String.

Module VelocityObject.

Import String.StringSyntax.
Local Open Scope string_scope.

(** The conversion of an [int] to [uint8_t]. *)
Definition to_uint8 (val : Z) : Z := val mod 256.

(** [std::clamp<uint8_t> (v, lo, hi)]: the three arguments are converted
    to [uint8_t] first. *)
Definition clamp_uint8 (v lo hi : Z) : Z :=
  let v := to_uint8 v in
  let lo := to_uint8 lo in
  let hi := to_uint8 hi in
  if v <? lo then lo else if hi <? v then hi else v.

(** [set_val]: [vel_] afterwards.  Re-setting the value of the MIDI note
    does not touch the velocity. *)
Definition set_val (val : Z) : Z := clamp_uint8 val 0 127.

(** [setting_enum_to_str]: [None] is the null pointer returned after
    [z_return_val_if_reached]. *)
Definition setting_enum_to_str (index : nat) : option String.string :=
  match index with
  | 0%nat => Some "last-note"
  | 1%nat => Some "40"
  | 2%nat => Some "90"
  | 3%nat => Some "120"
  | _ => None
  end.

Definition setting_str_to_enum (str : String.string) : nat :=
  if String.eqb str "40" then 1%nat
  else if String.eqb str "90" then 2%nat
  else if String.eqb str "120" then 3%nat
  else 0%nat.

End VelocityObject.

(** * The notes held in the piano roll ([PianoRoll::add_current_note]) *)

Module PianoRoll.

(** [std::ranges::find (current_notes_, note) != current_notes_.end ()] *)
Definition contains_current_note (current_notes_ : list Z) (note : Z)
  : bool :=
  bool_decide (note ∈ current_notes_).

(** [add_current_note]: [current_notes_] afterwards. *)
Definition add_current_note (current_notes_ : list Z) (note : Z) : list Z :=
  if bool_decide (note ∈ current_notes_) then current_notes_ ++ [note]
  else current_notes_.

(** [current_notes_.erase (it)] for the first [note] found. *)
Fixpoint erase_first (current_notes_ : list Z) (note : Z) : list Z :=
  match current_notes_ with
  | [] => []
  | n :: rest =>
      if bool_decide (n = note) then rest else n :: erase_first rest note
  end.

Definition remove_current_note (current_notes_ : list Z) (note : Z)
  : list Z :=
  if bool_decide (note ∈ current_notes_) then erase_first current_notes_ note
  else current_notes_.

End PianoRoll.

(** * Concrete projects used as test inputs *)

Module Examples.

(** A non-passthrough channel fader of track [tid]. *)
Definition channel_fader (ty : Fader.Type_) (tid : TrackId) (m s : bool)
  : Fader.t :=
  Fader.mk ty Fader.MIDI_FADER_MODE_VEL_MULTIPLIER false (Some tid)
    1 (1 # 2) m s false false false 0 0 false false.

(** Master track [0] and a soloed audio track [1] without a direct output. *)
Definition master0 : Track :=
  mkTrack true true true None []
    (channel_fader Fader.AudioChannel 0 false false) false Audio ([], []).
Definition soloed1 : Track :=
  mkTrack true false false None []
    (channel_fader Fader.AudioChannel 1 false true) false Audio ([], []).
Definition unrouted_solo : Project :=
  mkProject (<[0%nat := master0]> (<[1%nat := soloed1]> ∅)) 0%nat BOUNCE_OFF (1 # 1000000000000).

(** Master [0] with a soloed group [1] and an audio track [3] below it;
    audio track [2] routes into the group. *)
Definition group_master : Track :=
  mkTrack true true true None [1%nat; 3%nat]
    (channel_fader Fader.AudioChannel 0 false false) false Audio ([], []).
Definition group_A : Track :=
  mkTrack true false true (Some 0%nat) [2%nat]
    (channel_fader Fader.AudioChannel 1 false true) false Audio ([], []).
Definition child_B : Track :=
  mkTrack true false false (Some 1%nat) []
    (channel_fader Fader.AudioChannel 2 false false) false Audio ([], []).
Definition other_C : Track :=
  mkTrack true false false (Some 0%nat) []
    (channel_fader Fader.AudioChannel 3 false false) false Audio ([], []).
Definition group_tracks : Tracklist :=
  <[0%nat := group_master]> (<[1%nat := group_A]>
    (<[2%nat := child_B]> (<[3%nat := other_C]> ∅))).
Definition group_solo : Project := mkProject group_tracks 0%nat BOUNCE_OFF (1 # 1000000000000).

(** Levels for [group_tracks]: the master on 0, its children on 1, theirs
    on 2. *)
Definition group_lvl (id : TrackId) : nat :=
  match id with
  | O => 0
  | 1 => 1
  | 2 => 2
  | _ => 1
  end%nat.

(** A soloed audio track [1] and an unsoloed audio track [2], both routed
    into the master [0]. *)
Definition sib_master : Track :=
  mkTrack true true true None [1%nat; 2%nat]
    (channel_fader Fader.AudioChannel 0 false false) false Audio ([], []).
Definition sib_soloed : Track :=
  mkTrack true false false (Some 0%nat) []
    (channel_fader Fader.AudioChannel 1 false true) false Audio ([], []).
Definition sib_other : Track :=
  mkTrack true false false (Some 0%nat) []
    (channel_fader Fader.AudioChannel 2 false false) false Audio ([], []).
Definition sibling_tracks : Tracklist :=
  <[0%nat := sib_master]> (<[1%nat := sib_soloed]>
    (<[2%nat := sib_other]> ∅)).

(** Test values for what the sources leave open: fades of 8192 and 1024
    frames, a linear balance law that leaves both channels alone in the
    centre, and the note-on status nibble. *)
Definition linear_balance (pan : Q) : Q * Q :=
  if Qltb pan (1 # 2) then (1, pan / (1 # 2))%Q
  else (((1 - pan) / (1 # 2))%Q, 1%Q).

Definition test_dsp : Dsp :=
  mkDsp 8192 1024 linear_balance
        (fun raw => Z.land raw.1.1 240 =? 144).

Definition test_control_room : ControlRoom :=
  mkControlRoom 0 1 (1 # 10) false.

(** The prefader of the master track of [unrouted_solo]. *)
Definition master_prefader : Fader.t :=
  Fader.mk Fader.AudioChannel Fader.MIDI_FADER_MODE_VEL_MULTIPLIER true
    (Some 0%nat) 1 (1 # 2) false false false false false 0 0 false false.

Definition loud_ports : Ports :=
  mkPorts ([3; -5; 1]%Q, [0; 4; -1]%Q) ([0; 0; 0]%Q, [0; 0; 0]%Q) [] [].

(** An audio track fader at half volume, and four samples of ones. *)
Definition half_volume_fader : Fader.t :=
  Fader.mk Fader.AudioChannel Fader.MIDI_FADER_MODE_VEL_MULTIPLIER false
    (Some 3%nat) (1 # 2) (1 # 2) true false false false false 0 0 false false.

(** The same fader at unity gain. *)
Definition unity_muted_fader : Fader.t :=
  Fader.mk Fader.AudioChannel Fader.MIDI_FADER_MODE_VEL_MULTIPLIER false
    (Some 3%nat) 1 (1 # 2) true false false false false 0 0 false false.

Definition ones_ports : Ports :=
  mkPorts ([1; 1; 1; 1]%Q, [1; 1; 1; 1]%Q) ([0; 0; 0; 0]%Q, [0; 0; 0; 0]%Q)
          [] [].

(** A project in which nothing is soloed. *)
Definition quiet_project : Project :=
  mkProject (<[0%nat := master0]> ∅) 0%nat BOUNCE_OFF (1 # 1000000000000).

(** A MIDI track [5] with its channel fader at the top of the amp range, and
    a note-on of velocity 100 in its input. *)
Definition midi_fader_max : Fader.t :=
  Fader.mk Fader.MidiChannel Fader.MIDI_FADER_MODE_VEL_MULTIPLIER false
    (Some 5%nat) 2 (1 # 2) false false false false false 0 0 false false.

(** The engine bouncing, with the MIDI track [5] not marked for bounce. *)
Definition midi_track5 : Track :=
  mkTrack true false false (Some 0%nat) [] midi_fader_max false MIDI ([], []).
Definition bouncing_project : Project :=
  mkProject (<[0%nat := master0]> (<[5%nat := midi_track5]> ∅)) 0%nat
            BOUNCE_ON (1 # 1000000000000).

Definition note_on_100 : MidiEvent := mkMidiEvent (144, 60, 100) 0.

Definition note_ports : Ports :=
  mkPorts ([], []) ([], []) [note_on_100] [].

(** The prefader of the same track at amp [1/2]: [passthrough_] is set. *)
Definition midi_prefader_half : Fader.t :=
  Fader.mk Fader.MidiChannel Fader.MIDI_FADER_MODE_VEL_MULTIPLIER true
    (Some 5%nat) (1 # 2) (1 # 2) false false false false false 0 0 false
    false.

(** [0.7f], the [float] nearest to 0.7: [0x0.b33333]. *)
Definition float_0_7 : Q := 11744051 # 16777216.

(** The channel fader at amp [0.7f], and a note-on of velocity 10. *)
Definition midi_fader_0_7 : Fader.t :=
  Fader.mk Fader.MidiChannel Fader.MIDI_FADER_MODE_VEL_MULTIPLIER false
    (Some 5%nat) float_0_7 (1 # 2) false false false false false 0 0 false
    false.

Definition note_on_10 : MidiEvent := mkMidiEvent (144, 60, 10) 0.

Definition note_ports_10 : Ports :=
  mkPorts ([], []) ([], []) [note_on_10] [].

End Examples.
(** * Floating-point arithmetic: the error of one rounding *)

Module FloatFacts.
Import Float.

Lemma two_pow_pos (k : Z) : (0 < 2 ^ k)%Q.
Proof. apply Qpower_0_lt. reflexivity. Qed.

Lemma two_pow_plus (i j : Z) : (2 ^ (i + j) == 2 ^ i * 2 ^ j)%Q.
Proof. apply Qpower_plus. discriminate. Qed.

Lemma two_pow_Z (n : Z) : 0 <= n -> (inject_Z (2 ^ n) == 2 ^ n)%Q.
Proof. intros H. rewrite (Zpower_Qpower 2 n H). reflexivity. Qed.

(** The exponent found is not above the number. *)
Lemma exponent_le (x : Q) : (0 < x)%Q -> (2 ^ exponent x <= x)%Q.
Proof.
  intros Hx. unfold exponent.
  set (la := Z.log2 (Qnum x)). set (ld := Z.log2 (Z.pos (Qden x))).
  destruct (Qle_bool (2 ^ (la - ld)) x) eqn:Hle.
  - apply Qle_bool_iff. exact Hle.
  - assert (Hn : 0 < Qnum x).
    { destruct x as [n d]. unfold Qlt in Hx. cbn in *. lia. }
    destruct (Z.log2_spec (Qnum x) Hn) as [Ha _].
    destruct (Z.log2_spec (Z.pos (Qden x)) ltac:(lia)) as [_ Hd].
    fold la in Ha. fold ld in Hd.
    assert (Hla : 0 <= la) by apply Z.log2_nonneg.
    assert (Hld : 0 <= ld) by apply Z.log2_nonneg.
    replace (la - ld - 1) with (la + - (ld + 1)) by lia.
    rewrite two_pow_plus, Qpower_opp.
    rewrite <- (two_pow_Z la Hla), <- (two_pow_Z (ld + 1)) by lia.
    assert (Hx' : (x == inject_Z (Qnum x) / inject_Z (Z.pos (Qden x)))%Q).
    { rewrite <- Qmake_Qdiv. destruct x; reflexivity. }
    assert (H1 : (inject_Z (2 ^ la) <= inject_Z (Qnum x))%Q)
      by (rewrite <- Zle_Qle; exact Ha).
    assert (H2 : (inject_Z (Z.pos (Qden x)) < inject_Z (2 ^ (ld + 1)))%Q)
      by (rewrite <- Zlt_Qlt; exact Hd).
    assert (H3 : (0 < inject_Z (Z.pos (Qden x)))%Q)
      by (change 0%Q with (inject_Z 0); rewrite <- Zlt_Qlt; lia).
    assert (H4 : (0 < inject_Z (2 ^ la))%Q).
    { change 0%Q with (inject_Z 0). rewrite <- Zlt_Qlt.
      apply Z.pow_pos_nonneg; lia. }
    apply Qle_trans
      with (inject_Z (Qnum x) / inject_Z (Z.pos (Qden x)))%Q;
      [|apply Qle_lteq; right; symmetry; exact Hx'].
    set (A := inject_Z (Qnum x)) in *.
    set (D := inject_Z (Z.pos (Qden x))) in *.
    set (PA := inject_Z (2 ^ la)) in *.
    set (PD := inject_Z (2 ^ (ld + 1))) in *.
    unfold Qdiv.
    assert (H5 : (0 < PD)%Q) by lra.
    assert (H6 : (/ PD <= / D)%Q).
    { apply Qle_shift_inv_l; [exact H3|].
      change (/ PD * D)%Q with (/ PD * D)%Q. rewrite Qmult_comm.
      change (D * / PD)%Q with (D / PD)%Q.
      apply Qle_shift_div_r; [exact H5|]. lra. }
    assert (H7 : (0 < / D)%Q) by (apply Qinv_lt_0_compat; exact H3).
    assert (H8 : (0 < / PD)%Q) by (apply Qinv_lt_0_compat; exact H5).
    nra.
Qed.

(** Rounding to an integer moves a number by a half at most. *)
Lemma nearest_even_error (s : Q) :
  (Qabs (inject_Z (nearest_even s) - s) <= 1 # 2)%Q.
Proof.
  unfold nearest_even.
  pose proof (Qfloor_le s) as Hlo. pose proof (Qlt_floor s) as Hhi.
  rewrite inject_Z_plus in Hhi.
  set (q := Qfloor s) in *.
  apply Qabs_Qle_condition.
  destruct (Qcompare_spec (s - inject_Z q) (1 # 2)) as [H|H|H].
  - destruct (Z.even q); [|rewrite inject_Z_plus];
      change (inject_Z 1) with 1%Q in *; split; lra.
  - split; lra.
  - rewrite inject_Z_plus. change (inject_Z 1) with 1%Q in *. split; lra.
Qed.

(** The standard model of floating-point arithmetic: rounding to [prec]
    bits changes a number by at most [2 ^ - prec] of its magnitude. *)
Lemma round_error (prec : Z) (x : Q) :
  (Qabs (round prec x - x) <= 2 ^ (- prec) * Qabs x)%Q.
Proof.
  unfold round. destruct (Qeq_bool x 0) eqn:Hz.
  - apply Qeq_bool_eq in Hz.
    assert (H0 : (Qabs (0 - x) == 0)%Q).
    { rewrite Hz. reflexivity. }
    assert (H1 : (Qabs x == 0)%Q) by (rewrite Hz; reflexivity).
    rewrite H0, H1. lra.
  - apply Qeq_bool_neq in Hz.
    assert (Ha : (0 < Qabs x)%Q).
    { pose proof (Qabs_nonneg x) as Hge.
      destruct (Qlt_le_dec 0 (Qabs x)) as [H|H]; [exact H|].
      exfalso. apply Hz.
      assert (Hzero : (Qabs x == 0)%Q) by lra.
      destruct (Qlt_le_dec x 0) as [Hneg|Hnn].
      - rewrite (Qabs_neg x) in Hzero by lra. lra.
      - rewrite (Qabs_pos x) in Hzero by lra. exact Hzero. }
    set (e := exponent (Qabs x)).
    pose proof (exponent_le (Qabs x) Ha) as He. fold e in He.
    set (ulp := (2 ^ (e - (prec - 1)))%Q).
    assert (Hulp : (0 < ulp)%Q) by apply two_pow_pos.
    pose proof (nearest_even_error (Qabs x / ulp)) as Hm.
    set (m := inject_Z (nearest_even (Qabs x / ulp))) in *.
    (* the error of the magnitude *)
    assert (Herr : (Qabs (m * ulp - Qabs x) <= ulp * (1 # 2))%Q).
    { assert (Heq : (m * ulp - Qabs x == (m - Qabs x / ulp) * ulp)%Q)
        by (field; lra).
      rewrite Heq, Qabs_Qmult, (Qabs_pos ulp) by lra.
      rewrite (Qmult_comm _ ulp).
      apply Qmult_le_l; [exact Hulp|exact Hm]. }
    (* half an ulp against the magnitude *)
    assert (Hhalf : (ulp * (1 # 2) <= 2 ^ (- prec) * Qabs x)%Q).
    { assert (Hsplit : (ulp * (1 # 2) == 2 ^ (- prec) * 2 ^ e)%Q).
      { unfold ulp.
        replace (e - (prec - 1)) with (- prec + (e + 1)) by lia.
        rewrite !two_pow_plus. change (2 ^ 1)%Q with 2%Q. ring. }
      rewrite Hsplit.
      apply Qmult_le_l; [apply two_pow_pos|exact He]. }
    destruct (Qle_bool 0 x) eqn:Hsign.
    + apply Qle_bool_iff in Hsign.
      rewrite (Qabs_pos x Hsign) in *. lra.
    + assert (Hneg : (x < 0)%Q).
      { apply Qnot_le_lt. intros H. apply Qle_bool_iff in H. congruence. }
      assert (Hx : (Qabs x == - x)%Q) by (apply Qabs_neg; lra).
      assert (Heq : (- (m * ulp) - x == - (m * ulp - Qabs x))%Q)
        by (rewrite Hx; ring).
      rewrite Heq, Qabs_opp. lra.
Qed.

(** For [float]: a relative error of [eps32] at most. *)
Lemma float32_error (x : Q) :
  (Qabs (float32 x - x) <= eps32 * Qabs x)%Q.
Proof. exact (round_error 24 x). Qed.

(** Zero is a [float]. *)
Lemma round_zero (prec : Z) (x : Q) : (x == 0)%Q -> round prec x = 0%Q.
Proof.
  intros H. unfold round.
  rewrite (proj2 (Qeq_bool_iff x 0) H). reflexivity.
Qed.

Lemma float32_zero (x : Q) : (x == 0)%Q -> float32 x = 0%Q.
Proof. apply round_zero. Qed.

(** The rounded value of a number that is not negative, between two
    multiples of it. *)
Lemma float32_bounds (x : Q) :
  (0 <= x)%Q ->
  ((1 - eps32) * x <= float32 x)%Q /\ (float32 x <= (1 + eps32) * x)%Q.
Proof.
  intros Hx. pose proof (float32_error x) as H.
  rewrite (Qabs_pos x Hx) in H.
  apply Qabs_Qle_condition in H. destruct H as [H1 H2].
  split; lra.
Qed.

Lemma float32_nonneg (x : Q) : (0 <= x)%Q -> (0 <= float32 x)%Q.
Proof.
  intros Hx. destruct (float32_bounds x Hx) as [H _].
  unfold eps32 in H. nra.
Qed.

(** The same for the magnitude of any number. *)
Lemma float32_abs_bounds (x : Q) :
  ((1 - eps32) * Qabs x <= Qabs (float32 x))%Q
  /\ (Qabs (float32 x) <= (1 + eps32) * Qabs x)%Q.
Proof.
  pose proof (float32_error x) as H.
  pose proof (Qabs_triangle_reverse (float32 x) x) as H1.
  pose proof (Qabs_triangle_reverse x (float32 x)) as H2.
  rewrite (Qabs_Qminus x (float32 x)) in H2. split; lra.
Qed.

Lemma Qmult_le_mono (x x' y y' : Q) :
  (0 <= x)%Q -> (x <= x')%Q -> (0 <= y)%Q -> (y <= y')%Q ->
  (x * y <= x' * y')%Q.
Proof. intros. nra. Qed.

Lemma eps32_small : (0 <= eps32)%Q /\ (eps32 <= 1 # 10000000)%Q.
Proof. unfold eps32. split; lra. Qed.

(** ** [double] *)

Lemma float64_error (x : Q) :
  (Qabs (float64 x - x) <= eps64 * Qabs x)%Q.
Proof. exact (round_error 53 x). Qed.

Lemma float64_nonneg (x : Q) : (0 <= x)%Q -> (0 <= float64 x)%Q.
Proof.
  intros Hx. pose proof (float64_error x) as H.
  rewrite (Qabs_pos x Hx) in H.
  apply Qabs_Qle_condition in H. destruct H as [H1 _].
  unfold eps64 in H1. nra.
Qed.

Lemma float64_neg (x : Q) : (x < 0)%Q -> (float64 x < 0)%Q.
Proof.
  intros Hx. pose proof (float64_error x) as H.
  rewrite (Qabs_neg x) in H by lra.
  apply Qabs_Qle_condition in H. destruct H as [_ H2].
  unfold eps64 in H2. nra.
Qed.

(** Rounding to an integer does not pass an integer. *)
Lemma nearest_even_le (s : Q) (N : Z) :
  (s <= inject_Z N)%Q -> nearest_even s <= N.
Proof.
  intros Hs. unfold nearest_even.
  pose proof (Qfloor_le s) as Hlo.
  set (q := Qfloor s) in *.
  assert (Hq : q <= N).
  { rewrite Zle_Qle. lra. }
  assert (Hup : (1 # 2 <= s - inject_Z q)%Q -> q + 1 <= N).
  { intros Hr. destruct (Z.eq_dec q N) as [Heq|Hne]; [|lia].
    rewrite Heq in Hr. lra. }
  destruct (Qcompare_spec (s - inject_Z q) (1 # 2)) as [H|H|H].
  - destruct (Z.even q); [exact Hq|]. apply Hup. lra.
  - exact Hq.
  - apply Hup. lra.
Qed.

Lemma two_pow_ge_1 (k : Z) : 0 <= k -> (1 <= 2 ^ k)%Q.
Proof.
  intros Hk. rewrite <- (two_pow_Z k Hk).
  change 1%Q with (inject_Z 1). rewrite <- Zle_Qle.
  pose proof (Z.pow_pos_nonneg 2 k ltac:(lia) Hk). lia.
Qed.

(** A number of [[0, 1]] is rounded to a number of [[0, 1]]. *)
Lemma round_le_one (prec : Z) (x : Q) :
  1 <= prec -> (0 <= x)%Q -> (x <= 1)%Q -> (round prec x <= 1)%Q.
Proof.
  intros Hprec Hx0 Hx1. unfold round.
  destruct (Qeq_bool x 0) eqn:Hz; [discriminate|].
  apply Qeq_bool_neq in Hz.
  rewrite (proj2 (Qle_bool_iff 0 x) Hx0).
  assert (Ha : (Qabs x == x)%Q) by (apply Qabs_pos; exact Hx0).
  set (a := Qabs x) in *.
  assert (Ha0 : (0 < a)%Q) by lra.
  pose proof (exponent_le a Ha0) as He.
  set (e := exponent a) in *.
  assert (He0 : e <= 0).
  { destruct (Z_le_gt_dec e 0) as [H|H]; [exact H|]. exfalso.
    replace e with (1 + (e - 1)) in He by lia.
    rewrite two_pow_plus in He.
    pose proof (two_pow_ge_1 (e - 1) ltac:(lia)) as H1.
    change (2 ^ 1)%Q with 2%Q in He. lra. }
  set (ulp := (2 ^ (e - (prec - 1)))%Q).
  assert (Hulp : (0 < ulp)%Q) by apply two_pow_pos.
  set (N := 2 ^ (prec - 1 - e)).
  assert (HN : (inject_Z N * ulp == 1)%Q).
  { unfold N, ulp. rewrite two_pow_Z by lia.
    rewrite <- two_pow_plus.
    replace (prec - 1 - e + (e - (prec - 1))) with 0 by lia. reflexivity. }
  assert (Hs : (a / ulp <= inject_Z N)%Q).
  { apply Qle_shift_div_r; [exact Hulp|]. lra. }
  pose proof (nearest_even_le _ _ Hs) as Hm.
  rewrite Zle_Qle in Hm.
  set (m := inject_Z (nearest_even (a / ulp))) in *.
  nra.
Qed.

Lemma float64_le_one (x : Q) :
  (0 <= x)%Q -> (x <= 1)%Q -> (float64 x <= 1)%Q.
Proof. apply round_le_one. lia. Qed.

End FloatFacts.


(** * Theorems: effective mute *)

Section EffectiveMute.

Import Examples.

(** C1, counterexample.  With a soloed track that has no direct output, the
    master track is neither soloed nor implied-soloed; the specification's
    formula mutes the master fader, the code does not (the solo clause ends
    in [track != P_MASTER_TRACK]). *)
Lemma effectively_muted_master_counterexample :
  let f := fader_ master0 in
  block_track unrouted_solo f = Some (Some (0%nat, master0))
  /\ get_implied_soloed 2 (TRACKLIST unrouted_solo) f = Some false
  /\ effectively_muted 2 unrouted_solo f (Some (0%nat, master0)) = Some false
  /\ claimed_effectively_muted unrouted_solo f false = true.
Proof. vm_compute. auto. Qed.

(** C1, as amended.  Whenever the block fetched its track and the implied
    solo query returned [imp], a fader is effectively muted exactly when it is
    not a passthrough fader and: its mute control is on, or it is a channel
    fader other than the master track's, some track is soloed and it is
    neither soloed nor implied-soloed, or the engine is bouncing and it is a
    channel fader whose track is neither the master nor marked for bounce.
    (MIDI channel faders while bouncing are left out of the statement.) *)
Theorem effectively_muted_guarded
    (fuel : nat) (p : Project) (f : Fader.t)
    (track : option (TrackId * Track)) (imp : bool) :
  block_track p f = Some track ->
  get_implied_soloed fuel (TRACKLIST p) f = Some imp ->
  (Fader.type_ f = Fader.MidiChannel -> bounce_mode_ p <> BOUNCE_ON) ->
  effectively_muted fuel p f track = Some (guarded_effectively_muted p f imp).
Proof.
  intros Htrack Himp Hmidi.
  unfold effectively_muted, guarded_effectively_muted, on_master_track,
    fader_track, block_track, Fader.get_muted, Fader.get_soloed in *.
  rewrite Himp. clear Himp.
  destruct (Fader.passthrough_ f); [reflexivity|].
  destruct (Fader.mute f); [reflexivity|]. cbn [negb andb orb option_map].
  destruct (Fader.type_ f) eqn:Hty; cbn [Fader.is_channel_type andb] in *.
  - (* AudioChannel *)
    destruct (Fader.track_ f) as [tid|]; [|discriminate].
    destruct (TRACKLIST p !! tid) as [t|] eqn:Ht; [|discriminate].
    injection Htrack as <-. cbn [track_ne_master].
    assert (Hid : bool_decide (Some tid = Some (P_MASTER_TRACK p))
                  = bool_decide (tid = P_MASTER_TRACK p)).
    { apply bool_decide_ext. split; congruence. }
    rewrite Hid.
    rewrite (bool_decide_eq_true_2 (Fader.AudioChannel = Fader.AudioChannel))
      by reflexivity.
    destruct (has_soloed (TRACKLIST p)), (Fader.solo f), imp,
      (bool_decide (tid = P_MASTER_TRACK p)),
      (bool_decide (bounce_mode_ p = BOUNCE_ON)); reflexivity.
  - (* MidiChannel *)
    injection Htrack as <-. cbn [track_ne_master].
    rewrite (bool_decide_eq_false_2 (bounce_mode_ p = BOUNCE_ON))
      by (apply Hmidi; reflexivity).
    rewrite (bool_decide_eq_false_2 (Fader.MidiChannel = Fader.AudioChannel))
      by discriminate.
    destruct (has_soloed (TRACKLIST p)), (Fader.solo f), imp; reflexivity.
  - (* Monitor *)
    injection Htrack as <-.
    destruct (bool_decide (bounce_mode_ p = BOUNCE_ON)); reflexivity.
  - (* SampleProcessor *)
    injection Htrack as <-.
    destruct (bool_decide (bounce_mode_ p = BOUNCE_ON)); reflexivity.
Qed.

(** The amended statement applied to the master fader of the project above. *)
Lemma effectively_muted_guarded_witness :
  effectively_muted 2 unrouted_solo (fader_ master0) (Some (0%nat, master0))
  = Some (guarded_effectively_muted unrouted_solo (fader_ master0) false).
Proof.
  apply (effectively_muted_guarded 2 unrouted_solo (fader_ master0)
           (Some (0%nat, master0)) false).
  - reflexivity.
  - reflexivity.
  - intros H. vm_compute in H. discriminate H.
Defined.

(** What the amended statement leaves out: while bouncing, the fader of a
    MIDI track that is not marked for bounce is not muted by the bounce
    clause, because the block fetches no track for it. *)
Lemma midi_fader_while_bouncing :
  fader_track bouncing_project midi_fader_max = Some midi_track5
  /\ bounce_ midi_track5 = false
  /\ block_track bouncing_project midi_fader_max = Some None
  /\ effectively_muted 3 bouncing_project midi_fader_max None = Some false.
Proof. vm_compute. auto 6. Qed.

End EffectiveMute.

(** * Theorems: implied solo *)

Section ImpliedSolo.

Context (tl : Tracklist).

Lemma get_output_track_registered tid t oid o :
  get_output_track tl tid t = Some (oid, o) ->
  output_track_uuid_ t = Some oid /\ tl !! oid = Some o.
Proof.
  unfold get_output_track.
  destruct (output_track_uuid_ t) as [x|]; [|discriminate].
  destruct (tl !! x) as [y|] eqn:Hx; [|discriminate].
  destruct (can_be_group_target y); [|discriminate].
  destruct (decide (tid = x)); [discriminate|].
  intros [= <- <-]. auto.
Qed.

(** More fuel never changes an answer of the parent walk. *)
Lemma parents_soloed_mono k k' tid t b :
  (k <= k')%nat ->
  parents_soloed k tl tid t = Some b -> parents_soloed k' tl tid t = Some b.
Proof.
  revert k' tid t. induction k as [|k IH]; intros k' tid t Hle; [discriminate|].
  destruct k' as [|k']; [lia|]. simpl.
  destruct (has_channel t); [|auto].
  destruct (get_output_track tl tid t) as [[oid o]|]; [|auto].
  destruct (track_get_soloed o); [auto|].
  apply IH. lia.
Qed.

(** The parent walk answers [true] exactly for a soloed ancestor. *)
Lemma parents_soloed_spec k tid t b :
  parents_soloed k tl tid t = Some b ->
  (b = true <-> soloed_ancestor tl tid t).
Proof.
  revert tid t b. induction k as [|k IH]; intros tid t b; [discriminate|].
  simpl. destruct (has_channel t) eqn:Hch.
  - destruct (get_output_track tl tid t) as [[oid o]|] eqn:Hout.
    + destruct (track_get_soloed o) eqn:Hs.
      * intros [= <-]. split; [|reflexivity].
        intros _. eapply soloed_parent; eauto.
      * intros Hrec. specialize (IH _ _ _ Hrec). rewrite IH.
        split.
        -- intros Ha. eapply soloed_further; eauto.
        -- intros Ha. inversion Ha; subst; congruence.
    + intros [= <-]. split; [discriminate|].
      intros Ha. inversion Ha; subst; congruence.
  - intros [= <-]. split; [discriminate|].
    intros Ha. inversion Ha; subst; congruence.
Qed.

Lemma children_soloed_mono (g g' : Track -> option bool) cs b :
  (forall ct b', g ct = Some b' -> g' ct = Some b') ->
  children_soloed g tl cs = Some b -> children_soloed g' tl cs = Some b.
Proof.
  intros Hg. induction cs as [|c cs IH]; simpl; [auto|].
  destruct (tl !! c) as [ct|]; [|auto].
  destruct (track_get_soloed ct); [auto|].
  destruct (g ct) as [[|]|] eqn:Hgc; [| |discriminate].
  - rewrite (Hg _ _ Hgc). auto.
  - rewrite (Hg _ _ Hgc). auto.
Qed.

Lemma children_soloed_spec (g : Track -> option bool) cs b :
  children_soloed g tl cs = Some b ->
  (b = true <-> exists c ct, c ∈ cs /\ tl !! c = Some ct
                  /\ (track_get_soloed ct = true \/ g ct = Some true)).
Proof.
  revert b. induction cs as [|c cs IH]; intros b; simpl.
  - intros [= <-]. split; [discriminate|].
    intros (c & ct & Hin & _). inversion Hin.
  - destruct (tl !! c) as [ct|] eqn:Hc.
    + destruct (track_get_soloed ct) eqn:Hs.
      * intros [= <-]. split; [|reflexivity].
        intros _. exists c, ct. split; [left|]. auto.
      * destruct (g ct) as [[|]|] eqn:Hgc; [| |discriminate].
        -- intros [= <-]. split; [|reflexivity].
           intros _. exists c, ct. split; [left|]. auto.
        -- intros Hrec. rewrite (IH _ Hrec). split.
           ++ intros (c' & ct' & Hin & Hrest). exists c', ct'.
              split; [right; exact Hin|exact Hrest].
           ++ intros (c' & ct' & Hin & Hl & Hr).
              apply elem_of_cons in Hin as [->|Hin].
              ** rewrite Hc in Hl. injection Hl as <-.
                 destruct Hr; congruence.
              ** exists c', ct'. auto.
    + intros Hrec. rewrite (IH _ Hrec). split.
      * intros (c' & ct' & Hin & Hrest). exists c', ct'.
        split; [right; exact Hin|exact Hrest].
      * intros (c' & ct' & Hin & Hl & Hr).
        apply elem_of_cons in Hin as [->|Hin]; [congruence|].
        exists c', ct'. auto.
Qed.

Lemma get_implied_soloed_mono k k' f b :
  (k <= k')%nat ->
  get_implied_soloed k tl f = Some b -> get_implied_soloed k' tl f = Some b.
Proof.
  revert k' f b. induction k as [|k IH]; intros k' f b Hle; [discriminate|].
  destruct k' as [|k']; [lia|].
  cbn [get_implied_soloed].
  destruct (negb (Fader.is_channel_type (Fader.type_ f))
            || Fader.passthrough_ f || Fader.get_soloed f); [auto|].
  destruct (Fader.track_ f) as [tid|]; [|auto].
  destruct (tl !! tid) as [t|]; [|auto].
  destruct (parents_soloed (S k) tl tid t) as [bp|] eqn:Hp; [|discriminate].
  assert (Hp' : parents_soloed (S k') tl tid t = Some bp).
  { apply (parents_soloed_mono (S k)); [lia|exact Hp]. }
  rewrite Hp'. destruct bp; [auto|].
  destruct (can_be_group_target t); [|auto].
  apply children_soloed_mono. intros ct b'. apply IH. lia.
Qed.

Context (lvl : TrackId -> nat) (N : nat) (Hwf : routing_levels lvl N tl).

(** With acyclic routing the parent walk ends within [lvl tid + 1] steps. *)
Lemma parents_soloed_terminates k tid t :
  tl !! tid = Some t -> (lvl tid < k)%nat ->
  exists b, parents_soloed k tl tid t = Some b.
Proof.
  revert tid t. induction k as [|k IH]; intros tid t Ht Hlt; [lia|].
  simpl. destruct (has_channel t); [|eauto].
  destruct (get_output_track tl tid t) as [[oid o]|] eqn:Hout; [|eauto].
  destruct (track_get_soloed o); [eauto|].
  destruct (get_output_track_registered _ _ _ _ Hout) as [Huuid Ho].
  apply IH; [exact Ho|].
  pose proof (lvl_output _ _ _ Hwf _ _ _ Ht Huuid). lia.
Qed.

Lemma children_soloed_terminates (g : Track -> option bool) cs :
  (forall c ct, c ∈ cs -> tl !! c = Some ct -> exists b, g ct = Some b) ->
  exists b, children_soloed g tl cs = Some b.
Proof.
  induction cs as [|c cs IH]; intros Hg; simpl; [eauto|].
  assert (Hrest : exists b, children_soloed g tl cs = Some b).
  { apply IH. intros c' ct' Hin. apply Hg. right. exact Hin. }
  destruct (tl !! c) as [ct|] eqn:Hc; [|exact Hrest].
  destruct (track_get_soloed ct); [eauto|].
  destruct (Hg c ct ltac:(left) Hc) as [[|] ->]; eauto.
Qed.

(** With acyclic routing the whole query ends: [d] bounds the levels left
    below the fader's track. *)
Lemma get_implied_soloed_terminates_aux d k f :
  (N + d < k)%nat ->
  (forall tid t, Fader.track_ f = Some tid -> tl !! tid = Some t ->
     (N - lvl tid <= d)%nat) ->
  exists b, get_implied_soloed k tl f = Some b.
Proof.
  revert k f. induction d as [|d IH]; intros k f Hk Hd.
  - destruct k as [|k]; [lia|]. cbn [get_implied_soloed].
    destruct (negb (Fader.is_channel_type (Fader.type_ f))
              || Fader.passthrough_ f || Fader.get_soloed f); [eauto|].
    destruct (Fader.track_ f) as [tid|] eqn:Htid; [|eauto].
    destruct (tl !! tid) as [t|] eqn:Ht; [|eauto].
    pose proof (lvl_bound _ _ _ Hwf _ _ Ht).
    specialize (Hd _ _ eq_refl Ht). lia.
  - destruct k as [|k]; [lia|]. cbn [get_implied_soloed].
    destruct (negb (Fader.is_channel_type (Fader.type_ f))
              || Fader.passthrough_ f || Fader.get_soloed f); [eauto|].
    destruct (Fader.track_ f) as [tid|] eqn:Htid; [|eauto].
    destruct (tl !! tid) as [t|] eqn:Ht; [|eauto].
    pose proof (lvl_bound _ _ _ Hwf _ _ Ht) as Hb.
    destruct (parents_soloed_terminates (S k) tid t Ht ltac:(lia))
      as [[|] ->]; [eauto|].
    destruct (can_be_group_target t); [|eauto].
    apply children_soloed_terminates. intros c ct Hin Hc.
    apply IH; [lia|].
    intros tid' t' Htid' Ht'.
    rewrite (fader_owner _ _ _ Hwf _ _ Hc) in Htid'. injection Htid' as <-.
    pose proof (lvl_children _ _ _ Hwf _ _ _ Ht Hin).
    pose proof (lvl_bound _ _ _ Hwf _ _ Hc).
    specialize (Hd _ _ eq_refl Ht). lia.
Qed.

Lemma get_implied_soloed_terminates k f :
  (2 * N < k)%nat -> exists b, get_implied_soloed k tl f = Some b.
Proof.
  intros Hk. apply (get_implied_soloed_terminates_aux N); [lia|].
  intros. lia.
Qed.

(** With enough fuel the query answers [true] exactly for
    [implied_by_routing], the children being asked with the same fuel. *)
Lemma get_implied_soloed_routing k f :
  (2 * N < k)%nat ->
  (get_implied_soloed k tl f = Some true
   <-> implied_by_routing (fun ct => get_implied_soloed k tl (fader_ ct))
         tl f).
Proof.
  intros Hk. destruct k as [|k]; [lia|].
  (* the children are asked with one unit less, which changes nothing *)
  assert (Hsame : forall c ct, tl !! c = Some ct ->
            forall tid t, tl !! tid = Some t -> c ∈ children_ t ->
            (get_implied_soloed k tl (fader_ ct) = Some true
             <-> get_implied_soloed (S k) tl (fader_ ct) = Some true)).
  { intros c ct Hc tid t Ht Hin. split.
    - apply get_implied_soloed_mono. lia.
    - intros Htrue.
      destruct (get_implied_soloed_terminates_aux (N - 1) k (fader_ ct))
        as [b Hb].
      + pose proof (lvl_bound _ _ _ Hwf _ _ Hc). lia.
      + intros tid' t' Htid' Ht'.
        rewrite (fader_owner _ _ _ Hwf _ _ Hc) in Htid'.
        injection Htid' as <-.
        pose proof (lvl_children _ _ _ Hwf _ _ _ Ht Hin). lia.
      + rewrite Hb.
        rewrite (get_implied_soloed_mono k (S k) _ _ ltac:(lia) Hb) in Htrue.
        exact Htrue. }
  unfold implied_by_routing, soloed_child. cbn [get_implied_soloed].
  destruct (Fader.is_channel_type (Fader.type_ f)) eqn:Hty; cbn [negb orb];
    [|split; [discriminate|intros (? & _); discriminate]].
  destruct (Fader.passthrough_ f) eqn:Hpt; cbn [negb orb];
    [split; [discriminate|intros (_ & ? & _); discriminate]|].
  destruct (Fader.get_soloed f) eqn:Hso; cbn [negb orb];
    [split; [discriminate|intros (_ & _ & ? & _); discriminate]|].
  destruct (Fader.track_ f) as [tid|] eqn:Htid;
    [|split; [discriminate|intros (_ & _ & _ & ? & ? & ? & _); discriminate]].
  destruct (tl !! tid) as [t|] eqn:Ht.
  2:{ split; [discriminate|].
      intros (_ & _ & _ & tid' & t' & [= <-] & Ht' & _). congruence. }
  pose proof (lvl_bound _ _ _ Hwf _ _ Ht) as Hb.
  destruct (parents_soloed_terminates (S k) tid t Ht ltac:(lia))
    as [bp Hp].
  pose proof (parents_soloed_spec _ _ _ _ Hp) as Hps. rewrite Hp.
  destruct bp.
  - split; [|reflexivity]. intros _.
    do 3 (split; [reflexivity|]). exists tid, t.
        do 2 (split; [reflexivity || assumption|]). left. apply Hps.
    reflexivity.
  - assert (Hno : ~ soloed_ancestor tl tid t).
    { intros Ha. apply Hps in Ha. discriminate. }
    destruct (can_be_group_target t) eqn:Hgt.
    + destruct (children_soloed_terminates
                  (fun ct => get_implied_soloed k tl (fader_ ct))
                  (children_ t)) as [bc Hc].
      { intros c ct Hin Hc.
        apply (get_implied_soloed_terminates_aux (N - 1)).
        - pose proof (lvl_bound _ _ _ Hwf _ _ Hc). lia.
        - intros tid' t' Htid' Ht'.
          rewrite (fader_owner _ _ _ Hwf _ _ Hc) in Htid'.
          injection Htid' as <-.
          pose proof (lvl_children _ _ _ Hwf _ _ _ Ht Hin). lia. }
      pose proof (children_soloed_spec _ _ _ Hc) as Hcs. rewrite Hc.
      split.
      * intros [= ->]. do 3 (split; [reflexivity|]). exists tid, t.
        do 2 (split; [reflexivity || assumption|]).
        right. split; [assumption|].
        destruct Hcs as [Hcs _]. destruct (Hcs eq_refl)
          as (c & ct & Hin & Hl & Hr).
        exists c, ct. do 2 (split; [assumption|]).
        destruct Hr as [Hr|Hr]; [left; exact Hr|right].
        apply (Hsame c ct Hl tid t Ht Hin). exact Hr.
      * intros (_ & _ & _ & tid' & t' & [= <-] & Ht' & Hor).
        rewrite Ht in Ht'. injection Ht' as <-.
        destruct Hor as [Ha|[_ (c & ct & Hin & Hl & Hr)]]; [contradiction|].
        f_equal. apply Hcs. exists c, ct. do 2 (split; [assumption|]).
        destruct Hr as [Hr|Hr]; [left; exact Hr|right].
        apply (Hsame c ct Hl tid t Ht Hin). exact Hr.
    + split; [discriminate|].
      intros (_ & _ & _ & tid' & t' & [= <-] & Ht' & Hor).
      rewrite Ht in Ht'. injection Ht' as <-.
      destruct Hor as [Ha|[Hg _]]; [contradiction|congruence].
Qed.

End ImpliedSolo.

Lemma check_routing_levels_sound lvl N tl :
  check_routing_levels lvl N tl = true -> routing_levels lvl N tl.
Proof.
  unfold check_routing_levels. intros H. apply bool_decide_eq_true_1 in H.
  assert (Hall : forall id t, tl !! id = Some t ->
            track_levels_ok lvl N id t = true) by exact H.
  unfold track_levels_ok in Hall.
  split; intros id t.
  - intros Ht. specialize (Hall _ _ Ht).
    repeat (apply andb_prop in Hall as [Hall ?]).
    apply Nat.ltb_lt. assumption.
  - intros oid Ht Ho. specialize (Hall _ _ Ht). rewrite Ho in Hall.
    repeat (apply andb_prop in Hall as [Hall ?]).
    apply Nat.ltb_lt. assumption.
  - intros c Ht Hin. specialize (Hall _ _ Ht).
    repeat (apply andb_prop in Hall as [Hall ?]).
    match goal with Hf : forallb _ _ = true |- _ =>
      rewrite forallb_forall in Hf; apply Nat.ltb_lt, Hf end.
    apply list_elem_of_In. exact Hin.
  - intros Ht. specialize (Hall _ _ Ht).
    repeat (apply andb_prop in Hall as [Hall ?]).
    eapply bool_decide_eq_true_1. eassumption.
Qed.

Section ImpliedSoloClaims.

Import Examples.

(** The group child of a soloed group is implied-soloed, with any fuel. *)
Lemma child_of_soloed_group (tl : Tracklist) (a b : TrackId) (A B : Track)
    (fuel : nat) :
  tl !! a = Some A -> tl !! b = Some B -> a <> b ->
  track_get_soloed A = true -> can_be_group_target A = true ->
  has_channel B = true -> output_track_uuid_ B = Some a ->
  Fader.is_channel_type (Fader.type_ (fader_ B)) = true ->
  Fader.passthrough_ (fader_ B) = false ->
  Fader.get_soloed (fader_ B) = false ->
  Fader.track_ (fader_ B) = Some b ->
  get_implied_soloed (S fuel) tl (fader_ B) = Some true.
Proof.
  intros HA HB Hne HsA HgA HcB HoB Hty Hpt Hso Htr.
  cbn [get_implied_soloed]. rewrite Hty, Hpt, Hso, Htr, HB.
  cbn [negb orb parents_soloed]. rewrite HcB.
  unfold get_output_track. rewrite HoB, HA, HgA.
  destruct (decide (b = a)) as [->|_]; [contradiction|].
  rewrite HsA. reflexivity.
Qed.

(** C6, counterexample.  In [group_tracks] the soloed group has a group
    child that is implied-soloed, yet the group itself is not
    implied-soloed: the query returns [false] for a fader that is soloed
    itself. *)
Lemma implied_soloed_claim_counterexample :
  get_implied_soloed 7 group_tracks (fader_ group_A) = Some false
  /\ claimed_implied_soloed
       (fun ct => get_implied_soloed 7 group_tracks (fader_ ct))
       group_tracks (fader_ group_A).
Proof.
  split; [vm_compute; reflexivity|].
  exists 1%nat, group_A. split; [reflexivity|]. split; [reflexivity|].
  right. right. split; [reflexivity|].
  exists 2%nat, child_B. split; [left|]. split; [reflexivity|].
  right. vm_compute. reflexivity.
Qed.

(** A second way in which the claim's reading fails: a track whose ancestor
    is only implied-soloed (through a soloed sibling) is not implied-soloed,
    which is what lets the solo silence it. *)
Lemma sibling_of_soloed_not_implied :
  get_implied_soloed 7 sibling_tracks (fader_ sib_master) = Some true
  /\ get_implied_soloed 7 sibling_tracks (fader_ sib_other) = Some false.
Proof. vm_compute. auto. Qed.

(** C6, as amended.  In an acyclic routing and with enough fuel the query
    returns; it returns [true] exactly for an unsoloed, non-passthrough
    channel fader whose track has a soloed ancestor output track or a
    registered group child that is soloed or implied-soloed.  In particular
    an unsoloed child [B] of a soloed group [A] is implied-soloed, and unless
    it is muted or left out of a bounce it is not effectively muted. *)
Theorem implied_soloed_by_routing
    (lvl : TrackId -> nat) (N : nat) (p : Project) (fuel : nat) :
  routing_levels lvl N (TRACKLIST p) -> (2 * N < fuel)%nat ->
  (forall f,
     (exists b, get_implied_soloed fuel (TRACKLIST p) f = Some b)
     /\ (get_implied_soloed fuel (TRACKLIST p) f = Some true
         <-> implied_by_routing
               (fun ct => get_implied_soloed fuel (TRACKLIST p) (fader_ ct))
               (TRACKLIST p) f))
  /\ (forall a b A B track,
        TRACKLIST p !! a = Some A -> TRACKLIST p !! b = Some B -> a <> b ->
        track_get_soloed A = true -> can_be_group_target A = true ->
        has_channel B = true -> output_track_uuid_ B = Some a ->
        Fader.is_channel_type (Fader.type_ (fader_ B)) = true ->
        Fader.passthrough_ (fader_ B) = false ->
        Fader.get_soloed (fader_ B) = false ->
        get_implied_soloed fuel (TRACKLIST p) (fader_ B) = Some true
        /\ (Fader.get_muted (fader_ B) = false ->
            bounce_mode_ p <> BOUNCE_ON ->
            effectively_muted fuel p (fader_ B) track = Some false)).
Proof.
  intros Hwf Hfuel. split.
  - intros f. split.
    + eapply get_implied_soloed_terminates; eassumption.
    + eapply get_implied_soloed_routing; eassumption.
  - intros a b A B track HA HB Hne HsA HgA HcB HoB Hty Hpt Hso.
    assert (Himp : get_implied_soloed fuel (TRACKLIST p) (fader_ B)
                   = Some true).
    { destruct fuel as [|k]; [lia|].
      apply (child_of_soloed_group (TRACKLIST p) a b A B k); try assumption.
      exact (fader_owner _ _ _ Hwf _ _ HB). }
    split; [exact Himp|].
    intros Hmu Hbounce. unfold effectively_muted.
    rewrite Hpt, Hmu, Himp, Hty, Hso.
    rewrite (bool_decide_eq_false_2 _ Hbounce).
    destruct (has_soloed (TRACKLIST p)); reflexivity.
Qed.

Lemma group_tracks_levels : routing_levels group_lvl 3 group_tracks.
Proof. apply check_routing_levels_sound. vm_compute. reflexivity. Qed.

(** The amended statement on [group_solo]: child [2] of the soloed group
    [1] is implied-soloed and not muted; the group itself is not
    implied-soloed. *)
Lemma implied_soloed_by_routing_witness :
  routing_levels group_lvl 3 (TRACKLIST group_solo) /\ (2 * 3 < 7)%nat
  /\ get_implied_soloed 7 group_tracks (fader_ child_B) = Some true
  /\ effectively_muted 7 group_solo (fader_ child_B)
       (Some (2%nat, child_B)) = Some false
  /\ (exists b, get_implied_soloed 7 group_tracks (fader_ group_A) = Some b).
Proof.
  pose proof (implied_soloed_by_routing group_lvl 3 group_solo 7
                group_tracks_levels ltac:(lia)) as [Hall Hchild].
  split; [exact group_tracks_levels|]. split; [lia|].
  destruct (Hchild 1%nat 2%nat group_A child_B (Some (2%nat, child_B)))
    as [Himp Hmute]; try reflexivity; try lia.
  split; [exact Himp|]. split.
  - apply Hmute; [reflexivity|]. intros H. vm_compute in H. discriminate H.
  - exact (proj1 (Hall (fader_ group_A))).
Defined.

End ImpliedSoloClaims.

(** * Theorems: the audio branch of the block *)

Section BlockFacts.

Import float_ranges.

Lemma Qltb_false_le (x y : Q) : Qltb x y = false -> (y <= x)%Q.
Proof.
  unfold Qltb. intros H. apply negb_false_iff in H.
  apply Qle_bool_iff. exact H.
Qed.

Lemma Qltb_true_lt (x y : Q) : Qltb x y = true -> (x < y)%Q.
Proof.
  unfold Qltb. intros H. apply negb_true_iff in H.
  apply Qnot_le_lt. intros Hle. apply Qle_bool_iff in Hle. congruence.
Qed.

Lemma clamp_bounds (x minf maxf : Q) :
  (minf <= maxf)%Q ->
  (minf <= clamp x minf maxf)%Q /\ (clamp x minf maxf <= maxf)%Q.
Proof.
  intros Hle. unfold clamp.
  destruct (Qltb x minf) eqn:Hlo.
  - split; [apply Qle_refl|exact Hle].
  - apply Qltb_false_le in Hlo.
    destruct (Qltb maxf x) eqn:Hhi.
    + split; [exact Hle|apply Qle_refl].
    + apply Qltb_false_le in Hhi. split; assumption.
Qed.

Lemma on_range_lookup off size g buf idx :
  on_range off size g buf !! idx
  = (fun x => if in_block off size idx then g (idx - off)%nat x else x)
      <$> buf !! idx.
Proof. unfold on_range. apply list_lookup_imap. Qed.

Lemma on_range_length off size g buf :
  length (on_range off size g buf) = length buf.
Proof. unfold on_range. apply length_imap. Qed.

(** Every sample of the clipped range lies between the limits. *)
Lemma clip_lookup buf off minf maxf size idx x :
  (minf <= maxf)%Q -> in_block off size idx = true ->
  clip buf off minf maxf size !! idx = Some x ->
  (minf <= x)%Q /\ (x <= maxf)%Q.
Proof.
  intros Hle Hin. unfold clip. rewrite on_range_lookup, Hin.
  destruct (buf !! idx) as [y|]; [|discriminate].
  intros [= <-]. apply clamp_bounds. exact Hle.
Qed.

Context (c : Dsp) (p : Project) (cr : ControlRoom)
        (time_nfo : EngineProcessTimeInfo).

(** The fade bookkeeping keeps the fader's type and both counters within
    the fade length, so that none of the early exits is taken. *)
Lemma arm_fades_keeps d em f :
  fades_in_range d f ->
  Fader.type_ (arm_fades d em f) = Fader.type_ f
  /\ fades_in_range d (arm_fades d em f).
Proof.
  unfold fades_in_range, arm_fades. destruct f; simpl.
  destruct em, was_effectively_muted_; simpl; (split; [reflexivity|lia]).
Qed.

Lemma handle_fade_in_goes d mute_amp f out :
  fades_in_range d f ->
  exists f' out',
    handle_fade_in time_nfo d mute_amp (f, out) = Go (f', out')
    /\ Fader.type_ f' = Fader.type_ f /\ fades_in_range d f'.
Proof.
  unfold fades_in_range, handle_fade_in. intros [Hin Hout].
  destruct (Z.ltb_spec 0 (Fader.fade_in_samples_ f)).
  - destruct (Z.geb_spec d (Fader.fade_in_samples_ f)); [|lia].
    cbn [negb]. eexists _, _. split; [reflexivity|].
    destruct f; simpl in *. split; [reflexivity|lia].
  - eexists _, _. split; [reflexivity|]. auto.
Qed.

Lemma handle_fade_out_goes d mute_amp f out :
  fades_in_range d f ->
  exists f' out' faded,
    handle_fade_out time_nfo d mute_amp (f, out) = Go (f', out', faded)
    /\ Fader.type_ f' = Fader.type_ f /\ fades_in_range d f'.
Proof.
  unfold fades_in_range, handle_fade_out. intros [Hin Hout].
  destruct (Fader.fading_out_ f); [|eexists _, _, _; eauto].
  destruct (Z.ltb_spec 0 (Fader.fade_out_samples_ f)).
  - destruct (Z.geb_spec d (Fader.fade_out_samples_ f)); [|lia].
    cbn [negb].
    assert (Hkeep :
      let f' := Fader.set_fade_out_samples f
                  (Fader.fade_out_samples_ f
                   - Z.max 0 (Z.min (Fader.fade_out_samples_ f)
                                    (Z.of_nat (nframes_ time_nfo)))) in
      Fader.type_ f' = Fader.type_ f
      /\ Fader.fade_in_samples_ f' <= d /\ Fader.fade_out_samples_ f' <= d).
    { destruct f; simpl in *. split; [reflexivity|lia]. }
    destruct (_ =? 0); [destruct (_ <? _)%nat|]; eexists _, _, _;
      (split; [reflexivity|exact Hkeep]).
  - destruct (_ =? 0); [destruct (_ <? _)%nat|]; eexists _, _, _;
      (split; [reflexivity|auto]).
Qed.

(** The audio branch runs to its end and finishes with the hard limit. *)
Lemma process_audio_goes em track f out :
  fades_in_range (fade_frames_for_type c (Fader.type_ f)) f ->
  exists f' out4,
    process_audio c p cr time_nfo em track (f, out)
    = Go (f', hard_limit time_nfo f' track out4)
    /\ Fader.type_ f' = Fader.type_ f
    /\ fades_in_range (fade_frames_for_type c (Fader.type_ f)) f'.
Proof.
  intros Hr. unfold process_audio.
  set (d := fade_frames_for_type c (Fader.type_ f)) in *.
  destruct (bool_decide (Fader.type_ f = Fader.Monitor)).
  - destruct (handle_fade_in_goes d (denormal_prevention_val_ p) f
                (process_monitor p cr time_nfo out) Hr)
      as (f1 & out1 & -> & Hty1 & Hr1).
    destruct (handle_fade_out_goes d (denormal_prevention_val_ p) f1 out1 Hr1)
      as (f2 & out2 & faded & -> & Hty2 & Hr2).
    eexists _, _. split; [reflexivity|]. split; [congruence|exact Hr2].
  - destruct (arm_fades_keeps d em f Hr) as [Hty0 Hr0].
    destruct (handle_fade_in_goes d (mute_fader_amp cr)
                (arm_fades d em f) out Hr0)
      as (f1 & out1 & -> & Hty1 & Hr1).
    destruct (handle_fade_out_goes d (mute_fader_amp cr) f1 out1 Hr1)
      as (f2 & out2 & faded & -> & Hty2 & Hr2).
    eexists _, _. split; [reflexivity|]. split; [congruence|exact Hr2].
Qed.

Lemma hard_limited_type f f' track :
  Fader.type_ f' = Fader.type_ f ->
  hard_limited f' track = hard_limited f track.
Proof. unfold hard_limited. intros ->. reflexivity. Qed.

Lemma hard_limited_has_audio_ports f track :
  hard_limited f track = true -> Fader.has_audio_ports f = true.
Proof.
  unfold hard_limited, Fader.has_audio_ports.
  destruct (Fader.type_ f); simpl; auto.
Qed.

Lemma set_was_effectively_muted_keeps d f em :
  fades_in_range d f ->
  fades_in_range d (Fader.set_was_effectively_muted f em).
Proof. unfold fades_in_range. destruct f; simpl. auto. Qed.

(** [process_block] maintains the range of the fade counters. *)
Lemma process_block_fades_in_range fuel f ports f' ports' :
  fades_in_range (fade_frames_for_type c (Fader.type_ f)) f ->
  process_block c p cr time_nfo fuel f ports = Some (f', ports') ->
  fades_in_range (fade_frames_for_type c (Fader.type_ f)) f'.
Proof.
  intros Hr. unfold process_block.
  destruct (block_track p f) as [track|]; [|intros [= <- <-]; exact Hr].
  destruct (effectively_muted fuel p f track) as [em|]; [|discriminate].
  destruct (Fader.has_audio_ports f).
  - destruct (Fader.passthrough_ f).
    + intros [= <- <-]. apply set_was_effectively_muted_keeps, Hr.
    + destruct (process_audio_goes em track f
                  (copy_in_to_out time_nfo ports) Hr)
        as (f2 & out4 & -> & _ & Hr2).
      intros [= <- <-]. apply set_was_effectively_muted_keeps, Hr2.
  - destruct (bool_decide _); intros [= <- <-];
      apply set_was_effectively_muted_keeps, Hr.
Qed.

End BlockFacts.

Section HardLimit.

Import float_ranges Examples.

(** C5, counterexample.  The prefader of the master track is an audio
    channel fader of the master track as well, but a passthrough one: it
    copies its input, and the samples 3 and -5 leave it as they came. *)
Lemma hard_limit_prefader_counterexample :
  hard_limited master_prefader (Some (0%nat, master0)) = true
  /\ exists f' ports',
       process_block test_dsp unrouted_solo test_control_room
         (mkTimeInfo 0 3) 3 master_prefader loud_ports = Some (f', ports')
       /\ (stereo_out ports').1 !! 0%nat = Some 3%Q
       /\ ~ (3 <= 2)%Q.
Proof.
  split; [reflexivity|]. eexists _, _.
  split; [vm_compute; reflexivity|]. split; [reflexivity|].
  intros H. vm_compute in H. apply H. reflexivity.
Qed.

(** C5, as amended.  When a fader that is not a passthrough fader and is the
    audio fader of the master track, the monitor fader or the sample
    processor fader has processed a block (its fade counters being within
    the fade length, as [process_block] keeps them), every sample of the
    block in either stereo output buffer lies in [[-2, 2]]. *)
Theorem process_block_hard_limit
    (c : Dsp) (p : Project) (cr : ControlRoom)
    (time_nfo : EngineProcessTimeInfo) (fuel : nat)
    (f : Fader.t) (ports : Ports) (track : option (TrackId * Track))
    (f' : Fader.t) (ports' : Ports) :
  block_track p f = Some track ->
  hard_limited f track = true ->
  Fader.passthrough_ f = false ->
  fades_in_range (fade_frames_for_type c (Fader.type_ f)) f ->
  process_block c p cr time_nfo fuel f ports = Some (f', ports') ->
  forall idx x,
    in_block (local_offset_ time_nfo) (nframes_ time_nfo) idx = true ->
    (stereo_out ports').1 !! idx = Some x
    \/ (stereo_out ports').2 !! idx = Some x ->
    (-2 <= x)%Q /\ (x <= 2)%Q.
Proof.
  intros Htrack Hlim Hpt Hr. unfold process_block.
  rewrite Htrack, (hard_limited_has_audio_ports _ _ Hlim), Hpt.
  destruct (effectively_muted fuel p f track) as [em|]; [|discriminate].
  destruct (process_audio_goes c p cr time_nfo em track f
              (copy_in_to_out time_nfo ports) Hr)
    as (f2 & out4 & -> & Hty & _).
  intros [= <- <-] idx x Hin. cbn [stereo_out set_stereo_out].
  unfold hard_limit. rewrite (hard_limited_type _ _ _ Hty), Hlim.
  cbn [fst snd].
  intros [H|H]; eapply clip_lookup in H; eauto; vm_compute; discriminate.
Qed.

(** The amended statement on the master fader of [unrouted_solo]: the
    samples 3 and -5 are limited to 2 and -2. *)
Lemma process_block_hard_limit_witness :
  block_track unrouted_solo (fader_ master0) = Some (Some (0%nat, master0))
  /\ hard_limited (fader_ master0) (Some (0%nat, master0)) = true
  /\ process_block test_dsp unrouted_solo test_control_room (mkTimeInfo 0 3)
       3 (fader_ master0) loud_ports
     = Some (fader_ master0,
             mkPorts ([3; -5; 1]%Q, [0; 4; -1]%Q)
                     ([2; -2; 2 # 2]%Q, [0; 2; -1]%Q) [] [])
  /\ (-2 <= 2)%Q /\ (2 <= 2)%Q.
Proof.
  split; [reflexivity|]. split; [reflexivity|]. split; [reflexivity|].
  apply (process_block_hard_limit test_dsp unrouted_solo test_control_room
           (mkTimeInfo 0 3) 3 (fader_ master0) loud_ports
           (Some (0%nat, master0))
           (fader_ master0)
           (mkPorts ([3; -5; 1]%Q, [0; 4; -1]%Q)
                    ([2; -2; 2 # 2]%Q, [0; 2; -1]%Q) [] [])
           eq_refl eq_refl eq_refl
           ltac:(split; vm_compute; discriminate) eq_refl 0%nat 2%Q eq_refl).
  left. reflexivity.
Defined.

End HardLimit.

(** * Theorems: the fade-out after a mute *)

Section MuteFade.

Import float_ranges Examples.

Lemma in_block_true off size i :
  (i < size)%nat -> in_block off size (off + i) = true.
Proof.
  intros H. unfold in_block.
  rewrite (proj2 (Nat.leb_le _ _)) by lia.
  rewrite (proj2 (Nat.ltb_lt _ _)) by lia. reflexivity.
Qed.

Lemma in_block_before off size idx :
  (idx < off)%nat -> in_block off size idx = false.
Proof.
  intros H. unfold in_block.
  rewrite (proj2 (Nat.leb_gt _ _)) by lia. reflexivity.
Qed.

(** C4, counterexample.  A muted audio track fader at half volume: the
    first output sample of the block in which the fade-out starts is 1/2,
    not the input sample 1 times the fade gain [1 - 0/N = 1]. *)
Lemma mute_fade_out_counterexample :
  effectively_muted 7 group_solo half_volume_fader (Some (3%nat, other_C))
  = Some true
  /\ Fader.was_effectively_muted_ half_volume_fader = false
  /\ exists f' ports' y,
       process_block test_dsp group_solo test_control_room (mkTimeInfo 0 4) 7
         half_volume_fader ones_ports = Some (f', ports')
       /\ (stereo_in ones_ports).1 !! 0%nat = Some 1%Q
       /\ (stereo_out ports').1 !! 0%nat = Some y
       /\ (y == 1 # 2)%Q
       /\ ~ (y == 1 * fade_out_gain 1024 (mute_fader_amp test_control_room) 0)%Q.
Proof.
  split; [reflexivity|]. split; [reflexivity|]. eexists _, _, _.
  split; [vm_compute; reflexivity|]. split; [reflexivity|].
  split; [reflexivity|]. split; [reflexivity|]. vm_compute. discriminate.
Qed.

(** C4, as amended.  A non-monitor, non-passthrough audio fader that was
    not effectively muted in the previous block and is now, with no fade-in
    in progress: [process_block] arms a fade-out of
    [FADER_DEFAULT_FADE_FRAMES_SHORT] = [N] frames, of which
    [min (N, nframes)] are consumed by this block.  The fade multiplies the
    sample at index [i < min (N, nframes)] of the block by
    [mute_amp + (1 - mute_amp) * (1 - i/N)]; with mono compatibility and
    phase swap off the output sample is that product times amp and the pan
    gain of its channel, hard-limited where the fader has a hard limit. *)
Theorem mute_fade_out
    (c : Dsp) (p : Project) (cr : ControlRoom)
    (time_nfo : EngineProcessTimeInfo) (fuel : nat)
    (f : Fader.t) (ports : Ports) (track : option (TrackId * Track)) :
  let N := FADER_DEFAULT_FADE_FRAMES_SHORT c in
  let m := mute_fader_amp cr in
  let off := local_offset_ time_nfo in
  let n := nframes_ time_nfo in
  0 < N ->
  Fader.has_audio_ports f = true ->
  Fader.type_ f <> Fader.Monitor ->
  Fader.passthrough_ f = false ->
  block_track p f = Some track ->
  Fader.was_effectively_muted_ f = false ->
  effectively_muted fuel p f track = Some true ->
  Fader.fade_in_samples_ f <= 0 ->
  Fader.mono_compat_enabled f = false ->
  Fader.swap_phase f = false ->
  exists f' ports',
    process_block c p cr time_nfo fuel f ports = Some (f', ports')
    /\ Fader.fading_out_ f' = true
    /\ Fader.fade_out_samples_ f' = N - Z.min N (Z.of_nat n)
    /\ Fader.was_effectively_muted_ f' = true
    /\ forall i xl xr yl yr,
         Z.of_nat i < Z.min N (Z.of_nat n) ->
         (stereo_in ports).1 !! (off + i)%nat = Some xl ->
         (stereo_in ports).2 !! (off + i)%nat = Some xr ->
         (stereo_out ports).1 !! (off + i)%nat = Some yl ->
         (stereo_out ports).2 !! (off + i)%nat = Some yr ->
         (stereo_out ports').1 !! (off + i)%nat
         = Some (after_fade f track (calculate_balance_control c
                                       (Fader.balance f)).1
                   (xl * fade_out_gain N m (Z.of_nat i))%Q)
         /\ (stereo_out ports').2 !! (off + i)%nat
            = Some (after_fade f track (calculate_balance_control c
                                          (Fader.balance f)).2
                      (xr * fade_out_gain N m (Z.of_nat i))%Q).
Proof.
  intros N m off n HN Haud Hty Hpt Htrack Hwas Hem Hfi Hmono Hphase.
  unfold process_block. rewrite Htrack, Hem, Haud, Hpt.
  clear Htrack Hem Haud.
  unfold process_audio.
  rewrite (bool_decide_eq_false_2 _ Hty).
  assert (Hd : fade_frames_for_type c (Fader.type_ f) = N).
  { unfold fade_frames_for_type. revert Hty.
    destruct (Fader.type_ f); intros; try reflexivity; congruence. }
  rewrite Hd. unfold arm_fades. rewrite Hwas. cbn [negb andb].
  unfold after_fade.
  assert (Hlim : forall fi' fo' fg' wm',
    hard_limited
      (Fader.mk (Fader.type_ f) (Fader.midi_mode_ f) (Fader.passthrough_ f)
         (Fader.track_ f) (Fader.amp f) (Fader.balance f) (Fader.mute f)
         (Fader.solo f) (Fader.listen f) (Fader.mono_compat_enabled f)
         (Fader.swap_phase f) fi' fo' fg' wm') track
    = hard_limited f track) by reflexivity.
  destruct f as [ty mm pt tr am ba mu so li mc sp fi fo fg wm].
  cbn [Fader.type_ Fader.passthrough_ Fader.was_effectively_muted_
       Fader.fade_in_samples_ Fader.mono_compat_enabled Fader.swap_phase
       Fader.amp Fader.balance Fader.midi_mode_ Fader.track_ Fader.mute
       Fader.solo Fader.listen] in *.
  subst pt wm mc sp.
  unfold handle_fade_in, handle_fade_out.
  cbn [Fader.set_fading_out Fader.set_fade_out_samples
       Fader.fade_in_samples_ Fader.fading_out_ Fader.fade_out_samples_].
  rewrite (proj2 (Z.ltb_ge 0 fi)) by lia.
  cbn [Fader.set_fading_out Fader.set_fade_out_samples
       Fader.fade_in_samples_ Fader.fading_out_ Fader.fade_out_samples_].
  rewrite (proj2 (Z.ltb_lt 0 N)) by lia.
  rewrite (proj2 (Z.geb_le N N)) by lia. cbn [negb].
  set (stp := Z.max 0 (Z.min N (Z.of_nat (nframes_ time_nfo)))).
  assert (Hstp : stp = Z.min N (Z.of_nat n)) by (subst stp n; lia).
  set (faded1 :=
    (linear_fade_out_to (copy_in_to_out time_nfo ports).1
       (local_offset_ time_nfo) (N - N) N (Z.to_nat stp) (mute_fader_amp cr),
     linear_fade_out_to (copy_in_to_out time_nfo ports).2
       (local_offset_ time_nfo) (N - N) N (Z.to_nat stp) (mute_fader_amp cr))).
  (* what the fade has made of the samples it covers *)
  assert (Hfaded : forall i xl xr yl yr,
    Z.of_nat i < Z.min N (Z.of_nat n) ->
    (stereo_in ports).1 !! (off + i)%nat = Some xl ->
    (stereo_in ports).2 !! (off + i)%nat = Some xr ->
    (stereo_out ports).1 !! (off + i)%nat = Some yl ->
    (stereo_out ports).2 !! (off + i)%nat = Some yr ->
    faded1.1 !! (off + i)%nat
    = Some (xl * fade_out_gain N m (Z.of_nat i))%Q
    /\ faded1.2 !! (off + i)%nat
       = Some (xr * fade_out_gain N m (Z.of_nat i))%Q).
  { intros i xl xr yl yr Hi Hxl Hxr Hyl Hyr.
    subst faded1. cbn [fst snd]. unfold linear_fade_out_to, copy_in_to_out.
    cbn [fst snd]. unfold copy.
    rewrite !on_range_lookup. fold off. fold n.
    rewrite !in_block_true by lia.
    rewrite Hyl, Hyr. cbn [fmap option_fmap option_map].
    replace (off + i - off)%nat with i by lia.
    rewrite Hxl, Hxr. cbn [default].
    replace (N - N + Z.of_nat i) with (Z.of_nat i) by lia.
    split; reflexivity. }
  set (f2 := Fader.mk ty mm false tr am ba mu so li false false fi
                (N - stp) true false).
  (* the rest of the block, for any buffers that agree with the faded ones
     on the samples the fade covers *)
  assert (Hfinish : forall out2 faded,
    (N - stp =? 0) && (0 <? nframes_ time_nfo - faded)%nat = false ->
    (forall i a, Z.of_nat i < stp ->
       (faded1.1 !! (off + i)%nat = Some a ->
        out2.1 !! (off + i)%nat = Some a)
       /\ (faded1.2 !! (off + i)%nat = Some a ->
           out2.2 !! (off + i)%nat = Some a)) ->
    exists f' ports',
      match
        Go (f2,
            hard_limit time_nfo f2 track
              (apply_mute_level p time_nfo true (mute_fader_amp cr) faded f2
                 (apply_gain c time_nfo f2 out2)))
      with
      | Go (f'0, out') =>
          Some (Fader.set_was_effectively_muted f'0 true,
                set_stereo_out ports out')
      | Return (f'0, out') => Some (f'0, set_stereo_out ports out')
      end = Some (f', ports')
      /\ Fader.fading_out_ f' = true
      /\ Fader.fade_out_samples_ f' = N - Z.min N (Z.of_nat n)
      /\ Fader.was_effectively_muted_ f' = true
      /\ forall i xl xr yl yr,
           Z.of_nat i < Z.min N (Z.of_nat n) ->
           (stereo_in ports).1 !! (off + i)%nat = Some xl ->
           (stereo_in ports).2 !! (off + i)%nat = Some xr ->
           (stereo_out ports).1 !! (off + i)%nat = Some yl ->
           (stereo_out ports).2 !! (off + i)%nat = Some yr ->
           (stereo_out ports').1 !! (off + i)%nat
           = Some (let y := (xl * fade_out_gain N m (Z.of_nat i)
                             * (am * (calculate_balance_control c ba).1))%Q in
                   if hard_limited
                        (Fader.mk ty mm false tr am ba mu so li false false
                           fi fo fg false) track
                   then clamp y (-2) 2 else y)
           /\ (stereo_out ports').2 !! (off + i)%nat
              = Some (let y := (xr * fade_out_gain N m (Z.of_nat i)
                                * (am * (calculate_balance_control c ba).2))%Q
                      in
                      if hard_limited
                           (Fader.mk ty mm false tr am ba mu so li false
                              false fi fo fg false) track
                      then clamp y (-2) 2 else y)).
  { intros out2 faded Hcond Hagree. eexists _, _.
    split; [reflexivity|]. split; [reflexivity|].
    split; [cbn; lia|]. split; [reflexivity|].
    intros i xl xr yl yr Hi Hxl Hxr Hyl Hyr.
    destruct (Hfaded i xl xr yl yr Hi Hxl Hxr Hyl Hyr) as [Hl Hr].
    destruct (Hagree i (xl * fade_out_gain N m (Z.of_nat i))%Q
                ltac:(lia)) as [Hl2 _].
    destruct (Hagree i (xr * fade_out_gain N m (Z.of_nat i))%Q
                ltac:(lia)) as [_ Hr2].
    specialize (Hl2 Hl). specialize (Hr2 Hr).
    cbn [stereo_out set_stereo_out].
    unfold apply_mute_level. subst f2.
    cbn [Fader.fade_out_samples_ andb]. rewrite Hcond.
    unfold hard_limit. rewrite (Hlim fi (N - stp) true false).
    unfold apply_gain.
    cbn [Fader.balance Fader.amp Fader.mono_compat_enabled Fader.swap_phase].
    destruct (calculate_balance_control c ba) as [calc_l calc_r].
    cbn [fst snd].
    destruct (hard_limited _ track); cbn [fst snd]; unfold clip, mul_k2;
      rewrite !on_range_lookup; fold off; fold n;
      rewrite !in_block_true by lia; rewrite Hl2, Hr2;
      split; reflexivity. }
  destruct (N - stp =? 0) eqn:Hzero.
  - destruct (0 <? nframes_ time_nfo - Z.to_nat stp)%nat eqn:Hrem.
    + apply Hfinish.
      * replace (nframes_ time_nfo
                 - (Z.to_nat stp + (nframes_ time_nfo - Z.to_nat stp)))%nat
          with 0%nat by lia.
        reflexivity.
      * intros i a Hi. cbn [fst snd]. unfold mul_k2.
        rewrite !on_range_lookup. fold off.
        rewrite !in_block_before by lia.
        split; intros ->; reflexivity.
    + apply Hfinish; [rewrite Hrem; reflexivity|].
      intros i a Hi. split; auto.
  - apply Hfinish; [reflexivity|]. intros i a Hi. split; auto.
Qed.

(** The monitor fader arms no fade: with none in progress the audio branch
    leaves its fade state alone. *)
Lemma monitor_arms_no_fade
    (c : Dsp) (p : Project) (cr : ControlRoom)
    (time_nfo : EngineProcessTimeInfo) (em : bool)
    (track : option (TrackId * Track)) (f : Fader.t) (out : list Q * list Q) :
  Fader.type_ f = Fader.Monitor ->
  Fader.fading_out_ f = false -> Fader.fade_in_samples_ f <= 0 ->
  fade_frames_for_type c (Fader.type_ f) = FADER_DEFAULT_FADE_FRAMES c
  /\ exists out', process_audio c p cr time_nfo em track (f, out)
                  = Go (f, out').
Proof.
  intros Hty Hfg Hfi. split; [rewrite Hty; reflexivity|].
  unfold process_audio. rewrite (bool_decide_eq_true_2 _ Hty).
  unfold handle_fade_in. rewrite (proj2 (Z.ltb_ge 0 _)) by lia.
  unfold handle_fade_out. rewrite Hfg. eexists. reflexivity.
Qed.

(** The amended statement on a muted fader at unity gain: the first sample
    of the block leaves with the fade gain [1 - 0/1024] alone. *)
Lemma mute_fade_out_witness :
  0 < FADER_DEFAULT_FADE_FRAMES_SHORT test_dsp
  /\ effectively_muted 7 group_solo unity_muted_fader
       (Some (3%nat, other_C)) = Some true
  /\ exists f' ports',
       process_block test_dsp group_solo test_control_room (mkTimeInfo 0 4) 7
         unity_muted_fader ones_ports = Some (f', ports')
       /\ Fader.fading_out_ f' = true
       /\ Fader.fade_out_samples_ f' = 1020
       /\ (stereo_out ports').1 !! 0%nat
          = Some (after_fade unity_muted_fader (Some (3%nat, other_C))
                    (linear_balance (1 # 2)).1
                    (1 * fade_out_gain 1024 0 0)%Q).
Proof.
  split; [reflexivity|]. split; [reflexivity|].
  destruct (mute_fade_out test_dsp group_solo test_control_room
              (mkTimeInfo 0 4) 7 unity_muted_fader ones_ports
              (Some (3%nat, other_C)) eq_refl eq_refl
              ltac:(discriminate) eq_refl eq_refl eq_refl eq_refl
              ltac:(simpl; lia) eq_refl eq_refl)
    as (f' & ports' & Hrun & Hfg & Hfo & _ & Hout).
  exists f', ports'. split; [exact Hrun|]. split; [exact Hfg|].
  split; [exact Hfo|].
  destruct (Hout 0%nat 1%Q 1%Q 0%Q 0%Q ltac:(simpl; lia)
              eq_refl eq_refl eq_refl eq_refl) as [Hl _].
  exact Hl.
Defined.

End MuteFade.

(** * Theorems: the MIDI branch of the block *)

Section MidiVelocity.

Import Examples.

(** Inside the byte range the conversion is the floor. *)
Lemma to_midi_byte_floor (x : Q) :
  (0 <= x)%Q -> (x <= 255)%Q -> to_midi_byte x = Qfloor x.
Proof.
  intros H0 H255. unfold to_midi_byte.
  rewrite (proj2 (Qle_bool_iff 0 x) H0).
  apply Z.mod_small.
  pose proof (Qfloor_resp_le _ _ H0) as Hlo.
  pose proof (Qfloor_resp_le _ _ H255) as Hhi.
  change (Qfloor 0) with 0 in Hlo. change (Qfloor 255) with 255 in Hhi.
  lia.
Qed.

(** The rounded product of a velocity byte and an amp of the control's
    range stays inside the byte range. *)
Lemma scaled_velocity_range (v : Z) (amp : Q) :
  0 <= v <= 127 -> (0 <= amp)%Q -> (amp <= 2)%Q ->
  (0 <= Float.float32 (inject_Z v * amp))%Q
  /\ (Float.float32 (inject_Z v * amp) <= 255)%Q.
Proof.
  intros [Hv0 Hv1] Ha0 Ha2.
  assert (H0 : (0 <= inject_Z v)%Q).
  { change 0%Q with (inject_Z 0). rewrite <- Zle_Qle. exact Hv0. }
  assert (H1 : (inject_Z v <= 127)%Q).
  { change 127%Q with (inject_Z 127). rewrite <- Zle_Qle. exact Hv1. }
  assert (Hp0 : (0 <= inject_Z v * amp)%Q) by nra.
  assert (Hp1 : (inject_Z v * amp <= 254)%Q) by nra.
  split; [apply FloatFacts.float32_nonneg; exact Hp0|].
  destruct (FloatFacts.float32_bounds _ Hp0) as [_ Hhi].
  unfold Float.eps32 in Hhi. lra.
Qed.

(** C10, counterexample.  The claim fails on two inputs.  The prefader of
    a MIDI track ([passthrough_]) at amp 1/2 in velocity-multiplier mode
    passes a note-on of velocity 100 on with velocity 100, where
    [min (floor (100 * 1/2), 127)] is 50.  The channel fader at amp [0.7f]
    turns velocity 10 into 7: the [float] product of 10 and [0.7f] is 7,
    where the floor of the exact product 6.99999988 is 6. *)
Lemma process_block_velocity_counterexample :
  (exists f' ports',
      process_block test_dsp quiet_project test_control_room
        (mkTimeInfo 0 4) 7 midi_prefader_half note_ports = Some (f', ports')
      /\ midi_is_note_on test_dsp (raw_buffer_ note_on_100) = true
      /\ midi_get_velocity (raw_buffer_ note_on_100) = 100
      /\ midi_get_velocity <$> (raw_buffer_ <$> midi_out ports') = [100]
      /\ 100 <> Z.min (Qfloor (inject_Z 100
                                * Fader.amp midi_prefader_half)%Q) 127)
  /\ (exists f' ports',
      process_block test_dsp quiet_project test_control_room
        (mkTimeInfo 0 4) 7 midi_fader_0_7 note_ports_10 = Some (f', ports')
      /\ midi_is_note_on test_dsp (raw_buffer_ note_on_10) = true
      /\ midi_get_velocity (raw_buffer_ note_on_10) = 10
      /\ midi_get_velocity <$> (raw_buffer_ <$> midi_out ports') = [7]
      /\ 7 <> Z.min (Qfloor (inject_Z 10 * Fader.amp midi_fader_0_7)%Q) 127).
Proof.
  split; eexists _, _; (split; [vm_compute; reflexivity|]);
    repeat split; try (vm_compute; reflexivity); vm_compute; discriminate.
Qed.

(** C10, as amended.  A MIDI channel fader in velocity-multiplier mode
    that is not effectively muted passes on the events of its output port
    and the input events of the block.  When it is not a prefader
    ([passthrough_] unset)
    every note-on velocity [v] is replaced by [min (trunc (v * amp), 127)],
    the product being the [float] product, for an amp within the control's
    range [[0, 2]]; a prefader passes the events on as they are.  No event
    leaves with a velocity byte above 127 unless it came in with one. *)
Theorem process_block_velocity
    (c : Dsp) (p : Project) (cr : ControlRoom)
    (time_nfo : EngineProcessTimeInfo) (fuel : nat)
    (f : Fader.t) (ports : Ports) :
  Fader.type_ f = Fader.MidiChannel ->
  Fader.midi_mode_ f = Fader.MIDI_FADER_MODE_VEL_MULTIPLIER ->
  (0 <= Fader.amp f)%Q -> (Fader.amp f <= 2)%Q ->
  effectively_muted fuel p f None = Some false ->
  exists f' ports',
    process_block c p cr time_nfo fuel f ports = Some (f', ports')
    /\ midi_out ports'
       = (let out := append time_nfo (midi_out ports) (midi_in ports) in
          if Fader.passthrough_ f then out else scale_velocity c f <$> out)
    /\ (forall ev,
         midi_is_note_on c (raw_buffer_ ev) = true ->
         0 <= midi_get_velocity (raw_buffer_ ev) <= 127 ->
         midi_get_velocity (raw_buffer_ (scale_velocity c f ev))
         = Z.min (Qfloor (Float.float32
                            (inject_Z (midi_get_velocity (raw_buffer_ ev))
                             * Fader.amp f)%Q)) 127
         /\ midi_get_velocity (raw_buffer_ (scale_velocity c f ev)) <= 127)
    /\ (Forall (fun ev => midi_get_velocity (raw_buffer_ ev) <= 127)
          (append time_nfo (midi_out ports) (midi_in ports)) ->
        Forall (fun ev => midi_get_velocity (raw_buffer_ ev) <= 127)
          (midi_out ports')).
Proof.
  intros Hty Hmode Ha0 Ha2 Hmute.
  assert (Hout : midi_out (process_midi c time_nfo false f ports)
                 = (let out :=
                      append time_nfo (midi_out ports) (midi_in ports) in
                    if Fader.passthrough_ f then out
                    else scale_velocity c f <$> out)).
  { unfold process_midi. cbn [negb]. cbv zeta.
    destruct (Fader.passthrough_ f); reflexivity. }
  eexists _, _. split; [|split; [|split]].
  - unfold process_block, block_track, Fader.has_audio_ports.
    rewrite Hty, Hmute. cbn [bool_decide decide_rel]. reflexivity.
  - exact Hout.
  - intros ev Hon Hv. unfold scale_velocity. rewrite Hmode, Hon.
    cbn [bool_decide decide_rel andb]. simpl.
    destruct (scaled_velocity_range _ _ Hv Ha0 Ha2) as [H0 H255].
    rewrite (to_midi_byte_floor _ H0 H255).
    split; [reflexivity|lia].
  - intros Hin. rewrite Hout. cbv zeta.
    destruct (Fader.passthrough_ f); [exact Hin|].
    apply Forall_fmap. eapply Forall_impl; [exact Hin|].
    intros ev Hev. cbn [compose]. unfold scale_velocity.
    destruct (bool_decide _ && midi_is_note_on c (raw_buffer_ ev));
      [|exact Hev].
    simpl. lia.
Qed.

(** The theorem on the MIDI fader at amp [0.7f]: velocity 10 leaves as 7. *)
Lemma process_block_velocity_witness :
  effectively_muted 7 quiet_project midi_fader_0_7 None = Some false
  /\ midi_get_velocity
       (raw_buffer_ (scale_velocity test_dsp midi_fader_0_7 note_on_10))
     = Z.min (Qfloor (Float.float32 (inject_Z 10 * float_0_7)%Q)) 127.
Proof.
  split; [reflexivity|].
  destruct (process_block_velocity test_dsp quiet_project test_control_room
              (mkTimeInfo 0 4) 7 midi_fader_0_7 note_ports_10
              eq_refl eq_refl
              ltac:(vm_compute; discriminate) ltac:(vm_compute; discriminate)
              eq_refl)
    as (f' & ports' & _ & _ & Hvel & _).
  destruct (Hvel note_on_10 eq_refl ltac:(simpl; lia)) as [H _].
  exact H.
Defined.

End MidiVelocity.

(** * Theorems: automation values *)

Module AutomationTrackFacts.
Import AutomationTrack.

Lemma clamp01_id (x : Q) :
  (0 <= x)%Q -> (x <= 1)%Q -> clamp01 x = x.
Proof.
  intros H0 H1. unfold clamp01, Qltb.
  rewrite (proj2 (Qle_bool_iff 0 x) H0).
  rewrite (proj2 (Qle_bool_iff x 1) H1). reflexivity.
Qed.

Lemma clamp01_range (x : Q) : (0 <= clamp01 x)%Q /\ (clamp01 x <= 1)%Q.
Proof.
  unfold clamp01.
  destruct (Qltb x 0) eqn:H0; [split; discriminate|].
  destruct (Qltb 1 x) eqn:H1; [split; discriminate|].
  apply Qltb_false_le in H0. apply Qltb_false_le in H1. auto.
Qed.

(** The share of the way between two frames is a number in [[0, 1]]. *)
Lemma frame_ratio_range (num den : Z) :
  0 <= num <= den -> 0 < den ->
  (0 <= inject_Z num / inject_Z den)%Q /\ (inject_Z num / inject_Z den <= 1)%Q.
Proof.
  intros [Hn Hnd] Hd.
  assert (Hd' : (0 < inject_Z den)%Q).
  { change 0%Q with (inject_Z 0). rewrite <- Zlt_Qlt. exact Hd. }
  split.
  - apply Qle_shift_div_l; [exact Hd'|].
    rewrite Qmult_0_l. change 0%Q with (inject_Z 0).
    rewrite <- Zle_Qle. exact Hn.
  - apply Qle_shift_div_r; [exact Hd'|].
    rewrite Qmult_1_l. rewrite <- Zle_Qle. exact Hnd.
Qed.

(** The reverse scan returns a point that is not after the position. *)
Lemma first_ap_at_or_before_le local_pos aps ap :
  first_ap_at_or_before local_pos aps = Some ap -> ap_frames ap <= local_pos.
Proof.
  induction aps as [|a aps IH]; simpl; [discriminate|].
  destruct (Z.leb_spec (ap_frames a) local_pos).
  - intros [= <-]. assumption.
  - exact IH.
Qed.

(** The scan skips the points after the position. *)
Lemma first_ap_at_or_before_skip local_pos later aps :
  Forall (fun a => local_pos < ap_frames a) later ->
  first_ap_at_or_before local_pos (later ++ aps)
  = first_ap_at_or_before local_pos aps.
Proof.
  induction 1 as [|a later Ha _ IH]; [reflexivity|].
  simpl. rewrite (proj2 (Z.leb_gt _ _) Ha). exact IH.
Qed.

(** The point found in a region that is not muted: the last of its points
    at or before the local position. *)
Lemma get_ap_before_pos_found
    (ops : RegionOps) (at_ : t) (pos : Z) (ends_after use_snapshots : bool)
    (region : AutomationRegion) (earlier later : list AutomationPoint)
    (ap : AutomationPoint) :
  get_region_before_pos at_ pos ends_after use_snapshots = Some region ->
  muted region = false ->
  aps_ region = earlier ++ ap :: later ->
  ap_frames ap <= local_pos_in ops region pos ends_after ->
  Forall (fun a => local_pos_in ops region pos ends_after < ap_frames a)
         later ->
  get_ap_before_pos ops at_ pos ends_after use_snapshots = Some ap.
Proof.
  intros Hregion Hmuted Haps Hle Hlater.
  unfold get_ap_before_pos. rewrite Hregion, Hmuted, Haps.
  rewrite reverse_app, reverse_cons, <- app_assoc.
  rewrite first_ap_at_or_before_skip.
  - simpl. rewrite (proj2 (Z.leb_le _ _) Hle). reflexivity.
  - rewrite reverse_Permutation. exact Hlater.
Qed.

(** The ratio of the code between two points that surround the local
    position is the clamped ratio of the specification as a [double]: a
    number of [[0, 1]] within a rounding of it. *)
Lemma code_ratio_clamped (localp : Z) (ap next_ap : AutomationPoint) :
  ap_frames ap <= localp -> localp <= ap_frames next_ap ->
  let numerator := localp - ap_frames ap in
  let denominator := ap_frames next_ap - ap_frames ap in
  let code_ratio :=
    if numerator =? 0 then 0%Q
    else if denominator =? 0 then 1%Q
         else Float.float64 (inject_Z numerator / inject_Z denominator) in
  (Qabs (code_ratio - claimed_ratio localp ap next_ap)
   <= Float.eps64 * claimed_ratio localp ap next_ap)%Q
  /\ (0 <= code_ratio)%Q /\ (code_ratio <= 1)%Q.
Proof.
  intros Hbefore Hle numerator denominator code_ratio.
  subst code_ratio. unfold claimed_ratio.
  fold numerator. fold denominator.
  destruct (Z.eqb_spec numerator 0) as [->|Hnum].
  - split; [|split; discriminate].
    rewrite clamp01_id.
    + unfold Qdiv. rewrite Qmult_0_l. discriminate.
    + unfold Qdiv. rewrite Qmult_0_l. discriminate.
    + unfold Qdiv. rewrite Qmult_0_l. discriminate.
  - assert (Hden : 0 < denominator) by (subst numerator denominator; lia).
    destruct (Z.eqb_spec denominator 0) as [Hz|_]; [lia|].
    destruct (frame_ratio_range numerator denominator) as [H0 H1];
      [subst numerator denominator; lia|exact Hden|].
    rewrite clamp01_id by assumption.
    pose proof (FloatFacts.float64_error
                  (inject_Z numerator / inject_Z denominator)) as Herr.
    rewrite (Qabs_pos _ H0) in Herr.
    split; [exact Herr|]. split.
    + apply FloatFacts.float64_nonneg. exact H0.
    + apply FloatFacts.float64_le_one; assumption.
Qed.

(** Four roundings move the interpolation of two normalized values by less
    than a millionth. *)
Lemma interpolation_error (cv a b : Q) :
  (0 <= a)%Q -> (a <= 1)%Q -> (0 <= b)%Q -> (b <= 1)%Q ->
  (0 <= cv)%Q -> (cv <= 1)%Q ->
  (Qabs (rounded_interpolation cv a b - (Qmin a b + cv * Qabs (b - a)))
   <= 1 # 1000000)%Q.
Proof.
  intros Ha0 Ha1 Hb0 Hb1 Hc0 Hc1.
  assert (Hshape : rounded_interpolation cv a b
                   = Float.float32
                       (Float.float32
                          (Float.float32 cv * Qabs (Float.float32 (a - b)))
                        + (if Qle_bool a b then a else b))).
  { unfold rounded_interpolation. destruct (Qle_bool a b); reflexivity. }
  rewrite Hshape. clear Hshape.
  set (lo := if Qle_bool a b then a else b).
  set (D := Qabs (b - a)).
  assert (HD : Qabs (a - b) = D) by apply Qabs_Qminus.
  assert (Hlo : (Qmin a b == lo)%Q /\ (0 <= lo)%Q /\ (lo + D <= 1)%Q
                /\ (0 <= D)%Q).
  { subst lo D. destruct (Qle_bool a b) eqn:Hle.
    - apply Qle_bool_iff in Hle.
      rewrite (Q.min_l _ _ Hle), Qabs_pos by lra. repeat split; lra.
    - assert (Hgt : (b <= a)%Q).
      { apply Qlt_le_weak, Qnot_le_lt. intros H.
        apply Qle_bool_iff in H. congruence. }
      rewrite (Q.min_r _ _ Hgt), Qabs_neg by lra. repeat split; lra. }
  destruct Hlo as (Hmin & Hlo0 & HloD & HD0).
  rewrite Hmin.
  destruct (FloatFacts.float32_abs_bounds (a - b)) as [Hd1 Hd2].
  rewrite HD in Hd1, Hd2.
  set (d := Qabs (Float.float32 (a - b))) in *.
  assert (Hd0 : (0 <= d)%Q) by apply Qabs_nonneg.
  destruct (FloatFacts.float32_bounds cv Hc0) as [Hr1 Hr2].
  pose proof (FloatFacts.float32_nonneg cv Hc0) as Hr0.
  set (r1 := Float.float32 cv) in *.
  assert (Hp0 : (0 <= r1 * d)%Q) by nra.
  destruct (FloatFacts.float32_bounds _ Hp0) as [Hq1 Hq2].
  pose proof (FloatFacts.float32_nonneg _ Hp0) as Hq0.
  set (r2 := Float.float32 (r1 * d)) in *.
  assert (Hs0 : (0 <= r2 + lo)%Q) by lra.
  destruct (FloatFacts.float32_bounds _ Hs0) as [Ht1 Ht2].
  set (r3 := Float.float32 (r2 + lo)) in *.
  destruct FloatFacts.eps32_small as [He0 He1].
  set (e := Float.eps32) in *. clearbody e r3 r2 r1 d lo D.
  set (P := (cv * D)%Q).
  assert (HP0 : (0 <= P)%Q) by (subst P; nra).
  assert (HP1 : (P <= 1)%Q) by (subst P; nra).
  assert (Hp_hi : (r1 * d <= P + 3 * e)%Q).
  { assert (H : (r1 * d <= ((1 + e) * cv) * ((1 + e) * D))%Q)
      by (apply FloatFacts.Qmult_le_mono; assumption).
    assert (H' : (((1 + e) * cv) * ((1 + e) * D)
                  == P + (2 * e + e * e) * P)%Q) by (subst P; ring).
    rewrite H' in H. nra. }
  assert (Hp_lo : (P - 2 * e <= r1 * d)%Q).
  { assert (H : (((1 - e) * cv) * ((1 - e) * D) <= r1 * d)%Q)
      by (apply FloatFacts.Qmult_le_mono; try assumption; nra).
    assert (H' : (((1 - e) * cv) * ((1 - e) * D)
                  == P - (2 * e - e * e) * P)%Q) by (subst P; ring).
    rewrite H' in H. nra. }
  set (p := (r1 * d)%Q) in *. clearbody p.
  assert (Hr2_hi : (r2 <= P + 5 * e)%Q) by nra.
  assert (Hr2_lo : (P - 3 * e <= r2)%Q) by nra.
  apply Qabs_Qle_condition. split; nra.
Qed.

(** The exact interpolation lies between the two values. *)
Lemma claimed_interpolation_range (cv : Q) (ap next_ap : AutomationPoint) :
  (0 <= cv)%Q -> (cv <= 1)%Q ->
  (Qmin (normalized_val_ ap) (normalized_val_ next_ap)
   <= claimed_interpolation cv ap next_ap)%Q
  /\ (claimed_interpolation cv ap next_ap
      <= Qmax (normalized_val_ ap) (normalized_val_ next_ap))%Q.
Proof.
  intros Hc0 Hc1. unfold claimed_interpolation.
  set (a := normalized_val_ ap). set (b := normalized_val_ next_ap).
  destruct (Qlt_le_dec b a) as [Hlt|Hle].
  - assert (Hge : (b <= a)%Q) by lra.
    rewrite (Q.min_r _ _ Hge), (Q.max_l _ _ Hge), Qabs_neg by lra.
    split; nra.
  - rewrite (Q.min_l _ _ Hle), (Q.max_r _ _ Hle), Qabs_pos by lra.
    split; nra.
Qed.

Section Interpolation.

Context (ops : RegionOps) (Hcurve : curve_ok ops).


End Interpolation.

Lemma test_curve_ok : curve_ok test_ops.
Proof.
  split.
  - intros ap r x y Hxy. simpl. unfold linear_curve.
    assert (Hclamp : forall a b, (a == b)%Q -> (clamp01 a == clamp01 b)%Q).
    { intros a b Hab. unfold clamp01, Qltb.
      assert (E0 : Qle_bool 0 a = Qle_bool 0 b) by (rewrite Hab; reflexivity).
      assert (E1 : Qle_bool a 1 = Qle_bool b 1) by (rewrite Hab; reflexivity).
      rewrite E0, E1.
      destruct (Qle_bool 0 b); cbn [negb]; [|reflexivity].
      destruct (Qle_bool b 1); cbn [negb]; [exact Hab|reflexivity]. }
    destruct (next_by_index r ap) as [next_ap|]; [|apply Hclamp, Hxy].
    destruct (Qltb _ _); apply Hclamp; rewrite Hxy; reflexivity.
  - intros ap r x _ _. simpl. unfold linear_curve.
    destruct (next_by_index r ap) as [next_ap|]; [|apply clamp01_range].
    destruct (Qltb _ _); apply clamp01_range.
Qed.



(** C7, counterexample.  In a muted region the points are ignored: at the
    position of the point of value 1 the track reports the port's own
    value, 0.9. *)
Lemma get_val_at_pos_muted_counterexample :
  ap_1000 ∈ [ap_0; ap_1000]
  /\ regions_ muted_ramp_track = [mkRegion 0 2000 true [ap_0; ap_1000]]
  /\ get_val_at_pos test_ops muted_ramp_track (0 + ap_frames ap_1000)
       true false false = (9 # 10)%Q
  /\ ~ (Qabs ((9 # 10) - normalized_val_ ap_1000) <= 1 # 1000000)%Q.
Proof.
  split; [right; left|]. split; [reflexivity|]. split; [reflexivity|].
  vm_compute. intros H. apply H. reflexivity.
Qed.

(** C7, as amended.  In the region that governs [pos], if it is not muted,
    let [ap] be the last of its points at the local position of [pos].  The
    normalized value the track reports at [pos] is the normalized value of
    [ap] within [1e-6], for normalized values in [[0, 1]], provided the
    curve of [ap] starts at that value: at ratio 0 it yields 0 when [ap] is
    the lower of the two points and 1 when it is the higher one.  Without a
    next point the value is that of [ap] itself. *)
Theorem get_val_at_pos_at_point
    (ops : RegionOps) (at_ : t) (pos : Z) (ends_after use_snapshots : bool)
    (port_ : ControlPort) (region : AutomationRegion)
    (earlier later : list AutomationPoint) (ap : AutomationPoint) :
  port at_ = Some port_ ->
  get_region_before_pos at_ pos ends_after use_snapshots = Some region ->
  muted region = false ->
  aps_ region = earlier ++ ap :: later ->
  local_pos_in ops region pos ends_after = ap_frames ap ->
  Forall (fun a => ap_frames ap < ap_frames a) later ->
  (0 <= normalized_val_ ap)%Q -> (normalized_val_ ap <= 1)%Q ->
  (forall next_ap,
     get_next_ap ops region ap = Some next_ap ->
     (0 <= normalized_val_ next_ap)%Q /\ (normalized_val_ next_ap <= 1)%Q
     /\ (get_normalized_value_in_curve ops ap region 0
         == if Qle_bool (normalized_val_ ap) (normalized_val_ next_ap)
            then 0 else 1)%Q) ->
  (Qabs (get_val_at_pos ops at_ pos true ends_after use_snapshots
         - normalized_val_ ap) <= 1 # 1000000)%Q
  /\ (get_next_ap ops region ap = None ->
      get_val_at_pos ops at_ pos true ends_after use_snapshots
      = normalized_val_ ap).
Proof.
  intros Hport Hregion Hmuted Haps Hlocal Hlater Ha0 Ha1 Hcurve0.
  assert (Hap : get_ap_before_pos ops at_ pos ends_after use_snapshots
                = Some ap).
  { apply (get_ap_before_pos_found ops at_ pos ends_after use_snapshots
             region earlier later ap Hregion Hmuted Haps).
    - rewrite Hlocal. lia.
    - rewrite Hlocal. exact Hlater. }
  unfold get_val_at_pos. rewrite Hport, Hap, Hregion, Hlocal.
  destruct (get_next_ap ops region ap) as [next_ap|] eqn:Hnext.
  - split; [|discriminate].
    rewrite Z.sub_diag. cbn [Z.eqb]. cbv zeta.
    change (Qle_bool 0 0) with true. cbn [negb].
    destruct (Hcurve0 next_ap eq_refl) as (Hb0 & Hb1 & H0).
    set (cv := get_normalized_value_in_curve ops ap region 0) in *.
    set (a := normalized_val_ ap) in *.
    set (b := normalized_val_ next_ap) in *.
    assert (Hcv : (0 <= cv)%Q /\ (cv <= 1)%Q).
    { rewrite H0. destruct (Qle_bool a b); split; discriminate. }
    destruct Hcv as [Hc0 Hc1].
    pose proof (interpolation_error cv a b Ha0 Ha1 Hb0 Hb1 Hc0 Hc1) as Herr.
    assert (Hexact : (Qmin a b + cv * Qabs (b - a) == a)%Q).
    { rewrite H0. destruct (Qle_bool a b) eqn:Hlow.
      - apply Qle_bool_iff in Hlow. rewrite (Q.min_l _ _ Hlow). ring.
      - assert (Hhigh : (b <= a)%Q).
        { apply Qlt_le_weak, Qnot_le_lt. intros H.
          apply Qle_bool_iff in H. congruence. }
        rewrite (Q.min_r _ _ Hhigh), Qabs_neg by lra. ring. }
    rewrite Hexact in Herr.
    unfold rounded_interpolation in Herr. cbv zeta in Herr.
    destruct (Qle_bool a b); exact Herr.
  - split; [|reflexivity].
    assert (Hz : (normalized_val_ ap - normalized_val_ ap == 0)%Q) by ring.
    rewrite Hz. discriminate.
Qed.

(** The amended statement on the ramp: at frame 0 the value is that of the
    first point. *)
Lemma get_val_at_pos_at_point_witness :
  muted ramp_region = false
  /\ (Qabs (get_val_at_pos test_ops ramp_track 0 true false false
            - normalized_val_ ap_0) <= 1 # 1000000)%Q.
Proof.
  split; [reflexivity|].
  apply (get_val_at_pos_at_point test_ops ramp_track 0 false false test_port
           ramp_region [] [ap_1000] ap_0
           eq_refl eq_refl eq_refl eq_refl eq_refl).
  - constructor; [reflexivity|constructor].
  - vm_compute. discriminate.
  - vm_compute. discriminate.
  - intros next_ap Hnext. vm_compute in Hnext. injection Hnext as <-.
    repeat split; vm_compute; try discriminate; reflexivity.
Defined.

End AutomationTrackFacts.

(** * Theorems: the event queue *)

Module AudioEngineFacts.
Import AudioEngine.

(** While there is room every push is taken, in order. *)
Lemma push_all_room e evs :
  (length (ev_queue_ e) + length evs <= ENGINE_MAX_EVENTS)%nat ->
  (push_all e evs).1 = replicate (length evs) true
  /\ ev_queue_ (push_all e evs).2 = ev_queue_ e ++ evs
  /\ block_length_ (push_all e evs).2 = block_length_ e
  /\ sample_rate_ (push_all e evs).2 = sample_rate_ e.
Proof.
  revert e. induction evs as [|ev evs IH]; intros e Hlen.
  - simpl. rewrite app_nil_r. auto.
  - cbn [push_all]. unfold push_back.
    simpl in Hlen.
    rewrite (proj2 (Nat.ltb_lt _ _)) by lia.
    set (e1 := mk (ev_queue_ e ++ [ev]) (block_length_ e) (sample_rate_ e)).
    specialize (IH e1).
    destruct (push_all e1 evs) as [oks e2] eqn:Hrest.
    cbn [fst snd] in *.
    destruct IH as (Hoks & Hq & Hb & Hs).
    { subst e1. cbn [ev_queue_]. rewrite length_app. simpl. lia. }
    subst e1. cbn [ev_queue_ block_length_ sample_rate_] in *.
    rewrite Hoks, Hq, <- app_assoc. auto.
Qed.

Lemma clean_duplicate_events_cons ev next rest :
  clean_duplicate_events (ev :: next :: rest)
  = if decide (ev = next) then clean_duplicate_events (next :: rest)
    else ev :: clean_duplicate_events (next :: rest).
Proof. reflexivity. Qed.

Lemma clean_duplicate_events_length evs :
  (length (clean_duplicate_events evs) <= length evs)%nat.
Proof.
  induction evs as [|ev [|next rest] IH]; [simpl; lia|simpl; lia|].
  rewrite clean_duplicate_events_cons.
  destruct (decide (ev = next)); cbn [length] in *; lia.
Qed.

(** Cleaning drops no event altogether and invents none. *)
Lemma clean_duplicate_events_elem evs ev :
  ev ∈ clean_duplicate_events evs <-> ev ∈ evs.
Proof.
  induction evs as [|a [|next rest] IH]; [reflexivity|reflexivity|].
  rewrite clean_duplicate_events_cons.
  destruct (decide (a = next)) as [->|Hne].
  - rewrite IH. split; [intros H; right; exact H|].
    intros H. apply elem_of_cons in H as [->|H]; [left|exact H].
  - rewrite !elem_of_cons. rewrite IH. rewrite elem_of_cons. tauto.
Qed.

(** The first event kept is the first event queued. *)
Lemma clean_duplicate_events_head ev rest :
  exists tail, clean_duplicate_events (ev :: rest) = ev :: tail.
Proof.
  revert ev. induction rest as [|next rest IH]; intros ev; [eexists; reflexivity|].
  rewrite clean_duplicate_events_cons.
  destruct (decide (ev = next)) as [->|Hne]; [apply IH|eexists; reflexivity].
Qed.

(** No two neighbours of the cleaned list are identical. *)
Lemma clean_duplicate_events_distinct evs i a b :
  clean_duplicate_events evs !! i = Some a ->
  clean_duplicate_events evs !! S i = Some b -> a <> b.
Proof.
  revert i. induction evs as [|ev [|next rest] IH]; intros i;
    [discriminate|destruct i; discriminate|].
  rewrite clean_duplicate_events_cons.
  destruct (decide (ev = next)) as [->|Hne]; [apply IH|].
  destruct i as [|i]; [|apply IH].
  destruct (clean_duplicate_events_head next rest) as [tail Htail].
  rewrite Htail. simpl. intros [= <-] [= <-]. exact Hne.
Qed.

(** Handling events leaves the queue alone. *)
Lemma handle_events_queue e events :
  ev_queue_ (foldl handle_event e events) = ev_queue_ e.
Proof.
  revert e. induction events as [|ev events IH]; intros e; [reflexivity|].
  simpl. rewrite IH. unfold handle_event. destruct (type_ ev); reflexivity.
Qed.

(** C3.  After [N <= ENGINE_MAX_EVENTS] events have been pushed into the
    empty queue, each push has been taken and the queue holds the [N] events
    in order; the pump then empties the queue and handles the queued events
    with runs of identical events reduced to one: at most [N] events, none
    twice in a row, and every event that was pushed among them. *)
Theorem process_events_drains (e : t) (evs : list Event) :
  ev_queue_ e = [] ->
  (length evs <= ENGINE_MAX_EVENTS)%nat ->
  let pushed := push_all e evs in
  let pumped := process_events pushed.2 in
  pushed.1 = replicate (length evs) true
  /\ ev_queue_ pushed.2 = evs
  /\ ev_queue_ pumped.2 = []
  /\ pumped.1 = clean_duplicate_events evs
  /\ (length pumped.1 <= length evs)%nat
  /\ (forall ev, ev ∈ evs <-> ev ∈ pumped.1)
  /\ (forall i a b,
        pumped.1 !! i = Some a -> pumped.1 !! S i = Some b -> a <> b).
Proof.
  intros Hempty Hlen pushed pumped.
  destruct (push_all_room e evs) as (Hoks & Hq & _).
  { rewrite Hempty. simpl. lia. }
  rewrite Hempty in Hq. simpl in Hq. fold pushed in Hoks, Hq.
  assert (Hhandled : pumped.1 = clean_duplicate_events evs).
  { subst pumped. unfold process_events, clean_duplicate_events_and_copy.
    cbn [fst]. rewrite Hq. reflexivity. }
  split; [exact Hoks|]. split; [exact Hq|]. split.
  { subst pumped. unfold process_events, clean_duplicate_events_and_copy.
    cbn [snd]. rewrite handle_events_queue. reflexivity. }
  split; [exact Hhandled|]. rewrite Hhandled. split.
  { apply clean_duplicate_events_length. }
  split.
  { intros ev. symmetry. apply clean_duplicate_events_elem. }
  apply clean_duplicate_events_distinct.
Qed.

(** The theorem on three requests, the first two identical: both pushes are
    taken, two events are handled and the engine runs at 512 frames and
    44.1 kHz afterwards. *)
Lemma process_events_drains_witness :
  ev_queue_ idle_engine = []
  /\ (length [buffer_512; buffer_512; rate_44100] <= ENGINE_MAX_EVENTS)%nat
  /\ (process_events
        (push_all idle_engine [buffer_512; buffer_512; rate_44100]).2).1
     = [buffer_512; rate_44100]
  /\ (process_events
        (push_all idle_engine [buffer_512; buffer_512; rate_44100]).2).2
     = mk [] 512 44100.
Proof.
  assert (Hlen : (length [buffer_512; buffer_512; rate_44100]
                  <= ENGINE_MAX_EVENTS)%nat) by (vm_compute; lia).
  destruct (process_events_drains idle_engine
              [buffer_512; buffer_512; rate_44100] eq_refl Hlen)
    as (_ & _ & _ & Hhandled & _).
  split; [reflexivity|]. split; [exact Hlen|].
  split; [rewrite Hhandled; reflexivity|reflexivity].
Defined.

End AudioEngineFacts.

(** * Theorems: channel strip wiring *)

Module ChannelFacts.
Import Channel.





(** Each of the four wiring routines makes the chain between the source and
    the sink that the neighbours determine. *)
Lemma connect_slot_chain ch i slot plugin :
  length (midi_fx_ ch) = STRIP_SIZE -> length (inserts_ ch) = STRIP_SIZE ->
  connect_slot ch (slot_type_of i) slot plugin
  = Some (chain (source_of (prev_of ch (slot_type_of i) slot)) plugin
                (sink_of (next_of ch (slot_type_of i) slot))).
Proof.
  intros Hm Hi. unfold connect_slot, prev_of, next_of.
  destruct i as [|[|i]]; cbn [slot_type_of prev_plugins next_plugins];
    (destruct (decide _) as [_|Hne]; [|congruence]);
    match goal with
    | |- context [find_prev ?a ?b ?c ?d] => destruct (find_prev a b c d)
    end;
    match goal with
    | |- context [find_next ?a ?b ?c ?d] => destruct (find_next a b c d)
    end; reflexivity.
Qed.









(** Beyond the claim: for the instrument the search for the next plugin
    runs over the MIDI FX array from slot 0, so on the test strip the
    instrument is followed by the first MIDI FX rather than by an insert. *)
Lemma instrument_next_on_test_strip :
  next_of strip_example Instrument 0 = Some 11%nat
  /\ wire_slot strip_example (1%nat, 0%nat) = chain (Plugin 14) 20 (Plugin 11).
Proof. vm_compute. auto. Qed.

End ChannelFacts.

(** * Theorems: validated region positions *)

Module ArrangerObjectFacts.
Import ArrangerObject.

Ltac region_cases :=
  repeat match goal with
  | H : context [Z.ltb ?a ?b] |- _ => destruct (Z.ltb_spec a b)
  | H : context [Z.leb ?a ?b] |- _ => destruct (Z.leb_spec a b)
  | H : context [Z.geb ?a ?b] |- _ =>
      rewrite (Z.geb_leb a b) in H
  | H : context [Z.gtb ?a ?b] |- _ =>
      rewrite (Z.gtb_ltb a b) in H
  end.

(** A rejected position leaves the object as it was. *)
Lemma set_position_rejected o pos pos_type validate o' :
  set_position o pos pos_type validate = (false, o') -> o' = o.
Proof.
  unfold set_position. destruct pos as [pos|]; [|congruence].
  destruct (validate && negb (is_position_valid o pos pos_type));
    [congruence|].
  destruct (store_position o pos_type pos); congruence.
Qed.

(** An accepted position passed the validity check and is the one stored. *)
Lemma set_position_accepted o pos pos_type o' :
  set_position o (Some pos) pos_type true = (true, o') ->
  is_position_valid o pos pos_type = true
  /\ store_position o pos_type pos = Some o'.
Proof.
  unfold set_position. cbn [andb].
  destruct (is_position_valid o pos pos_type); cbn [negb]; [|discriminate].
  destruct (store_position o pos_type pos); [|discriminate].
  intros [= <-]. auto.
Qed.

(** C9, counterexample.  Moving the start of an audio region whose fade-out
    sits at its end from 0 to 10 is accepted by the validated setter, and
    the stored fade-out (100) then lies beyond the new length (90): the
    check for [Start] compares the fade-out shifted by the move with the
    fade-in, not the fade-out with the new length. *)
Lemma set_position_start_counterexample :
  region_invariants audio_region_0_100
  /\ exists r',
       set_position audio_region_0_100 (Some 10) Start true = (true, r')
       /\ ~ region_invariants r'.
Proof.
  split.
  - unfold region_invariants, length_ok, loop_ok, clip_start_nonneg,
      clip_start_before_loop_end, fade_order_ok, fade_in_nonneg,
      fade_out_in_length. simpl. lia.
  - eexists. split; [vm_compute; reflexivity|].
    unfold region_invariants, fade_out_in_length. simpl.
    intros (_ & _ & _ & _ & _ & _ & H). specialize (H eq_refl). lia.
Qed.

(** Setting the loop end onto the clip start is accepted as well, although
    setting the clip start onto the loop end is not. *)
Lemma set_position_loop_end_on_clip_start :
  fst (set_position midi_region_clip_50 (Some 50) LoopEnd true) = true
  /\ fst (set_position (mk Region Midi 0 100 0 0 50 0 0 0) (Some 50)
            ClipStart true) = false.
Proof. vm_compute. auto. Qed.

(** On a region the validated setter stores exactly the positions that the
    validity check lets through. *)
Lemma set_position_region_flag (r : t) (pos : Position)
    (pos_type : PositionType) :
  type_ r = Region ->
  (set_position r (Some pos) pos_type true).1
  = is_position_valid r pos pos_type.
Proof.
  intros Hty. unfold set_position. cbn [andb].
  destruct (is_position_valid r pos pos_type) eqn:Hvalid; cbn [negb];
    [|reflexivity].
  destruct r as [ty rt st en cs ls le fi fo cf].
  cbn [type_] in Hty. subst ty.
  unfold is_position_valid in Hvalid.
  unfold store_position, is_lengthable, is_loopable, is_fadeable in *.
  cbn [type_ type_has_length] in *.
  destruct pos_type; try reflexivity;
    destruct (can_fade _); cbn [negb] in Hvalid;
    try reflexivity; discriminate.
Qed.

(** C9, as amended.  On every region the validated setter either rejects
    the position, returning [false] and leaving the region unchanged, or
    stores it, as [is_position_valid] decides.  After a stored position
    each of [end > start], [0 <= loop_start < loop_end], [0 <= clip_start],
    [fade_in < fade_out] and [0 <= fade_in] holds if it held before,
    whatever else holds of the region; [clip_start < loop_end] is kept
    unless the loop end itself was set; and [fade_out <= end - start] is
    kept unless the start or the end was set, in which case the fade-out
    shifted by the change of length stays after the fade-in.  The bounds
    that the position set is checked against hold afterwards whether or not
    they held before. *)
Theorem set_position_validated (r : t) (pos : Position)
    (pos_type : PositionType) (ok : bool) (r' : t) :
  type_ r = Region ->
  set_position r (Some pos) pos_type true = (ok, r') ->
  ok = is_position_valid r pos pos_type
  /\ (ok = false -> r' = r)
  /\ (ok = true ->
      store_position r pos_type pos = Some r'
      /\ (length_ok r -> length_ok r')
      /\ (loop_ok r -> loop_ok r')
      /\ (clip_start_nonneg r -> clip_start_nonneg r')
      /\ (fade_order_ok r -> fade_order_ok r')
      /\ (fade_in_nonneg r -> fade_in_nonneg r')
      /\ (pos_type <> LoopEnd ->
          clip_start_before_loop_end r -> clip_start_before_loop_end r')
      /\ (pos_type <> Start -> pos_type <> End ->
          fade_out_in_length r -> fade_out_in_length r')
      /\ (pos_type = Start \/ pos_type = End -> can_fade r = true ->
          fade_in_pos_ r'
          < fade_out_pos_ r'
            + ((end_pos_ r' - pos_ r') - (end_pos_ r - pos_ r)))
      /\ match pos_type with
         | Start | End => length_ok r'
         | ClipStart => clip_start_nonneg r' /\ clip_start_before_loop_end r'
         | LoopStart => 0 <= loop_start_pos_ r' < loop_end_pos_ r'
         | LoopEnd =>
             loop_start_pos_ r' < loop_end_pos_ r'
             /\ clip_start_pos_ r' <= loop_end_pos_ r'
         | FadeIn => fade_order_ok r' /\ fade_in_nonneg r'
         | FadeOut => fade_order_ok r' /\ fade_out_in_length r'
         end).
Proof.
  intros Hty Hset. split; [|split].
  - rewrite <- (set_position_region_flag r pos pos_type Hty), Hset.
    reflexivity.
  - intros ->. eapply set_position_rejected; eassumption.
  - intros ->. apply set_position_accepted in Hset as [Hvalid Hstore].
    split; [exact Hstore|].
    unfold length_ok, loop_ok, clip_start_nonneg, clip_start_before_loop_end,
      fade_order_ok, fade_in_nonneg, fade_out_in_length in *.
    destruct r as [ty rt st en cs ls le fi fo cf].
    cbn [type_] in Hty. subst ty.
    unfold is_position_valid, store_position, can_fade, is_lengthable,
      is_loopable, is_fadeable, can_fade, region_type_can_fade,
      type_has_length, type_owned_by_region, type_has_global_pos in *.
    cbn [type_ region_type pos_ end_pos_ clip_start_pos_ loop_start_pos_
         loop_end_pos_ fade_in_pos_ fade_out_pos_ clip_num_frames negb andb
         orb] in *.
    destruct pos_type, rt; cbn [negb andb orb] in *;
      try discriminate; region_cases; cbn [negb andb orb] in *;
      try discriminate;
      injection Hstore as <-;
      cbn [type_ region_type pos_ end_pos_ clip_start_pos_ loop_start_pos_
           loop_end_pos_ fade_in_pos_ fade_out_pos_];
      repeat split; intros; try congruence; try lia;
      repeat match goal with
      | H : true = true -> _ |- _ => specialize (H eq_refl)
      | H : _ /\ _ |- _ => destruct H
      end; try lia;
      try (match goal with H : _ \/ _ |- _ => destruct H end; congruence).
Qed.

(** The amended statement on the region that the accepted call of the
    counterexample leaves, the audio region from 10 to 100 whose fade-out is
    still at 100: moving its end to 95 is accepted, and the region still
    starts before it ends. *)
Lemma set_position_validated_witness :
  ~ region_invariants (mk Region Audio 10 100 0 0 100 0 100 100)
  /\ store_position (mk Region Audio 10 100 0 0 100 0 100 100) End 95
     = Some (mk Region Audio 10 95 0 0 100 0 100 100)
  /\ length_ok (mk Region Audio 10 95 0 0 100 0 100 100)
  /\ loop_ok (mk Region Audio 10 95 0 0 100 0 100 100).
Proof.
  destruct (set_position_validated (mk Region Audio 10 100 0 0 100 0 100 100)
              95 End true (mk Region Audio 10 95 0 0 100 0 100 100)
              eq_refl eq_refl) as (_ & _ & H).
  destruct (H eq_refl) as (Hs & Hl & Hloop & _).
  split.
  { unfold region_invariants, fade_out_in_length. simpl.
    intros (_ & _ & _ & _ & _ & _ & Hf). specialize (Hf eq_refl). lia. }
  split; [exact Hs|]. split.
  - apply Hl. unfold length_ok. simpl. lia.
  - apply Hloop. unfold loop_ok. simpl. lia.
Defined.

End ArrangerObjectFacts.

(** * Theorems: what a block leaves alone *)

Section BlockFrame.

Import float_ranges Examples.

Lemma same_outside_refl off n a : same_outside off n a a.
Proof. split; auto. Qed.

Lemma same_outside_trans off n a b c :
  same_outside off n a b -> same_outside off n b c -> same_outside off n a c.
Proof.
  intros [Hl1 H1] [Hl2 H2]. split; [congruence|].
  intros idx Hidx. rewrite H1, H2 by exact Hidx. reflexivity.
Qed.

Lemma in_block_sub off n off' size' idx :
  (off <= off')%nat -> (off' + size' <= off + n)%nat ->
  in_block off n idx = false -> in_block off' size' idx = false.
Proof.
  unfold in_block. intros H1 H2 H.
  apply andb_false_iff in H. apply andb_false_iff.
  rewrite Nat.leb_gt, Nat.ltb_ge in *. lia.
Qed.

(** A transform over a range inside the block changes nothing outside the
    block. *)
Lemma on_range_same_outside off n off' size' g buf :
  (off <= off')%nat -> (off' + size' <= off + n)%nat ->
  same_outside off n (on_range off' size' g buf) buf.
Proof.
  intros H1 H2. split; [apply on_range_length|].
  intros idx Hidx. rewrite on_range_lookup.
  rewrite (in_block_sub off n off' size' idx H1 H2 Hidx).
  destruct (buf !! idx); reflexivity.
Qed.

Lemma same_outside2_refl off n a : same_outside2 off n a a.
Proof. split; apply same_outside_refl. Qed.

Lemma same_outside2_trans off n a b c :
  same_outside2 off n a b -> same_outside2 off n b c ->
  same_outside2 off n a c.
Proof.
  intros [H1 H2] [H3 H4]. split; eapply same_outside_trans; eauto.
Qed.

Lemma on_range2_same_outside off n o1 s1 g1 o2 s2 g2 (out : list Q * list Q) :
  (off <= o1)%nat -> (o1 + s1 <= off + n)%nat ->
  (off <= o2)%nat -> (o2 + s2 <= off + n)%nat ->
  same_outside2 off n (on_range o1 s1 g1 out.1, on_range o2 s2 g2 out.2) out.
Proof.
  intros. split; cbn [fst snd]; apply on_range_same_outside; assumption.
Qed.

Context (c : Dsp) (p : Project) (cr : ControlRoom)
        (time_nfo : EngineProcessTimeInfo).

Lemma copy_in_to_out_frame ports :
  outside_block time_nfo (copy_in_to_out time_nfo ports) (stereo_out ports).
Proof.
  unfold copy_in_to_out, copy. apply on_range2_same_outside; lia.
Qed.

Lemma mix_listened_frame la out t :
  outside_block time_nfo (mix_listened time_nfo la out t) out.
Proof.
  unfold mix_listened. destruct (_ && _).
  - unfold mix_product. apply on_range2_same_outside; lia.
  - apply same_outside2_refl.
Qed.

Lemma foldl_mix_listened_frame la ts out :
  outside_block time_nfo (foldl (mix_listened time_nfo la) out ts) out.
Proof.
  revert out. induction ts as [|t ts IH]; intros out; cbn [foldl].
  - apply same_outside2_refl.
  - eapply same_outside2_trans; [apply IH|apply mix_listened_frame].
Qed.

Lemma mul_k2_pair_frame k (out : list Q * list Q) :
  outside_block time_nfo
    (mul_k2 out.1 (local_offset_ time_nfo) k (nframes_ time_nfo),
     mul_k2 out.2 (local_offset_ time_nfo) k (nframes_ time_nfo)) out.
Proof. unfold mul_k2. apply on_range2_same_outside; lia. Qed.

Lemma process_monitor_frame out :
  outside_block time_nfo (process_monitor p cr time_nfo out) out.
Proof.
  unfold process_monitor.
  assert (H1 : outside_block time_nfo
    (if has_listened (TRACKLIST p)
     then foldl (mix_listened time_nfo (listen_fader_amp cr))
            (mul_k2 out.1 (local_offset_ time_nfo) (dim_fader_amp cr)
               (nframes_ time_nfo),
             mul_k2 out.2 (local_offset_ time_nfo) (dim_fader_amp cr)
               (nframes_ time_nfo))
            (map_to_list (TRACKLIST p)).*2
     else out) out).
  { destruct (has_listened _); [|apply same_outside2_refl].
    eapply same_outside2_trans;
      [apply foldl_mix_listened_frame|apply mul_k2_pair_frame]. }
  cbv zeta.
  destruct (dim_output_ cr); [|exact H1].
  eapply same_outside2_trans; [apply mul_k2_pair_frame|exact H1].
Qed.

Lemma arm_fades_controls d em f : controls (arm_fades d em f) = controls f.
Proof.
  unfold arm_fades. destruct f.
  destruct (_ && _); [reflexivity|]. destruct (_ && _); reflexivity.
Qed.

Lemma handle_fade_in_frame d m f out :
  match handle_fade_in time_nfo d m (f, out) with
  | Go (f', out') | Return (f', out') =>
      outside_block time_nfo out' out /\ controls f' = controls f
  end.
Proof.
  unfold handle_fade_in.
  destruct (0 <? _); [|split; [apply same_outside2_refl|reflexivity]].
  destruct (negb _); [split; [apply same_outside2_refl|reflexivity]|].
  split; [|destruct f; reflexivity].
  unfold linear_fade_in_from. apply on_range2_same_outside; lia.
Qed.

Lemma handle_fade_out_frame d m f out :
  match handle_fade_out time_nfo d m (f, out) with
  | Go (f', out', faded) =>
      outside_block time_nfo out' out /\ controls f' = controls f
      /\ (faded <= nframes_ time_nfo)%nat
  | Return (f', out') =>
      outside_block time_nfo out' out /\ controls f' = controls f
  end.
Proof.
  unfold handle_fade_out.
  destruct (Fader.fading_out_ f);
    [|split; [apply same_outside2_refl|split; [reflexivity|lia]]].
  set (stp := Z.max 0 (Z.min (Fader.fade_out_samples_ f)
                              (Z.of_nat (nframes_ time_nfo)))).
  assert (Hstp : (Z.to_nat stp <= nframes_ time_nfo)%nat) by (subst stp; lia).
  assert (Hfade : outside_block time_nfo
    (linear_fade_out_to out.1 (local_offset_ time_nfo)
       (d - Fader.fade_out_samples_ f) d (Z.to_nat stp) m,
     linear_fade_out_to out.2 (local_offset_ time_nfo)
       (d - Fader.fade_out_samples_ f) d (Z.to_nat stp) m) out).
  { unfold linear_fade_out_to. apply on_range2_same_outside; lia. }
  destruct (0 <? Fader.fade_out_samples_ f).
  - destruct (negb _); [split; [apply same_outside2_refl|reflexivity]|].
    destruct (_ =? 0).
    + destruct (0 <? nframes_ time_nfo - Z.to_nat stp)%nat.
      * split; [|split; [destruct f; reflexivity|lia]].
        eapply same_outside2_trans; [|exact Hfade].
        unfold mul_k2. apply on_range2_same_outside; lia.
      * split; [exact Hfade|]. split; [destruct f; reflexivity|lia].
    + split; [exact Hfade|]. split; [destruct f; reflexivity|lia].
  - destruct (_ =? 0).
    + destruct (0 <? nframes_ time_nfo - Z.to_nat stp)%nat.
      * split; [|split; [reflexivity|lia]].
        unfold mul_k2. apply on_range2_same_outside; lia.
      * split; [apply same_outside2_refl|]. split; [reflexivity|lia].
    + split; [apply same_outside2_refl|]. split; [reflexivity|lia].
Qed.

Lemma apply_gain_frame f out :
  outside_block time_nfo (apply_gain c time_nfo f out) out.
Proof.
  unfold apply_gain.
  destruct (calculate_balance_control c (Fader.balance f)) as [calc_l calc_r].
  set (out1 := (mul_k2 out.1 (local_offset_ time_nfo) (Fader.amp f * calc_l)
                  (nframes_ time_nfo),
                mul_k2 out.2 (local_offset_ time_nfo) (Fader.amp f * calc_r)
                  (nframes_ time_nfo))).
  assert (H1 : outside_block time_nfo out1 out)
    by (unfold out1, mul_k2; apply on_range2_same_outside; lia).
  assert (H2 : outside_block time_nfo
    (if Fader.mono_compat_enabled f
     then make_mono out1.1 out1.2 (local_offset_ time_nfo) (nframes_ time_nfo)
     else out1) out).
  { destruct (Fader.mono_compat_enabled f); [|exact H1].
    eapply same_outside2_trans; [|exact H1].
    unfold make_mono. apply on_range2_same_outside; lia. }
  destruct (Fader.swap_phase f); [|exact H2].
  eapply same_outside2_trans; [apply mul_k2_pair_frame|exact H2].
Qed.

Lemma apply_mute_level_frame em m faded f out :
  (faded <= nframes_ time_nfo)%nat ->
  outside_block time_nfo (apply_mute_level p time_nfo em m faded f out) out.
Proof.
  intros Hf. unfold apply_mute_level.
  destruct (_ && _); [|apply same_outside2_refl].
  destruct (Qltb _ _); unfold fill, mul_k2;
    apply on_range2_same_outside; lia.
Qed.

Lemma hard_limit_frame f track out :
  outside_block time_nfo (hard_limit time_nfo f track out) out.
Proof.
  unfold hard_limit. destruct (hard_limited f track).
  - unfold clip. apply on_range2_same_outside; lia.
  - apply same_outside2_refl.
Qed.

(** The audio branch, whichever way it is left. *)
Lemma process_audio_frame em track f out :
  match process_audio c p cr time_nfo em track (f, out) with
  | Go (f', out') | Return (f', out') =>
      outside_block time_nfo out' out /\ controls f' = controls f
  end.
Proof.
  unfold process_audio.
  set (d := fade_frames_for_type c (Fader.type_ f)).
  assert (H0 : exists m f0 out0,
    (if bool_decide (Fader.type_ f = Fader.Monitor)
     then (denormal_prevention_val_ p, f, process_monitor p cr time_nfo out)
     else (mute_fader_amp cr, arm_fades d em f, out)) = (m, f0, out0)
    /\ outside_block time_nfo out0 out /\ controls f0 = controls f).
  { destruct (bool_decide _); eexists _, _, _; (split; [reflexivity|]).
    - split; [apply process_monitor_frame|reflexivity].
    - split; [apply same_outside2_refl|apply arm_fades_controls]. }
  destruct H0 as (m & f0 & out0 & -> & Ho0 & Hc0).
  pose proof (handle_fade_in_frame d m f0 out0) as H1.
  destruct (handle_fade_in time_nfo d m (f0, out0)) as [[f1 out1]|[f1 out1]];
    destruct H1 as [Ho1 Hc1];
    [|split; [eapply same_outside2_trans; eauto|congruence]].
  pose proof (handle_fade_out_frame d m f1 out1) as H2.
  destruct (handle_fade_out time_nfo d m (f1, out1))
    as [[[f2 out2] faded]|[f2 out2]].
  - destruct H2 as (Ho2 & Hc2 & Hfaded). split; [|congruence].
    eapply same_outside2_trans; [apply hard_limit_frame|].
    eapply same_outside2_trans;
      [apply apply_mute_level_frame; exact Hfaded|].
    eapply same_outside2_trans; [apply apply_gain_frame|].
    eapply same_outside2_trans; [exact Ho2|].
    eapply same_outside2_trans; eauto.
  - destruct H2 as [Ho2 Hc2]. split; [|congruence].
    eapply same_outside2_trans; [exact Ho2|].
    eapply same_outside2_trans; eauto.
Qed.

Lemma set_was_effectively_muted_controls f em :
  controls (Fader.set_was_effectively_muted f em) = controls f.
Proof. destruct f; reflexivity. Qed.

Lemma process_block_frame fuel f ports f' ports' :
  process_block c p cr time_nfo fuel f ports = Some (f', ports') ->
  outside_block time_nfo (stereo_out ports') (stereo_out ports)
  /\ controls f' = controls f
  /\ stereo_in ports' = stereo_in ports /\ midi_in ports' = midi_in ports.
Proof.
  unfold process_block.
  destruct (block_track p f) as [track|];
    [|intros [= <- <-]; split; [apply same_outside2_refl|auto]].
  destruct (effectively_muted fuel p f track) as [em|]; [|discriminate].
  destruct (Fader.has_audio_ports f).
  - destruct (Fader.passthrough_ f).
    + intros [= <- <-]. split; [apply copy_in_to_out_frame|].
      split; [apply set_was_effectively_muted_controls|auto].
    + pose proof (process_audio_frame em track f
                    (copy_in_to_out time_nfo ports)) as H.
      destruct (process_audio c p cr time_nfo em track
                  (f, copy_in_to_out time_nfo ports))
        as [[f1 out1]|[f1 out1]]; destruct H as [Ho Hc];
        intros [= <- <-]; cbn [stereo_out set_stereo_out stereo_in midi_in].
      * split; [eapply same_outside2_trans;
                  [exact Ho|apply copy_in_to_out_frame]|].
        rewrite set_was_effectively_muted_controls. auto.
      * split; [eapply same_outside2_trans;
                  [exact Ho|apply copy_in_to_out_frame]|].
        auto.
  - destruct (bool_decide _); intros [= <- <-].
    + unfold process_midi.
      destruct (negb em); [destruct (negb _)|];
        cbn [stereo_out set_midi_out stereo_in midi_in];
        (split; [apply same_outside2_refl|]);
        rewrite set_was_effectively_muted_controls; auto.
    + split; [apply same_outside2_refl|].
      rewrite set_was_effectively_muted_controls. auto.
Qed.

End BlockFrame.

Section BlockFrameFacts.

Import float_ranges Examples.

(** X1.  Whatever the fader and its state, a block that [process_block]
    finishes leaves the stereo output buffers at their lengths and changes
    no sample outside the [nframes] samples at [local_offset]. *)
Theorem process_block_outside_block
    (c : Dsp) (p : Project) (cr : ControlRoom)
    (time_nfo : EngineProcessTimeInfo) (fuel : nat)
    (f : Fader.t) (ports : Ports) (f' : Fader.t) (ports' : Ports) :
  process_block c p cr time_nfo fuel f ports = Some (f', ports') ->
  length (stereo_out ports').1 = length (stereo_out ports).1
  /\ length (stereo_out ports').2 = length (stereo_out ports).2
  /\ forall idx,
       in_block (local_offset_ time_nfo) (nframes_ time_nfo) idx = false ->
       (stereo_out ports').1 !! idx = (stereo_out ports).1 !! idx
       /\ (stereo_out ports').2 !! idx = (stereo_out ports).2 !! idx.
Proof.
  intros H.
  destruct (process_block_frame c p cr time_nfo fuel f ports f' ports' H)
    as ([[Hl1 H1] [Hl2 H2]] & _).
  split; [exact Hl1|]. split; [exact Hl2|].
  intros idx Hidx. split; [apply H1|apply H2]; exact Hidx.
Qed.

(** The master fader of [unrouted_solo] on the middle sample of three: the
    first and the last sample of the output stay 0. *)
Lemma process_block_outside_block_witness :
  exists f' ports',
    process_block test_dsp unrouted_solo test_control_room (mkTimeInfo 1 1)
      3 (fader_ master0) loud_ports = Some (f', ports')
    /\ (stereo_out ports').1 = [0; -2; 0]%Q
    /\ length (stereo_out ports').1 = length (stereo_out loud_ports).1
    /\ (stereo_out ports').1 !! 2%nat = (stereo_out loud_ports).1 !! 2%nat.
Proof.
  eexists _, _. split; [reflexivity|]. split; [reflexivity|].
  destruct (process_block_outside_block test_dsp unrouted_solo
              test_control_room (mkTimeInfo 1 1) 3 (fader_ master0)
              loud_ports _ _ eq_refl) as (Hl & _ & Hout).
  split; [exact Hl|]. exact (proj1 (Hout 2%nat eq_refl)).
Defined.

(** X2.  [process_block] writes the fade state only: the type, the MIDI
    mode, the passthrough flag, the track and the values of the amp,
    balance, mute, solo, listen, mono-compatibility and phase controls of
    the fader are the same afterwards, and so are the input buffers. *)
Theorem process_block_keeps_controls
    (c : Dsp) (p : Project) (cr : ControlRoom)
    (time_nfo : EngineProcessTimeInfo) (fuel : nat)
    (f : Fader.t) (ports : Ports) (f' : Fader.t) (ports' : Ports) :
  process_block c p cr time_nfo fuel f ports = Some (f', ports') ->
  controls f' = controls f
  /\ stereo_in ports' = stereo_in ports /\ midi_in ports' = midi_in ports.
Proof.
  intros H.
  destruct (process_block_frame c p cr time_nfo fuel f ports f' ports' H)
    as (_ & Hc). exact Hc.
Qed.

Lemma process_block_keeps_controls_witness :
  exists f' ports',
    process_block test_dsp group_solo test_control_room (mkTimeInfo 0 4) 7
      half_volume_fader ones_ports = Some (f', ports')
    /\ Fader.fading_out_ f' = true
    /\ controls f' = controls half_volume_fader.
Proof.
  eexists _, _. split; [reflexivity|]. split; [reflexivity|].
  exact (proj1 (process_block_keeps_controls test_dsp group_solo
                  test_control_room (mkTimeInfo 0 4) 7 half_volume_fader
                  ones_ports _ _ eq_refl)).
Defined.

End BlockFrameFacts.

(** * Theorems: the paths through a block *)

Section BlockPaths.

Import float_ranges Examples.

Context (c : Dsp) (p : Project) (cr : ControlRoom)
        (time_nfo : EngineProcessTimeInfo).

(** The first step puts the input sample where an output sample is. *)
Lemma copy_in_to_out_lookup ports i xl xr yl yr :
  (i < nframes_ time_nfo)%nat ->
  (stereo_in ports).1 !! (local_offset_ time_nfo + i)%nat = Some xl ->
  (stereo_in ports).2 !! (local_offset_ time_nfo + i)%nat = Some xr ->
  (stereo_out ports).1 !! (local_offset_ time_nfo + i)%nat = Some yl ->
  (stereo_out ports).2 !! (local_offset_ time_nfo + i)%nat = Some yr ->
  (copy_in_to_out time_nfo ports).1 !! (local_offset_ time_nfo + i)%nat
  = Some xl
  /\ (copy_in_to_out time_nfo ports).2 !! (local_offset_ time_nfo + i)%nat
     = Some xr.
Proof.
  intros Hi Hxl Hxr Hyl Hyr. unfold copy_in_to_out, copy. cbn [fst snd].
  rewrite !on_range_lookup.
  rewrite !in_block_true by lia. rewrite Hyl, Hyr.
  cbn [fmap option_fmap option_map].
  replace (local_offset_ time_nfo
           + (local_offset_ time_nfo + i - local_offset_ time_nfo))%nat
    with (local_offset_ time_nfo + i)%nat by lia.
  rewrite Hxl, Hxr. split; reflexivity.
Qed.

(** Gain and hard limit with mono compatibility and phase swap off. *)
Lemma gain_and_limit_lookup f track (out : list Q * list Q) i a b :
  Fader.mono_compat_enabled f = false -> Fader.swap_phase f = false ->
  (i < nframes_ time_nfo)%nat ->
  out.1 !! (local_offset_ time_nfo + i)%nat = Some a ->
  out.2 !! (local_offset_ time_nfo + i)%nat = Some b ->
  (hard_limit time_nfo f track (apply_gain c time_nfo f out)).1
    !! (local_offset_ time_nfo + i)%nat
  = Some (after_fade f track
            (calculate_balance_control c (Fader.balance f)).1 a)
  /\ (hard_limit time_nfo f track (apply_gain c time_nfo f out)).2
       !! (local_offset_ time_nfo + i)%nat
     = Some (after_fade f track
               (calculate_balance_control c (Fader.balance f)).2 b).
Proof.
  intros Hmono Hphase Hi Ha Hb.
  unfold hard_limit, apply_gain, after_fade. rewrite Hmono, Hphase.
  destruct (calculate_balance_control c (Fader.balance f))
    as [calc_l calc_r].
  cbn [fst snd].
  destruct (hard_limited f track); cbn [fst snd]; unfold clip, mul_k2;
    rewrite !on_range_lookup;
    rewrite !in_block_true by lia; rewrite Ha, Hb; split; reflexivity.
Qed.

Lemma non_monitor_fade_frames f :
  Fader.type_ f <> Fader.Monitor ->
  fade_frames_for_type c (Fader.type_ f) = FADER_DEFAULT_FADE_FRAMES_SHORT c.
Proof.
  unfold fade_frames_for_type.
  destruct (Fader.type_ f); intros; try reflexivity; congruence.
Qed.

Lemma set_was_effectively_muted_same f :
  Fader.set_was_effectively_muted f (Fader.was_effectively_muted_ f) = f.
Proof. destruct f; reflexivity. Qed.

Lemma fade_out_samples_set f v :
  Fader.fade_out_samples_ (Fader.set_fade_out_samples f v) = v.
Proof. destruct f; reflexivity. Qed.

End BlockPaths.

Section BlockPathFacts.

Import float_ranges Examples.

(** X3.  A passthrough fader with audio ports (a prefader) is never
    effectively muted, whatever its mute control and the solo state of the
    project say: the block copies each input sample of the block to the
    output, records "not muted" and touches nothing else of the fader. *)
Theorem process_block_passthrough_copies
    (c : Dsp) (p : Project) (cr : ControlRoom)
    (time_nfo : EngineProcessTimeInfo) (fuel : nat)
    (f : Fader.t) (ports : Ports) (track : option (TrackId * Track)) :
  block_track p f = Some track ->
  Fader.has_audio_ports f = true ->
  Fader.passthrough_ f = true ->
  exists ports',
    process_block c p cr time_nfo fuel f ports
    = Some (Fader.set_was_effectively_muted f false, ports')
    /\ midi_out ports' = midi_out ports
    /\ forall i xl xr yl yr,
         (i < nframes_ time_nfo)%nat ->
         (stereo_in ports).1 !! (local_offset_ time_nfo + i)%nat = Some xl ->
         (stereo_in ports).2 !! (local_offset_ time_nfo + i)%nat = Some xr ->
         (stereo_out ports).1 !! (local_offset_ time_nfo + i)%nat = Some yl ->
         (stereo_out ports).2 !! (local_offset_ time_nfo + i)%nat = Some yr ->
         (stereo_out ports').1 !! (local_offset_ time_nfo + i)%nat = Some xl
         /\ (stereo_out ports').2 !! (local_offset_ time_nfo + i)%nat
            = Some xr.
Proof.
  intros Htrack Haud Hpt. unfold process_block, effectively_muted.
  rewrite Htrack, Hpt, Haud. eexists. split; [reflexivity|].
  split; [reflexivity|]. cbn [stereo_out set_stereo_out].
  intros i xl xr yl yr. apply copy_in_to_out_lookup.
Qed.

(** A muted prefader on track 3 of [group_solo], where another track is
    soloed: the ones of the input arrive at the output. *)
Lemma process_block_passthrough_copies_witness :
  Fader.get_muted
    (Fader.mk Fader.AudioChannel Fader.MIDI_FADER_MODE_VEL_MULTIPLIER true
       (Some 3%nat) 1 (1 # 2) true false false false false 0 0 false true)
  = true
  /\ exists ports',
       process_block test_dsp group_solo test_control_room (mkTimeInfo 0 4)
         0
         (Fader.mk Fader.AudioChannel Fader.MIDI_FADER_MODE_VEL_MULTIPLIER
            true (Some 3%nat) 1 (1 # 2) true false false false false 0 0
            false true)
         ones_ports
       = Some (Fader.mk Fader.AudioChannel
                 Fader.MIDI_FADER_MODE_VEL_MULTIPLIER true (Some 3%nat) 1
                 (1 # 2) true false false false false 0 0 false false,
               ports')
       /\ (stereo_out ports').1 !! 2%nat = Some 1%Q.
Proof.
  split; [reflexivity|].
  destruct (process_block_passthrough_copies test_dsp group_solo
              test_control_room (mkTimeInfo 0 4) 0
              (Fader.mk Fader.AudioChannel
                 Fader.MIDI_FADER_MODE_VEL_MULTIPLIER true (Some 3%nat) 1
                 (1 # 2) true false false false false 0 0 false true)
              ones_ports (Some (3%nat, other_C)) eq_refl eq_refl eq_refl)
    as (ports' & Hrun & _ & Hout).
  exists ports'. split; [exact Hrun|].
  exact (proj1 (Hout 2%nat 1%Q 1%Q 0%Q 0%Q ltac:(simpl; lia)
                  eq_refl eq_refl eq_refl eq_refl)).
Defined.

(** X4.  The normal path of a non-monitor, non-passthrough audio fader:
    not effectively muted now nor in the previous block, no fade pending.
    The fader is left exactly as it was, and with mono compatibility and
    phase swap off every output sample of the block is the input sample
    times amp times the pan gain of its channel, hard-limited where the
    fader has a hard limit. *)
Theorem process_block_steady_gain
    (c : Dsp) (p : Project) (cr : ControlRoom)
    (time_nfo : EngineProcessTimeInfo) (fuel : nat)
    (f : Fader.t) (ports : Ports) (track : option (TrackId * Track)) :
  Fader.has_audio_ports f = true ->
  Fader.type_ f <> Fader.Monitor ->
  Fader.passthrough_ f = false ->
  block_track p f = Some track ->
  effectively_muted fuel p f track = Some false ->
  Fader.was_effectively_muted_ f = false ->
  Fader.fade_in_samples_ f <= 0 ->
  Fader.fading_out_ f = false ->
  Fader.mono_compat_enabled f = false ->
  Fader.swap_phase f = false ->
  exists ports',
    process_block c p cr time_nfo fuel f ports = Some (f, ports')
    /\ forall i xl xr yl yr,
         (i < nframes_ time_nfo)%nat ->
         (stereo_in ports).1 !! (local_offset_ time_nfo + i)%nat = Some xl ->
         (stereo_in ports).2 !! (local_offset_ time_nfo + i)%nat = Some xr ->
         (stereo_out ports).1 !! (local_offset_ time_nfo + i)%nat = Some yl ->
         (stereo_out ports).2 !! (local_offset_ time_nfo + i)%nat = Some yr ->
         (stereo_out ports').1 !! (local_offset_ time_nfo + i)%nat
         = Some (after_fade f track
                   (calculate_balance_control c (Fader.balance f)).1 xl)
         /\ (stereo_out ports').2 !! (local_offset_ time_nfo + i)%nat
            = Some (after_fade f track
                      (calculate_balance_control c (Fader.balance f)).2 xr).
Proof.
  intros Haud Hty Hpt Htrack Hem Hwas Hfi Hfg Hmono Hphase.
  unfold process_block. rewrite Htrack, Hem, Haud, Hpt.
  unfold process_audio. rewrite (bool_decide_eq_false_2 _ Hty).
  unfold arm_fades. rewrite Hwas. cbn [negb andb].
  unfold handle_fade_in. rewrite (proj2 (Z.ltb_ge 0 _)) by lia.
  unfold handle_fade_out. rewrite Hfg.
  unfold apply_mute_level. cbn [andb].
  eexists. split.
  { rewrite <- Hwas at 1. rewrite set_was_effectively_muted_same.
    reflexivity. }
  cbn [stereo_out set_stereo_out].
  intros i xl xr yl yr Hi Hxl Hxr Hyl Hyr.
  destruct (copy_in_to_out_lookup time_nfo ports i xl xr yl yr
              Hi Hxl Hxr Hyl Hyr) as [Hl Hr].
  apply gain_and_limit_lookup; assumption.
Qed.

(** Track 3 of a project in which nothing is soloed, at half volume. *)
Lemma process_block_steady_gain_witness :
  exists ports',
    process_block test_dsp
      (mkProject group_tracks 0%nat BOUNCE_OFF 0)
      test_control_room (mkTimeInfo 0 4) 0
      (Fader.mk Fader.AudioChannel Fader.MIDI_FADER_MODE_VEL_MULTIPLIER
         false (Some 3%nat) (1 # 2) (1 # 2) false true false false false 0 0
         false false)
      ones_ports
    = Some (Fader.mk Fader.AudioChannel Fader.MIDI_FADER_MODE_VEL_MULTIPLIER
              false (Some 3%nat) (1 # 2) (1 # 2) false true false false
              false 0 0 false false,
            ports')
    /\ (stereo_out ports').1 !! 1%nat
       = Some (1 * ((1 # 2) * (linear_balance (1 # 2)).1))%Q.
Proof.
  destruct (process_block_steady_gain test_dsp
              (mkProject group_tracks 0%nat BOUNCE_OFF 0)
              test_control_room (mkTimeInfo 0 4) 0
              (Fader.mk Fader.AudioChannel
                 Fader.MIDI_FADER_MODE_VEL_MULTIPLIER false (Some 3%nat)
                 (1 # 2) (1 # 2) false true false false false 0 0 false
                 false)
              ones_ports (Some (3%nat, other_C)) eq_refl
              ltac:(discriminate) eq_refl eq_refl eq_refl eq_refl
              ltac:(simpl; lia) eq_refl eq_refl eq_refl)
    as (ports' & Hrun & Hout).
  exists ports'. split; [exact Hrun|].
  exact (proj1 (Hout 1%nat 1%Q 1%Q 0%Q 0%Q ltac:(simpl; lia)
                  eq_refl eq_refl eq_refl eq_refl)).
Defined.

(** X5.  The muted state once the fade-out is over ([fading_out_] still
    set, no fade-out samples left): the fader is left as it was and, with
    mono compatibility and phase swap off, every output sample of the block
    is the input sample times the amp of the control room's mute fader,
    then times amp and pan gain, hard-limited where the fader has a hard
    limit.  The block is not filled with the denormal-prevention value. *)
Theorem process_block_steady_muted
    (c : Dsp) (p : Project) (cr : ControlRoom)
    (time_nfo : EngineProcessTimeInfo) (fuel : nat)
    (f : Fader.t) (ports : Ports) (track : option (TrackId * Track)) :
  Fader.has_audio_ports f = true ->
  Fader.type_ f <> Fader.Monitor ->
  Fader.passthrough_ f = false ->
  block_track p f = Some track ->
  effectively_muted fuel p f track = Some true ->
  Fader.was_effectively_muted_ f = true ->
  Fader.fade_in_samples_ f <= 0 ->
  Fader.fading_out_ f = true ->
  Fader.fade_out_samples_ f = 0 ->
  Fader.mono_compat_enabled f = false ->
  Fader.swap_phase f = false ->
  exists ports',
    process_block c p cr time_nfo fuel f ports = Some (f, ports')
    /\ forall i xl xr yl yr,
         (i < nframes_ time_nfo)%nat ->
         (stereo_in ports).1 !! (local_offset_ time_nfo + i)%nat = Some xl ->
         (stereo_in ports).2 !! (local_offset_ time_nfo + i)%nat = Some xr ->
         (stereo_out ports).1 !! (local_offset_ time_nfo + i)%nat = Some yl ->
         (stereo_out ports).2 !! (local_offset_ time_nfo + i)%nat = Some yr ->
         (stereo_out ports').1 !! (local_offset_ time_nfo + i)%nat
         = Some (after_fade f track
                   (calculate_balance_control c (Fader.balance f)).1
                   (xl * mute_fader_amp cr)%Q)
         /\ (stereo_out ports').2 !! (local_offset_ time_nfo + i)%nat
            = Some (after_fade f track
                      (calculate_balance_control c (Fader.balance f)).2
                      (xr * mute_fader_amp cr)%Q).
Proof.
  intros Haud Hty Hpt Htrack Hem Hwas Hfi Hfg Hfo Hmono Hphase.
  unfold process_block. rewrite Htrack, Hem, Haud, Hpt.
  unfold process_audio. rewrite (bool_decide_eq_false_2 _ Hty).
  unfold arm_fades. rewrite Hwas. cbn [negb andb].
  unfold handle_fade_in. rewrite (proj2 (Z.ltb_ge 0 _)) by lia.
  unfold handle_fade_out. rewrite Hfg, Hfo.
  cbv zeta. cbn [Z.ltb Z.eqb Z.compare]. cbv iota.
  replace (Z.to_nat (Z.max 0 (Z.min 0 (Z.of_nat (nframes_ time_nfo)))))
    with 0%nat by lia.
  rewrite Nat.sub_0_r, Nat.add_0_r, Nat.add_0_l.
  destruct (0 <? nframes_ time_nfo)%nat eqn:Hn.
  - unfold apply_mute_level. rewrite Hfo, Nat.sub_diag.
    change (0 <? 0)%nat with false. rewrite andb_false_r.
    eexists. split.
    { rewrite <- Hwas at 1. rewrite set_was_effectively_muted_same.
      reflexivity. }
    cbn [stereo_out set_stereo_out].
    intros i xl xr yl yr Hi Hxl Hxr Hyl Hyr.
    destruct (copy_in_to_out_lookup time_nfo ports i xl xr yl yr
                Hi Hxl Hxr Hyl Hyr) as [Hl Hr].
    apply gain_and_limit_lookup; try assumption; cbn [fst snd];
      unfold mul_k2; rewrite on_range_lookup, in_block_true by lia;
      [rewrite Hl|rewrite Hr]; reflexivity.
  - apply Nat.ltb_ge in Hn. eexists. split.
    { rewrite <- Hwas at 1. rewrite set_was_effectively_muted_same.
      reflexivity. }
    intros i xl xr yl yr Hi. lia.
Qed.

(** Track 3 of [group_solo] after its fade-out, with the mute fader of the
    control room at 1/4. *)
Lemma process_block_steady_muted_witness :
  exists ports',
    process_block test_dsp group_solo (mkControlRoom (1 # 4) 1 (1 # 10) false)
      (mkTimeInfo 0 4) 7
      (Fader.mk Fader.AudioChannel Fader.MIDI_FADER_MODE_VEL_MULTIPLIER
         false (Some 3%nat) 1 (1 # 2) false false false false false 0 0
         true true)
      ones_ports
    = Some (Fader.mk Fader.AudioChannel Fader.MIDI_FADER_MODE_VEL_MULTIPLIER
              false (Some 3%nat) 1 (1 # 2) false false false false false 0
              0 true true,
            ports')
    /\ (stereo_out ports').1 !! 3%nat
       = Some (1 * (1 # 4) * (1 * (linear_balance (1 # 2)).1))%Q.
Proof.
  destruct (process_block_steady_muted test_dsp group_solo
              (mkControlRoom (1 # 4) 1 (1 # 10) false) (mkTimeInfo 0 4) 7
              (Fader.mk Fader.AudioChannel
                 Fader.MIDI_FADER_MODE_VEL_MULTIPLIER false (Some 3%nat) 1
                 (1 # 2) false false false false false 0 0 true true)
              ones_ports (Some (3%nat, other_C)) eq_refl
              ltac:(discriminate) eq_refl eq_refl eq_refl eq_refl
              ltac:(simpl; lia) eq_refl eq_refl eq_refl eq_refl)
    as (ports' & Hrun & Hout).
  exists ports'. split; [exact Hrun|].
  exact (proj1 (Hout 3%nat 1%Q 1%Q 0%Q 0%Q ltac:(simpl; lia)
                  eq_refl eq_refl eq_refl eq_refl)).
Defined.

(** X6.  While [fading_out_] is set the fade-out accounts for every frame
    of the block: whatever it returns as [faded_out_frames], the later
    "apply mute level" step finds nothing left to do.  That step only runs
    for a fader whose [fading_out_] flag is clear. *)
Theorem fade_out_covers_block
    (p : Project) (time_nfo : EngineProcessTimeInfo) (d : Z) (mute_amp : Q)
    (em : bool) (f f' : Fader.t) (out out' out2 : list Q * list Q)
    (faded : nat) :
  Fader.fading_out_ f = true ->
  handle_fade_out time_nfo d mute_amp (f, out) = Go (f', out', faded) ->
  apply_mute_level p time_nfo em mute_amp faded f' out2 = out2.
Proof.
  intros Hfg. unfold handle_fade_out, apply_mute_level. rewrite Hfg.
  set (n := nframes_ time_nfo).
  set (stp := Z.max 0 (Z.min (Fader.fade_out_samples_ f) (Z.of_nat n))).
  assert (Hskip : forall f0 k,
    (Fader.fade_out_samples_ f0 =? 0) && (0 <? n - k)%nat = false ->
    (if em && (Fader.fade_out_samples_ f0 =? 0) && (0 <? n - k)%nat
     then if Qltb mute_amp (1 # 100000)
          then (fill out2.1 (local_offset_ time_nfo + k)
                  (denormal_prevention_val_ p) (n - k),
                fill out2.2 (local_offset_ time_nfo + k)
                  (denormal_prevention_val_ p) (n - k))
          else (mul_k2 out2.1 (local_offset_ time_nfo) mute_amp (n - k),
                mul_k2 out2.2 (local_offset_ time_nfo + k) mute_amp (n - k))
     else out2) = out2).
  { intros f0 k Hk. rewrite <- andb_assoc, Hk, andb_false_r. reflexivity. }
  destruct (Z.ltb_spec 0 (Fader.fade_out_samples_ f)) as [Hpos|Hneg].
  - destruct (negb _); [discriminate|].
    destruct (Z.eqb_spec (Fader.fade_out_samples_ f - stp) 0) as [Hz|Hz].
    + destruct (Nat.ltb_spec 0 (n - Z.to_nat stp)) as [Hrem|Hrem];
        intros [= <- <- <-]; apply Hskip;
        rewrite (proj2 (Nat.ltb_ge 0 _)) by (subst stp; lia);
        apply andb_false_r.
    + intros [= <- <- <-]. apply Hskip.
      rewrite fade_out_samples_set, (proj2 (Z.eqb_neq _ _) Hz).
      reflexivity.
  - destruct (Z.eqb_spec (Fader.fade_out_samples_ f) 0) as [Hz|Hz].
    + destruct (Nat.ltb_spec 0 (n - Z.to_nat stp)) as [Hrem|Hrem];
        intros [= <- <- <-]; apply Hskip;
        rewrite (proj2 (Nat.ltb_ge 0 _)) by (subst stp; lia);
        apply andb_false_r.
    + intros [= <- <- <-]. apply Hskip.
      rewrite (proj2 (Z.eqb_neq _ _) Hz). reflexivity.
Qed.

(** A muted fader with two fade-out samples left, on a block of four. *)
Lemma fade_out_covers_block_witness :
  exists f' out' faded,
    handle_fade_out (mkTimeInfo 0 4) 1024 0
      (Fader.mk Fader.AudioChannel Fader.MIDI_FADER_MODE_VEL_MULTIPLIER
         false (Some 3%nat) 1 (1 # 2) true false false false false 0 2 true
         true, ([1; 1; 1; 1]%Q, [1; 1; 1; 1]%Q))
    = Go (f', out', faded)
    /\ faded = 4%nat
    /\ Fader.fade_out_samples_ f' = 0
    /\ apply_mute_level quiet_project (mkTimeInfo 0 4) true 0 faded f'
         ([5; 5; 5; 5]%Q, [5; 5; 5; 5]%Q)
       = ([5; 5; 5; 5]%Q, [5; 5; 5; 5]%Q).
Proof.
  eexists _, _, _. split; [reflexivity|]. split; [reflexivity|].
  split; [reflexivity|].
  exact (fade_out_covers_block quiet_project (mkTimeInfo 0 4) 1024 0 true
           (Fader.mk Fader.AudioChannel Fader.MIDI_FADER_MODE_VEL_MULTIPLIER
              false (Some 3%nat) 1 (1 # 2) true false false false false 0 2
              true true)
           _ ([1; 1; 1; 1]%Q, [1; 1; 1; 1]%Q) _
           ([5; 5; 5; 5]%Q, [5; 5; 5; 5]%Q) 4%nat eq_refl eq_refl).
Defined.

End BlockPathFacts.

(** * Theorems: arming and checking the fades *)

Section BlockFadeFacts.

Import float_ranges Examples.

(** X7.  The block in which a non-monitor, non-passthrough audio fader
    stops being effectively muted: a fade-in of
    [FADER_DEFAULT_FADE_FRAMES_SHORT] = [N] frames is armed and this block
    consumes [nframes] of it, a fade-out that was going on is cancelled
    with its counter left where it was, and "not muted" is recorded. *)
Theorem unmute_arms_fade_in
    (c : Dsp) (p : Project) (cr : ControlRoom)
    (time_nfo : EngineProcessTimeInfo) (fuel : nat)
    (f : Fader.t) (ports : Ports) (track : option (TrackId * Track)) :
  let N := FADER_DEFAULT_FADE_FRAMES_SHORT c in
  0 < N ->
  Fader.has_audio_ports f = true ->
  Fader.type_ f <> Fader.Monitor ->
  Fader.passthrough_ f = false ->
  block_track p f = Some track ->
  Fader.was_effectively_muted_ f = true ->
  effectively_muted fuel p f track = Some false ->
  exists f' ports',
    process_block c p cr time_nfo fuel f ports = Some (f', ports')
    /\ Fader.fading_out_ f' = false
    /\ Fader.fade_in_samples_ f'
       = Z.max (N - Z.of_nat (nframes_ time_nfo)) 0
    /\ Fader.fade_out_samples_ f' = Fader.fade_out_samples_ f
    /\ Fader.was_effectively_muted_ f' = false.
Proof.
  intros N HN Haud Hty Hpt Htrack Hwas Hem.
  unfold process_block. rewrite Htrack, Hem, Haud, Hpt.
  unfold process_audio. rewrite (bool_decide_eq_false_2 _ Hty).
  rewrite (non_monitor_fade_frames c f Hty). fold N.
  unfold arm_fades. rewrite Hwas. cbn [negb andb].
  destruct f as [ty mm pt tr am ba mu so li mc sp fi fo fg wm].
  cbn [Fader.set_fading_out Fader.set_fade_in_samples].
  unfold handle_fade_in. cbn [Fader.fade_in_samples_].
  rewrite (proj2 (Z.ltb_lt 0 N)) by lia.
  rewrite (proj2 (Z.geb_le N N)) by lia. cbn [negb].
  cbn [Fader.set_fade_in_samples].
  unfold handle_fade_out. cbn [Fader.fading_out_].
  eexists _, _. split; [reflexivity|]. cbn. auto.
Qed.

(** Track 3 of a project without a solo, muted in the previous block and
    half way through its fade-out. *)
Lemma unmute_arms_fade_in_witness :
  0 < FADER_DEFAULT_FADE_FRAMES_SHORT test_dsp
  /\ exists f' ports',
       process_block test_dsp (mkProject group_tracks 0%nat BOUNCE_OFF 0)
         test_control_room (mkTimeInfo 0 4) 0
         (Fader.mk Fader.AudioChannel Fader.MIDI_FADER_MODE_VEL_MULTIPLIER
            false (Some 3%nat) 1 (1 # 2) false true false false false 0 512
            true true)
         ones_ports = Some (f', ports')
       /\ Fader.fading_out_ f' = false
       /\ Fader.fade_in_samples_ f' = 1020
       /\ Fader.fade_out_samples_ f' = 512.
Proof.
  split; [reflexivity|].
  destruct (unmute_arms_fade_in test_dsp
              (mkProject group_tracks 0%nat BOUNCE_OFF 0)
              test_control_room (mkTimeInfo 0 4) 0
              (Fader.mk Fader.AudioChannel
                 Fader.MIDI_FADER_MODE_VEL_MULTIPLIER false (Some 3%nat) 1
                 (1 # 2) false true false false false 0 512 true true)
              ones_ports (Some (3%nat, other_C)) eq_refl eq_refl
              ltac:(discriminate) eq_refl eq_refl eq_refl eq_refl)
    as (f' & ports' & Hrun & Hfg & Hfi & Hfo & _).
  exists f', ports'. split; [exact Hrun|]. split; [exact Hfg|].
  split; [exact Hfi|exact Hfo].
Defined.

(** X8.  A fade counter above the fade length stops the block at the
    check in front of the fade ([z_return_if_fail_cmp]): for a non-monitor,
    non-passthrough audio fader whose mute state did not change, the output
    holds the plain copy of the input, without gain, mute or hard limit, and
    no member of the fader is written, not even [was_effectively_muted_].
    The counter therefore stays where it is, and with it the exit. *)
Theorem process_block_fade_counter_exit
    (c : Dsp) (p : Project) (cr : ControlRoom)
    (time_nfo : EngineProcessTimeInfo) (fuel : nat)
    (f : Fader.t) (ports : Ports) (track : option (TrackId * Track))
    (em : bool) :
  Fader.has_audio_ports f = true ->
  Fader.type_ f <> Fader.Monitor ->
  Fader.passthrough_ f = false ->
  block_track p f = Some track ->
  effectively_muted fuel p f track = Some em ->
  Fader.was_effectively_muted_ f = em ->
  (0 < Fader.fade_in_samples_ f
   /\ FADER_DEFAULT_FADE_FRAMES_SHORT c < Fader.fade_in_samples_ f)
  \/ (Fader.fade_in_samples_ f <= 0 /\ Fader.fading_out_ f = true
      /\ 0 < Fader.fade_out_samples_ f
      /\ FADER_DEFAULT_FADE_FRAMES_SHORT c < Fader.fade_out_samples_ f) ->
  process_block c p cr time_nfo fuel f ports
  = Some (f, set_stereo_out ports (copy_in_to_out time_nfo ports)).
Proof.
  intros Haud Hty Hpt Htrack Hem Hwas Hbad.
  unfold process_block. rewrite Htrack, Hem, Haud, Hpt.
  unfold process_audio. rewrite (bool_decide_eq_false_2 _ Hty).
  rewrite (non_monitor_fade_frames c f Hty).
  assert (Harm : forall d, arm_fades d em f = f).
  { intros d. unfold arm_fades. rewrite Hwas. destruct em; reflexivity. }
  rewrite Harm. unfold handle_fade_in.
  destruct Hbad as [[Hpos Hgt]|(Hfi & Hfg & Hpos & Hgt)].
  - rewrite (proj2 (Z.ltb_lt 0 _)) by lia.
    destruct (Z.geb_spec (FADER_DEFAULT_FADE_FRAMES_SHORT c)
                (Fader.fade_in_samples_ f)); [lia|].
    reflexivity.
  - rewrite (proj2 (Z.ltb_ge 0 _)) by lia.
    unfold handle_fade_out. rewrite Hfg.
    rewrite (proj2 (Z.ltb_lt 0 _)) by lia.
    destruct (Z.geb_spec (FADER_DEFAULT_FADE_FRAMES_SHORT c)
                (Fader.fade_out_samples_ f)); [lia|].
    reflexivity.
Qed.

(** A fade-in counter of 2000 against a fade length of 1024. *)
Lemma process_block_fade_counter_exit_witness :
  process_block test_dsp (mkProject group_tracks 0%nat BOUNCE_OFF 0)
    test_control_room (mkTimeInfo 0 4) 0
    (Fader.mk Fader.AudioChannel Fader.MIDI_FADER_MODE_VEL_MULTIPLIER
       false (Some 3%nat) (1 # 2) (1 # 2) false true false false false
       2000 0 false false)
    ones_ports
  = Some (Fader.mk Fader.AudioChannel Fader.MIDI_FADER_MODE_VEL_MULTIPLIER
            false (Some 3%nat) (1 # 2) (1 # 2) false true false false false
            2000 0 false false,
          mkPorts ([1; 1; 1; 1]%Q, [1; 1; 1; 1]%Q)
                  ([1; 1; 1; 1]%Q, [1; 1; 1; 1]%Q) [] []).
Proof.
  exact (process_block_fade_counter_exit test_dsp
           (mkProject group_tracks 0%nat BOUNCE_OFF 0)
           test_control_room (mkTimeInfo 0 4) 0
           (Fader.mk Fader.AudioChannel
              Fader.MIDI_FADER_MODE_VEL_MULTIPLIER false (Some 3%nat)
              (1 # 2) (1 # 2) false true false false false 2000 0 false
              false)
           ones_ports (Some (3%nat, other_C)) false eq_refl
           ltac:(discriminate) eq_refl eq_refl eq_refl eq_refl
           ltac:(left; simpl; lia)).
Defined.

End BlockFadeFacts.

(** * Theorems: solo and mute without a soloed track *)

Section SoloFacts.

Import Examples.

Lemma has_soloed_intro (tl : Tracklist) id t :
  tl !! id = Some t -> track_get_soloed t = true -> has_soloed tl = true.
Proof.
  intros Hid Hs. unfold has_soloed. apply bool_decide_eq_true_2.
  exists id, t. auto.
Qed.

Lemma soloed_ancestor_has_soloed (tl : Tracklist) tid t :
  soloed_ancestor tl tid t -> has_soloed tl = true.
Proof.
  induction 1 as [tid t oid o _ Hout Hs|tid t oid o _ _ _ IH]; [|exact IH].
  apply get_output_track_registered in Hout as [_ Ho].
  exact (has_soloed_intro tl oid o Ho Hs).
Qed.

(** X9.  Implied solo needs a solo: whatever the routing (cycles
    included) and the fuel, [get_implied_soloed] answers true only in a
    tracklist in which some track is soloed. *)
Theorem implied_soloed_needs_solo (fuel : nat) (tl : Tracklist) (f : Fader.t) :
  get_implied_soloed fuel tl f = Some true -> has_soloed tl = true.
Proof.
  revert f. induction fuel as [|k IH]; intros f; [discriminate|].
  cbn [get_implied_soloed].
  destruct (negb _ || _ || _); [discriminate|].
  destruct (Fader.track_ f) as [tid|]; [|discriminate].
  destruct (tl !! tid) as [t|]; [|discriminate].
  destruct (parents_soloed (S k) tl tid t) as [[|]|] eqn:Hp; [| |discriminate].
  - intros _. apply (soloed_ancestor_has_soloed tl tid t).
    apply (parents_soloed_spec tl (S k) tid t true Hp). reflexivity.
  - destruct (can_be_group_target t); [|discriminate].
    intros Hc.
    destruct (proj1 (children_soloed_spec tl _ _ true Hc) eq_refl)
      as (cid & ct & _ & Hct & [Hs|Himp]).
    + exact (has_soloed_intro tl cid ct Hct Hs).
    + exact (IH _ Himp).
Qed.

(** Track 2 of [group_tracks] routes into the soloed group. *)
Lemma implied_soloed_needs_solo_witness :
  get_implied_soloed 7 group_tracks (fader_ child_B) = Some true
  /\ has_soloed group_tracks = true.
Proof.
  split; [reflexivity|].
  exact (implied_soloed_needs_solo 7 group_tracks (fader_ child_B) eq_refl).
Defined.

(** X10.  Outside a bounce, the solo clause can only mute an unsoloed
    channel fader in a project with a soloed track.  For every other fader
    the effective mute is its own mute control (and never set for a
    passthrough fader), and the implied-solo walk is not even started: the
    answer is there with no fuel at all. *)
Theorem effectively_muted_without_solo
    (fuel : nat) (p : Project) (f : Fader.t)
    (track : option (TrackId * Track)) :
  bounce_mode_ p <> BOUNCE_ON ->
  has_soloed (TRACKLIST p) = false \/ Fader.get_soloed f = true
  \/ Fader.is_channel_type (Fader.type_ f) = false ->
  effectively_muted fuel p f track
  = Some (negb (Fader.passthrough_ f) && Fader.get_muted f).
Proof.
  intros Hb Hno. unfold effectively_muted.
  destruct (Fader.passthrough_ f); [reflexivity|].
  destruct (Fader.get_muted f); [reflexivity|].
  rewrite (bool_decide_eq_false_2 _ Hb).
  assert (Hcond : Fader.is_channel_type (Fader.type_ f)
                  && has_soloed (TRACKLIST p) && negb (Fader.get_soloed f)
                  = false).
  { destruct Hno as [->|[->| ->]]; [|apply andb_false_r|reflexivity].
    rewrite andb_false_r. reflexivity. }
  rewrite Hcond. reflexivity.
Qed.

(** The soloed group of [group_solo], queried without fuel. *)
Lemma effectively_muted_without_solo_witness :
  has_soloed (TRACKLIST group_solo) = true
  /\ effectively_muted 0 group_solo (fader_ group_A) (Some (1%nat, group_A))
     = Some false.
Proof.
  split; [reflexivity|].
  exact (effectively_muted_without_solo 0 group_solo (fader_ group_A)
           (Some (1%nat, group_A)) ltac:(discriminate)
           ltac:(right; left; reflexivity)).
Defined.

End SoloFacts.

(** * Theorems: the region and the point in front of a position *)

Module AutomationTrackRegionFacts.

Import AutomationTrack AutomationTrackNotions.

Lemma first_region_around_spec pos rs :
  match first_region_around pos rs with
  | Some r => exists l1 l2, rs = l1 ++ r :: l2 /\ around pos r
                /\ Forall (fun r' => ~ around pos r') l1
  | None => Forall (fun r' => ~ around pos r') rs
  end.
Proof.
  induction rs as [|region rest IH]; cbn [first_region_around].
  - constructor.
  - destruct (Z.leb_spec (pos_frames region) pos) as [H1|H1]; cbn [andb].
    + rewrite Z.geb_leb.
      destruct (Z.leb_spec pos (end_pos_frames region)) as [H2|H2].
      * exists [], rest. split; [reflexivity|]. split; [split; assumption|].
        constructor.
      * assert (Hno : ~ around pos region) by (unfold around; lia).
        destruct (first_region_around pos rest) as [r|].
        -- destruct IH as (l1 & l2 & -> & Hr & Hl1).
           exists (region :: l1), l2. split; [reflexivity|].
           split; [exact Hr|]. constructor; assumption.
        -- constructor; assumption.
    + assert (Hno : ~ around pos region) by (unfold around; lia).
      destruct (first_region_around pos rest) as [r|].
      * destruct IH as (l1 & l2 & -> & Hr & Hl1).
        exists (region :: l1), l2. split; [reflexivity|].
        split; [exact Hr|]. constructor; assumption.
      * constructor; assumption.
Qed.

(** X11.  With [ends_after] set, [get_region_before_pos] returns the last
    region of the list (of the snapshots, if asked) that contains the
    position, both ends included, and null exactly when no region contains
    it. *)
Theorem get_region_before_pos_around
    (at_ : t) (pos : Z) (use_snapshots : bool) :
  match get_region_before_pos at_ pos true use_snapshots with
  | Some r =>
      exists before after,
        regions_of at_ use_snapshots = before ++ r :: after
        /\ around pos r
        /\ Forall (fun r' => ~ around pos r') after
  | None => Forall (fun r' => ~ around pos r') (regions_of at_ use_snapshots)
  end.
Proof.
  unfold get_region_before_pos. fold (regions_of at_ use_snapshots).
  pose proof (first_region_around_spec pos
                (reverse (regions_of at_ use_snapshots))) as H.
  destruct (first_region_around pos (reverse (regions_of at_ use_snapshots)))
    as [r|].
  - destruct H as (l1 & l2 & Heq & Hr & Hl1).
    exists (reverse l2), (reverse l1). split.
    + rewrite <- (reverse_involutive (regions_of at_ use_snapshots)), Heq.
      rewrite reverse_app, reverse_cons, <- app_assoc. reflexivity.
    + split; [exact Hr|]. apply Forall_reverse. exact Hl1.
  - apply Forall_reverse in H. rewrite reverse_involutive in H. exact H.
Qed.

Lemma latest_region_step_inv pos seen acc region :
  latest_region_inv pos seen acc ->
  latest_region_inv pos (seen ++ [region]) (latest_region_step pos acc region).
Proof.
  destruct acc as [latest_r latest_distance].
  unfold latest_region_inv, latest_region_step. cbn [fst snd].
  intros [Hacc Hmax].
  destruct (Z.leb_spec (pos_frames region) pos) as [H1|H1]; cbn [andb].
  - rewrite Z.gtb_ltb.
    destruct (Z.ltb_spec latest_distance (end_pos_frames region - pos))
      as [H2|H2]; cbn [fst snd].
    + split.
      * split; [apply elem_of_app; right; apply list_elem_of_singleton;
                reflexivity|].
        split; [exact H1|reflexivity].
      * intros r' Hr' Hstart. apply elem_of_app in Hr' as [Hr'|Hr'].
        -- specialize (Hmax r' Hr' Hstart). lia.
        -- apply list_elem_of_singleton in Hr' as ->. lia.
    + split.
      * destruct latest_r as [r|]; [|exact Hacc].
        destruct Hacc as (Hin & Hs & Hd).
        split; [apply elem_of_app; left; exact Hin|]. split; assumption.
      * intros r' Hr' Hstart. apply elem_of_app in Hr' as [Hr'|Hr'].
        -- exact (Hmax r' Hr' Hstart).
        -- apply list_elem_of_singleton in Hr' as ->. exact H2.
  - split.
    + destruct latest_r as [r|]; [|exact Hacc].
      destruct Hacc as (Hin & Hs & Hd).
      split; [apply elem_of_app; left; exact Hin|]. split; assumption.
    + intros r' Hr' Hstart. apply elem_of_app in Hr' as [Hr'|Hr'].
      * exact (Hmax r' Hr' Hstart).
      * apply list_elem_of_singleton in Hr' as ->. lia.
Qed.

Lemma foldl_latest_region_inv pos rs :
  forall seen acc,
    latest_region_inv pos seen acc ->
    latest_region_inv pos (seen ++ rs) (foldl (latest_region_step pos) acc rs).
Proof.
  induction rs as [|region rest IH]; intros seen acc Hinv; cbn [foldl].
  - rewrite app_nil_r. exact Hinv.
  - replace (seen ++ region :: rest) with ((seen ++ [region]) ++ rest)
      by (rewrite <- app_assoc; reflexivity).
    apply IH, latest_region_step_inv, Hinv.
Qed.

(** X12.  Without [ends_after], [get_region_before_pos] returns a region
    that starts at or before the position and ends latest among the
    regions that do; it returns null only if every region that starts at or
    before the position ends [SIGNED_FRAME_MIN] frames or more before it. *)
Theorem get_region_before_pos_latest
    (at_ : t) (pos : Z) (use_snapshots : bool) :
  match get_region_before_pos at_ pos false use_snapshots with
  | Some r =>
      r ∈ regions_of at_ use_snapshots /\ pos_frames r <= pos
      /\ forall r', r' ∈ regions_of at_ use_snapshots ->
                    pos_frames r' <= pos ->
                    end_pos_frames r' <= end_pos_frames r
  | None =>
      forall r', r' ∈ regions_of at_ use_snapshots -> pos_frames r' <= pos ->
                 end_pos_frames r' - pos <= SIGNED_FRAME_MIN
  end.
Proof.
  unfold get_region_before_pos. fold (regions_of at_ use_snapshots).
  pose proof (foldl_latest_region_inv pos
                (reverse (regions_of at_ use_snapshots)) []
                (None, SIGNED_FRAME_MIN)) as H.
  cbn [app] in H.
  destruct H as [Hacc Hmax].
  { split; [reflexivity|]. intros r' Hr'. inversion Hr'. }
  destruct (foldl (latest_region_step pos) (None, SIGNED_FRAME_MIN)
              (reverse (regions_of at_ use_snapshots)))
    as [latest_r latest_distance].
  cbn [fst snd] in *.
  destruct latest_r as [r|].
  - destruct Hacc as (Hin & Hs & Hd).
    split; [apply elem_of_reverse; exact Hin|]. split; [exact Hs|].
    intros r' Hr' Hstart.
    apply elem_of_reverse in Hr'. specialize (Hmax r' Hr' Hstart). lia.
  - intros r' Hr' Hstart. apply elem_of_reverse in Hr'.
    specialize (Hmax r' Hr' Hstart). lia.
Qed.

Lemma first_ap_at_or_before_spec local_pos aps :
  match first_ap_at_or_before local_pos aps with
  | Some ap => exists l1 l2, aps = l1 ++ ap :: l2
                 /\ ap_frames ap <= local_pos
                 /\ Forall (fun a => local_pos < ap_frames a) l1
  | None => Forall (fun a => local_pos < ap_frames a) aps
  end.
Proof.
  induction aps as [|a rest IH]; cbn [first_ap_at_or_before].
  - constructor.
  - destruct (Z.leb_spec (ap_frames a) local_pos) as [H|H].
    + exists [], rest. split; [reflexivity|]. split; [exact H|constructor].
    + destruct (first_ap_at_or_before local_pos rest) as [ap|].
      * destruct IH as (l1 & l2 & -> & Hap & Hl1).
        exists (a :: l1), l2. split; [reflexivity|].
        split; [exact Hap|constructor; assumption].
      * constructor; assumption.
Qed.

(** X13.  [get_ap_before_pos] returns the last point of the governing
    region that lies at or before the local position: every point after it
    in the region's list lies behind the position.  It returns null exactly
    when there is no governing region, the region is muted, or all its
    points lie behind the position. *)
Theorem get_ap_before_pos_last_before
    (ops : RegionOps) (at_ : t) (pos : Z) (ends_after use_snapshots : bool) :
  match get_ap_before_pos ops at_ pos ends_after use_snapshots with
  | Some ap =>
      exists r earlier later,
        get_region_before_pos at_ pos ends_after use_snapshots = Some r
        /\ muted r = false
        /\ aps_ r = earlier ++ ap :: later
        /\ ap_frames ap <= local_pos_in ops r pos ends_after
        /\ Forall (fun a => local_pos_in ops r pos ends_after < ap_frames a)
             later
  | None =>
      match get_region_before_pos at_ pos ends_after use_snapshots with
      | None => True
      | Some r =>
          muted r = true
          \/ Forall (fun a => local_pos_in ops r pos ends_after < ap_frames a)
               (aps_ r)
      end
  end.
Proof.
  unfold get_ap_before_pos.
  destruct (get_region_before_pos at_ pos ends_after use_snapshots) as [r|];
    [|exact I].
  destruct (muted r) eqn:Hm; [left; reflexivity|].
  pose proof (first_ap_at_or_before_spec (local_pos_in ops r pos ends_after)
                (reverse (aps_ r))) as H.
  destruct (first_ap_at_or_before (local_pos_in ops r pos ends_after)
              (reverse (aps_ r))) as [ap|].
  - destruct H as (l1 & l2 & Heq & Hap & Hl1).
    exists r, (reverse l2), (reverse l1).
    split; [reflexivity|]. split; [exact Hm|]. split.
    + rewrite <- (reverse_involutive (aps_ r)), Heq.
      rewrite reverse_app, reverse_cons, <- app_assoc. reflexivity.
    + split; [exact Hap|]. apply Forall_reverse. exact Hl1.
  - right. apply Forall_reverse in H. rewrite reverse_involutive in H.
    exact H.
Qed.

End AutomationTrackRegionFacts.

(** * Theorems: the value of an automation track at a position *)

Module AutomationTrackValueFacts.

Import AutomationTrack.

Lemma Qabs_diff_le (a b : Q) : (a <= b)%Q -> (Qabs (a - b) == b - a)%Q.
Proof.
  intros H. rewrite Qabs_neg by lra. ring.
Qed.

Lemma Qabs_diff_ge (a b : Q) : (b <= a)%Q -> (Qabs (a - b) == a - b)%Q.
Proof.
  intros H. rewrite Qabs_pos by lra. reflexivity.
Qed.

Lemma Qle_bool_false_lt (a b : Q) : Qle_bool a b = false -> (b < a)%Q.
Proof.
  intros H. apply Qnot_le_lt. intros Hle.
  apply Qle_bool_iff in Hle. congruence.
Qed.

(** X14.  Between two points the normalized value never leaves the range
    of the two point values by more than [1e-6], the room that the rounding
    of the [float] operations takes: when [get_val_at_pos] finds the point
    [ap] with a next point that is not before the local position, the
    normalized values of both lie in [[0, 1]] and the curve maps [[0, 1]]
    into [[0, 1]], the value lies between the smaller of the two normalized
    values less [1e-6] and the larger plus [1e-6]. *)
Theorem get_val_at_pos_between_points
    (ops : RegionOps) (at_ : t) (pos : Z) (ends_after use_snapshots : bool)
    (port_ : ControlPort) (region : AutomationRegion)
    (ap next_ap : AutomationPoint) :
  curve_ok ops ->
  port at_ = Some port_ ->
  get_region_before_pos at_ pos ends_after use_snapshots = Some region ->
  get_ap_before_pos ops at_ pos ends_after use_snapshots = Some ap ->
  get_next_ap ops region ap = Some next_ap ->
  local_pos_in ops region pos ends_after <= ap_frames next_ap ->
  (0 <= normalized_val_ ap)%Q -> (normalized_val_ ap <= 1)%Q ->
  (0 <= normalized_val_ next_ap)%Q -> (normalized_val_ next_ap <= 1)%Q ->
  (Qmin (normalized_val_ ap) (normalized_val_ next_ap) - (1 # 1000000)
   <= get_val_at_pos ops at_ pos true ends_after use_snapshots)%Q
  /\ (get_val_at_pos ops at_ pos true ends_after use_snapshots
      <= Qmax (normalized_val_ ap) (normalized_val_ next_ap)
         + (1 # 1000000))%Q.
Proof.
  intros Hcurve Hport Hregion Hap Hnext Hle Ha0 Ha1 Hb0 Hb1.
  assert (Hbefore : ap_frames ap <= local_pos_in ops region pos ends_after).
  { unfold get_ap_before_pos in Hap. rewrite Hregion in Hap.
    destruct (muted region); [discriminate|].
    eapply AutomationTrackFacts.first_ap_at_or_before_le. exact Hap. }
  unfold get_val_at_pos. rewrite Hport, Hap, Hregion, Hnext.
  set (localp := local_pos_in ops region pos ends_after) in *.
  set (numerator := localp - ap_frames ap).
  set (denominator := ap_frames next_ap - ap_frames ap).
  set (ratio :=
         if numerator =? 0 then 0%Q
         else if denominator =? 0 then 1%Q
              else Float.float64
                     (inject_Z numerator / inject_Z denominator)).
  assert (Hratio : (0 <= ratio)%Q /\ (ratio <= 1)%Q).
  { destruct (AutomationTrackFacts.code_ratio_clamped localp ap next_ap
                Hbefore Hle) as (_ & H0 & H1).
    split; [exact H0|exact H1]. }
  destruct Hratio as [Hr0 Hr1].
  rewrite (proj2 (Qle_bool_iff 0 ratio) Hr0). cbn [negb]. cbv zeta.
  destruct (curve_in_01 ops Hcurve ap region ratio Hr0 Hr1) as [Hc0 Hc1].
  set (cv := get_normalized_value_in_curve ops ap region ratio) in *.
  pose proof (AutomationTrackFacts.interpolation_error cv _ _
                Ha0 Ha1 Hb0 Hb1 Hc0 Hc1) as Herr.
  destruct (AutomationTrackFacts.claimed_interpolation_range cv ap next_ap
              Hc0 Hc1) as [Hlo Hhi].
  unfold claimed_interpolation in Hlo, Hhi.
  unfold rounded_interpolation in Herr. cbv zeta in Herr.
  apply Qabs_Qle_condition in Herr. destruct Herr as [He1 He2].
  destruct (Qle_bool (normalized_val_ ap) (normalized_val_ next_ap));
    split; lra.
Qed.

(** The ramp from 0 at frame 0 to 1 at frame 1000, asked at frame 250. *)
Lemma get_val_at_pos_between_points_witness :
  get_ap_before_pos test_ops ramp_track 250 false false = Some ap_0
  /\ (Qmin (normalized_val_ ap_0) (normalized_val_ ap_1000) - (1 # 1000000)
      <= get_val_at_pos test_ops ramp_track 250 true false false)%Q
  /\ (get_val_at_pos test_ops ramp_track 250 true false false
      <= Qmax (normalized_val_ ap_0) (normalized_val_ ap_1000)
         + (1 # 1000000))%Q.
Proof.
  split; [reflexivity|].
  exact (get_val_at_pos_between_points test_ops ramp_track 250 false false
           test_port ramp_region ap_0 ap_1000
           AutomationTrackFacts.test_curve_ok eq_refl eq_refl eq_refl
           eq_refl ltac:(vm_compute; discriminate)
           ltac:(vm_compute; discriminate) ltac:(vm_compute; discriminate)
           ltac:(vm_compute; discriminate) ltac:(vm_compute; discriminate)).
Defined.

(** X15.  A next point that lies before the point found (points out of
    order) makes the ratio negative as soon as the position is past the
    point: [get_val_at_pos] then leaves through its [ratio >= 0] check and
    returns 0, for normalized and real values alike, without asking the
    curve or the port. *)
Theorem get_val_at_pos_negative_ratio
    (ops : RegionOps) (at_ : t) (pos : Z)
    (normalized ends_after use_snapshots : bool)
    (port_ : ControlPort) (region : AutomationRegion)
    (ap next_ap : AutomationPoint) :
  port at_ = Some port_ ->
  get_region_before_pos at_ pos ends_after use_snapshots = Some region ->
  get_ap_before_pos ops at_ pos ends_after use_snapshots = Some ap ->
  get_next_ap ops region ap = Some next_ap ->
  ap_frames next_ap < ap_frames ap ->
  ap_frames ap < local_pos_in ops region pos ends_after ->
  get_val_at_pos ops at_ pos normalized ends_after use_snapshots = 0%Q.
Proof.
  intros Hport Hregion Hap Hnext Hord Hpast.
  unfold get_val_at_pos. rewrite Hport, Hap, Hregion, Hnext.
  set (localp := local_pos_in ops region pos ends_after) in *.
  destruct (Z.eqb_spec (localp - ap_frames ap) 0) as [Hz|_]; [lia|].
  destruct (Z.eqb_spec (ap_frames next_ap - ap_frames ap) 0) as [Hz|_];
    [lia|].
  assert (Hquot : (inject_Z (localp - ap_frames ap)
                   / inject_Z (ap_frames next_ap - ap_frames ap) < 0)%Q).
  { apply Qnot_le_lt. intros Hle.
    assert (Hden : (inject_Z (ap_frames next_ap - ap_frames ap) < 0)%Q).
    { change (inject_Z (ap_frames next_ap - ap_frames ap) < inject_Z 0)%Q.
      rewrite <- Zlt_Qlt. lia. }
    assert (Hnum : (0 < inject_Z (localp - ap_frames ap))%Q).
    { change (inject_Z 0 < inject_Z (localp - ap_frames ap))%Q.
      rewrite <- Zlt_Qlt. lia. }
    assert (Hnz : ~ (inject_Z (ap_frames next_ap - ap_frames ap) == 0)%Q)
      by lra.
    pose proof (Qmult_div_r
                  (inject_Z (localp - ap_frames ap))
                  (inject_Z (ap_frames next_ap - ap_frames ap)) Hnz) as Hmd.
    nra. }
  assert (Hneg : Qle_bool 0
                   (Float.float64
                      (inject_Z (localp - ap_frames ap)
                       / inject_Z (ap_frames next_ap - ap_frames ap)))
                 = false).
  { destruct (Qle_bool 0 _) eqn:Hle; [|reflexivity].
    apply Qle_bool_iff in Hle. exfalso.
    pose proof (FloatFacts.float64_neg _ Hquot) as H. lra. }
  rewrite Hneg. reflexivity.
Qed.

(** A region whose last point carries a stale index, so that the point
    looked up as its successor is the one at frame 400. *)
Lemma get_val_at_pos_negative_ratio_witness :
  get_val_at_pos test_ops
    (mk (Some test_port)
        [mkRegion 0 2000 false
           [mkAp 0 0 0 0; mkAp 400 0 0 1; mkAp 1000 1 1 0]] [])
    1500 false false false = 0%Q.
Proof.
  exact (get_val_at_pos_negative_ratio test_ops
           (mk (Some test_port)
               [mkRegion 0 2000 false
                  [mkAp 0 0 0 0; mkAp 400 0 0 1; mkAp 1000 1 1 0]] [])
           1500 false false false test_port
           (mkRegion 0 2000 false
              [mkAp 0 0 0 0; mkAp 400 0 0 1; mkAp 1000 1 1 0])
           (mkAp 1000 1 1 0) (mkAp 400 0 0 1)
           eq_refl eq_refl eq_refl eq_refl
           ltac:(simpl; lia) ltac:(vm_compute; reflexivity)).
Defined.

(** X16.  Where no region governs the position, or the governing region
    is muted, [get_val_at_pos] returns the current value of the port, in
    the representation asked for; with the last point of a region found, it
    returns the value stored in that point and leaves the curve alone. *)
Theorem get_val_at_pos_without_curve
    (ops : RegionOps) (at_ : t) (pos : Z)
    (normalized ends_after use_snapshots : bool) (port_ : ControlPort) :
  port at_ = Some port_ ->
  match get_region_before_pos at_ pos ends_after use_snapshots with
  | None =>
      get_val_at_pos ops at_ pos normalized ends_after use_snapshots
      = get_control_value port_ normalized
  | Some r =>
      (muted r = true ->
       get_val_at_pos ops at_ pos normalized ends_after use_snapshots
       = get_control_value port_ normalized)
      /\ forall ap,
           get_ap_before_pos ops at_ pos ends_after use_snapshots = Some ap ->
           get_next_ap ops r ap = None ->
           get_val_at_pos ops at_ pos normalized ends_after use_snapshots
           = if normalized then normalized_val_ ap else fvalue_ ap
  end.
Proof.
  intros Hport. unfold get_val_at_pos, get_ap_before_pos. rewrite Hport.
  destruct (get_region_before_pos at_ pos ends_after use_snapshots) as [r|];
    [|reflexivity].
  split.
  - intros ->. reflexivity.
  - intros ap Hap Hnext. rewrite Hap, Hnext. reflexivity.
Qed.

(** The muted ramp gives the port's 9/10; the ramp past its last point
    gives that point's 1. *)
Lemma get_val_at_pos_without_curve_witness :
  get_val_at_pos test_ops muted_ramp_track 500 true false false = (9 # 10)%Q
  /\ get_val_at_pos test_ops ramp_track 1500 true false false = 1%Q.
Proof.
  split.
  - exact (proj1 (get_val_at_pos_without_curve test_ops muted_ramp_track 500
                    true false false test_port eq_refl) eq_refl).
  - exact (proj2 (get_val_at_pos_without_curve test_ops ramp_track 1500
                    true false false test_port eq_refl) ap_1000
             eq_refl eq_refl).
Defined.

End AutomationTrackValueFacts.

Module AutomationRecordingFacts.

Import AutomationRecording.

(** X17.  A track never reads its automation while it records: whenever
    [should_read_automation] holds, the mode is not off and
    [should_be_recording] is false for both values of [record_aps]; a track
    in record mode with latch never reads.  Asking with [record_aps] set
    never reports more recording than asking without. *)
Theorem should_read_automation_not_recording
    (AUTOMATION_RECORDING_TOUCH_REL_MS : Z) (at_ : t) (cur_time : Z) :
  (should_read_automation AUTOMATION_RECORDING_TOUCH_REL_MS at_ cur_time
   = true ->
   automation_mode_ at_ <> Off
   /\ (forall record_aps,
         should_be_recording AUTOMATION_RECORDING_TOUCH_REL_MS at_ cur_time
           record_aps = false)
   /\ ~ (automation_mode_ at_ = RecordMode /\ record_mode_ at_ = Latch))
  /\ (should_be_recording AUTOMATION_RECORDING_TOUCH_REL_MS at_ cur_time true
      = true ->
      should_be_recording AUTOMATION_RECORDING_TOUCH_REL_MS at_ cur_time false
      = true).
Proof.
  unfold should_read_automation, should_be_recording.
  destruct at_ as [mode rmode started last].
  cbn [automation_mode_ record_mode_ recording_started_ last_change_time_].
  set (b := cur_time - last <? AUTOMATION_RECORDING_TOUCH_REL_MS * 1000).
  clearbody b.
  destruct mode, rmode, b, started; cbv; split; intros H;
    try discriminate H; try reflexivity;
    (split; [intros H0; discriminate H0|]);
    (split; [intros []; reflexivity|]);
    intros [H1 H2]; try discriminate H1; discriminate H2.
Qed.

(** A track in touch mode, 600 ms after the last change with a release
    time of 500 ms, that has not started recording. *)
Lemma should_read_automation_not_recording_witness :
  should_read_automation 500 (mk RecordMode Touch false 0) 600000 = true
  /\ should_be_recording 500 (mk RecordMode Touch false 0) 600000 true
     = false
  /\ should_read_automation 500 (mk RecordMode Latch false 0) 600000 = false.
Proof.
  split; [reflexivity|]. split; [|reflexivity].
  exact (proj1 (proj2 (proj1 (should_read_automation_not_recording 500
                                (mk RecordMode Touch false 0) 600000)
                         eq_refl)) true).
Defined.

End AutomationRecordingFacts.

(** * Theorems: positions of arranger objects *)

Module ArrangerObjectOpsFacts.

Import ArrangerObject ArrangerObjectOps.

Lemma store_position_reads_back o pos_type pos o' :
  store_position o pos_type pos = Some o' ->
  kind o' = kind o
  /\ get_position_from_type o' pos_type = Some pos
  /\ forall other, other <> pos_type ->
       get_position_from_type o' other = get_position_from_type o other.
Proof.
  destruct o as [ty rt st en cs ls le fi fo cf].
  destruct pos_type, ty, rt; cbn; intros H; try discriminate H;
    injection H as <-; (split; [reflexivity|]); (split; [reflexivity|]);
    intros other Hother; destruct other; try congruence; reflexivity.
Qed.

(** X18.  A position that [set_position] accepts, validated or not, is
    the one [get_position_from_type] reads back for that position type; the
    positions of all other types read as before, and the object's type,
    region type and clip length are untouched.  A rejected call leaves the
    whole object as it was. *)
Theorem set_position_reads_back
    (o : t) (pos : option Position) (pos_type : PositionType)
    (validate : bool) (ok : bool) (o' : t) :
  set_position o pos pos_type validate = (ok, o') ->
  if ok then
    kind o' = kind o
    /\ get_position_from_type o' pos_type = pos
    /\ forall other, other <> pos_type ->
         get_position_from_type o' other = get_position_from_type o other
  else o' = o.
Proof.
  unfold set_position. destruct pos as [pos|]; [|intros [= <- <-]; reflexivity].
  destruct (validate && negb (is_position_valid o pos pos_type));
    [intros [= <- <-]; reflexivity|].
  destruct (store_position o pos_type pos) as [o1|] eqn:Hstore;
    intros [= <- <-]; [|reflexivity].
  exact (store_position_reads_back o pos_type pos o1 Hstore).
Qed.

(** Moving the loop end of a MIDI region from 100 to 80. *)
Lemma set_position_reads_back_witness :
  exists o',
    set_position midi_region_clip_50 (Some 80) LoopEnd true = (true, o')
    /\ get_position_from_type o' LoopEnd = Some 80
    /\ get_position_from_type o' End = Some 100.
Proof.
  eexists. split; [reflexivity|].
  destruct (set_position_reads_back midi_region_clip_50 (Some 80) LoopEnd
              true true _ eq_refl) as (_ & Hget & Hother).
  split; [exact Hget|].
  rewrite (Hother End) by discriminate. reflexivity.
Defined.

(** X19.  What [are_members_valid] checks is the start position alone:
    an object with a length is valid exactly when its start lies before
    its end, is not negative unless the object is owned by a region, and,
    for an object that can fade, its fade-in lies before its fade-out; an
    object without a length is valid unless it has a global position and
    that is negative.  Loop, clip-start and end-side constraints do not
    enter, nor does [is_project]. *)
Theorem are_members_valid_start_only (o : t) (is_project : bool) :
  are_members_valid o is_project = true
  <-> if type_has_length (type_ o) then
        pos_ o < end_pos_ o
        /\ (type_owned_by_region (type_ o) = false -> 0 <= pos_ o)
        /\ (can_fade o = true -> fade_in_pos_ o < fade_out_pos_ o)
      else type_has_global_pos (type_ o) = true -> 0 <= pos_ o.
Proof.
  unfold are_members_valid, is_position_valid, is_lengthable, is_fadeable.
  destruct (type_has_length (type_ o)); cbn [negb].
  - rewrite Z.geb_leb.
    destruct (Z.leb_spec (end_pos_ o) (pos_ o)) as [H1|H1].
    { split; [discriminate|lia]. }
    destruct (type_owned_by_region (type_ o)); cbn [negb andb].
    + destruct (can_fade o); cbn [negb].
      * replace (fade_out_pos_ o + - (pos_ o - pos_ o))
          with (fade_out_pos_ o) by lia.
        destruct (Z.leb_spec (fade_out_pos_ o) (fade_in_pos_ o)) as [H2|H2].
        -- split; [discriminate|]. intros (_ & _ & H). specialize (H eq_refl).
           lia.
        -- split; [|reflexivity]. intros _.
           split; [exact H1|]. split; [discriminate|]. intros _. exact H2.
      * split; [|reflexivity]. intros _.
        split; [exact H1|]. split; discriminate.
    + destruct (Z.ltb_spec (pos_ o) 0) as [H0|H0].
      { split; [discriminate|]. intros (_ & H & _). specialize (H eq_refl).
        lia. }
      destruct (can_fade o); cbn [negb].
      * replace (fade_out_pos_ o + - (pos_ o - pos_ o))
          with (fade_out_pos_ o) by lia.
        destruct (Z.leb_spec (fade_out_pos_ o) (fade_in_pos_ o)) as [H2|H2].
        -- split; [discriminate|]. intros (_ & _ & H). specialize (H eq_refl).
           lia.
        -- split; [|reflexivity]. intros _.
           split; [exact H1|]. split; [intros _; exact H0|]. intros _.
           exact H2.
      * split; [|reflexivity]. intros _.
        split; [exact H1|]. split; [intros _; exact H0|discriminate].
  - destruct (type_has_global_pos (type_ o)).
    + rewrite Z.geb_leb.
      destruct (Z.leb_spec 0 (pos_ o)) as [H0|H0]; cbn [negb].
      * split; [intros _ _; exact H0|reflexivity].
      * split; [discriminate|]. intros H. specialize (H eq_refl). lia.
    + split; [discriminate|reflexivity].
Qed.

(** A MIDI note (owned by a region) that starts before the start of its
    region is valid; a marker before the start of the timeline is not. *)
Lemma are_members_valid_start_only_witness :
  are_members_valid (mk MidiNote Midi (-5) 10 0 0 0 0 0 0) false = true
  /\ are_members_valid (mk Marker Midi (-5) 0 0 0 0 0 0 0) false = false.
Proof.
  split.
  - apply (are_members_valid_start_only (mk MidiNote Midi (-5) 10 0 0 0 0 0 0)
             false).
    cbn. split; [lia|]. split; discriminate.
  - reflexivity.
Defined.

(** X20.  [pos_setter] keeps [are_members_valid]: from an object whose
    members are valid, setting the start to a position through the validated
    setter, whether the position is accepted or rejected, gives an object
    whose members are valid.  For the null pointer the failure branch calls
    [to_string] through it and there is no object afterwards. *)
Theorem pos_setter_keeps_members_valid
    (o : t) (pos : Position) (is_project : bool) :
  are_members_valid o is_project = true ->
  pos_setter o None = None
  /\ exists o',
       pos_setter o (Some pos) = Some o'
       /\ are_members_valid o' is_project = true.
Proof.
  intros Hvalid. split; [reflexivity|]. unfold pos_setter.
  destruct (set_position o (Some pos) Start true) as [ok o'] eqn:Hset.
  exists o'. split; [destruct ok; reflexivity|].
  destruct ok.
  2: { apply ArrangerObjectFacts.set_position_rejected in Hset. subst o'.
       exact Hvalid. }
  apply ArrangerObjectFacts.set_position_accepted in Hset as [Hok Hstore].
  destruct o as [ty rt st en cs ls le fi fo cf].
  cbn [store_position] in Hstore. injection Hstore as <-.
  unfold are_members_valid, is_position_valid, is_lengthable, is_fadeable,
    can_fade in *.
  cbn [type_ region_type pos_ end_pos_ fade_in_pos_ fade_out_pos_] in *.
  replace (fo + - (pos - pos)) with fo by lia.
  replace (fo + - (st - st)) with fo in Hvalid by lia.
  rewrite !Z.geb_leb in *.
  destruct (type_has_length ty); cbn [negb] in *.
  - destruct (Z.leb_spec en pos); [discriminate|].
    destruct (negb (type_owned_by_region ty) && (pos <? 0)); [discriminate|].
    destruct (Z.leb_spec en st); [discriminate|].
    destruct (negb (type_owned_by_region ty) && (st <? 0)); [discriminate|].
    destruct (match ty with
              | Region => region_type_can_fade rt
              | _ => false
              end); cbn [negb] in *; [|reflexivity].
    destruct (Z.leb_spec fo fi); [discriminate|reflexivity].
  - destruct (type_has_global_pos ty); [|reflexivity].
    rewrite Hok. reflexivity.
Qed.

(** The audio region from 0 to 100, its start moved to 10. *)
Lemma pos_setter_keeps_members_valid_witness :
  exists o',
    pos_setter audio_region_0_100 (Some 10) = Some o'
    /\ pos_ o' = 10
    /\ are_members_valid o' true = true.
Proof.
  destruct (pos_setter_keeps_members_valid audio_region_0_100 10 true
              eq_refl) as (_ & o' & Hset & Hvalid).
  exists o'. split; [exact Hset|]. split; [|exact Hvalid].
  vm_compute in Hset. injection Hset as <-. reflexivity.
Defined.

End ArrangerObjectOpsFacts.

(** * Theorems: taking a plugin out of the strip *)

Module ChannelDisconnectFacts.

Import Channel ChannelDisconnect.

Lemma disconnect_unchain prev pl next :
  match prev, next with
  | None, None => disconnect_no_prev_no_next pl
  | None, Some n => disconnect_no_prev_next pl n
  | Some p, None => disconnect_prev_no_next p pl
  | Some p, Some n => disconnect_prev_next p pl n
  end = unchain (source_of prev) pl (sink_of next).
Proof. destruct prev, next; reflexivity. Qed.

(** Removing the two links of a chain and making the direct link again
    undoes making the chain. *)
Lemma run_chain_unchain (w : Wiring) src pl dst a b :
  src <> Plugin pl -> dst <> Plugin pl ->
  w src dst = true -> w src (Plugin pl) = false ->
  w (Plugin pl) dst = false ->
  run (run w (chain src pl dst)) (unchain src pl dst) a b = w a b.
Proof.
  intros Hs Hd Hdirect Hin Hout.
  unfold run, chain, unchain. cbn [foldl run_op].
  repeat match goal with
  | |- context [decide ?P] => destruct (decide P) as [[? ?]|?]
  end; subst; try congruence; try reflexivity;
    exfalso; match goal with H : ~ (_ /\ _) |- _ => apply H; auto end.
Qed.

(** X21.  For a MIDI FX or insert slot, [disconnect_plugin_from_strip]
    finds the same neighbours as [connect_plugins] does for that slot and
    undoes its wiring: it removes the links source → plugin and plugin →
    sink and restores source → sink.  Run on connections in which the
    plugin was not linked yet, the operations of the two leave every
    connection as it was. *)
Theorem disconnect_undoes_connect
    (ch : t) (ty : PluginSlotType) (slot : nat) (pl : PluginUuid)
    (w : Wiring) :
  ty = MidiFx \/ ty = Insert ->
  length (midi_fx_ ch) = STRIP_SIZE ->
  length (inserts_ ch) = STRIP_SIZE ->
  let src := source_of (prev_of ch ty slot) in
  let dst := sink_of (next_of ch ty slot) in
  src <> Plugin pl -> dst <> Plugin pl ->
  w src dst = true -> w src (Plugin pl) = false ->
  w (Plugin pl) dst = false ->
  connect_slot ch ty slot pl = Some (chain src pl dst)
  /\ disconnect_plugin_from_strip ch (SlotWithIndex ty slot)
       (SlotWithIndex ty slot) pl = Some (unchain src pl dst)
  /\ forall a b,
       run (run w (chain src pl dst)) (unchain src pl dst) a b = w a b.
Proof.
  intros Hty Hm Hi src dst Hs Hd Hdirect Hin Hout.
  split; [|split].
  - destruct Hty as [-> | ->].
    + exact (ChannelFacts.connect_slot_chain ch 0 slot pl Hm Hi).
    + exact (ChannelFacts.connect_slot_chain ch 2 slot pl Hm Hi).
  - unfold disconnect_plugin_from_strip. cbn [slot_type slot_pos].
    subst src dst. unfold prev_of, next_of, find_prev, find_next,
      prev_plugin, next_plugin.
    destruct Hty as [-> | ->];
      cbn [prev_plugins_ptr next_plugins_ptr prev_plugins next_plugins];
      repeat match goal with
      | |- context [decide ?P] => destruct (decide P); try congruence
      end;
      rewrite disconnect_unchain; reflexivity.
  - intros a b. apply run_chain_unchain; assumption.
Qed.

(** The insert in slot 3 of the test strip sits between the insert in slot
    0 and the prefader. *)
Lemma disconnect_undoes_connect_witness :
  let w : Wiring :=
    fun a b => bool_decide (a = Plugin 30%nat /\ b = Prefader) in
  disconnect_plugin_from_strip strip_example (SlotWithIndex Insert 3)
    (SlotWithIndex Insert 3) 33%nat
  = Some [Disconnect (Plugin 30%nat) (Plugin 33%nat);
          Disconnect (Plugin 33%nat) Prefader;
          Connect (Plugin 30%nat) Prefader]
  /\ forall a b,
       run (run w (chain (Plugin 30%nat) 33%nat Prefader))
         (unchain (Plugin 30%nat) 33%nat Prefader) a b = w a b.
Proof.
  intros w.
  destruct (disconnect_undoes_connect strip_example Insert 3 33%nat w
              ltac:(right; reflexivity) eq_refl eq_refl
              ltac:(discriminate) ltac:(discriminate)
              eq_refl eq_refl eq_refl) as (_ & Hd & Hrun).
  split; [exact Hd|exact Hrun].
Defined.

(** X22.  For the instrument the two searches differ.  Its slot has no
    index, so [disconnect_plugin_from_strip] starts from position 0: it
    never finds a previous plugin and looks for the next one among the
    inserts from slot 1 on.  [connect_plugins] had put the instrument
    behind the last MIDI FX: when the strip has a MIDI FX, the link from
    it (a plugin other than the instrument) to the instrument is not among
    the links that are removed. *)
Theorem disconnect_instrument_keeps_midi_fx_link
    (ch : t) (slot : nat) (pl p : PluginUuid) :
  length (midi_fx_ ch) = STRIP_SIZE ->
  length (inserts_ ch) = STRIP_SIZE ->
  first_occupied (reverse (midi_fx_ ch)) = Some p ->
  p <> pl ->
  exists dst dops,
    connect_slot ch Instrument slot pl = Some (chain (Plugin p) pl dst)
    /\ disconnect_plugin_from_strip ch (SlotTypeOnly Instrument)
         (SlotTypeOnly Instrument) pl = Some dops
    /\ dops = unchain TrackProcessor pl
                (sink_of (first_occupied_at (inserts_ ch)
                            (seq 1 (STRIP_SIZE - 1))))
    /\ Disconnect (Plugin p) (Plugin pl) ∉ dops.
Proof.
  intros Hm Hi Hlast Hne.
  pose proof (ChannelFacts.connect_slot_chain ch 1 slot pl Hm Hi) as Hc.
  cbn [slot_type_of] in Hc.
  assert (Hprev : prev_of ch Instrument slot = Some p).
  { unfold prev_of, find_prev. cbn [prev_plugins].
    destruct (decide (Instrument = Instrument)); [|congruence].
    rewrite Hlast. reflexivity. }
  rewrite Hprev in Hc. cbn [source_of] in Hc.
  eexists _, _. split; [exact Hc|].
  unfold disconnect_plugin_from_strip. cbn [slot_type slot_pos].
  cbn [prev_plugins_ptr next_plugins_ptr].
  unfold prev_plugin, next_plugin. cbn [seq reverse first_occupied_at].
  destruct (decide (Instrument = MidiFx)) as [Hty|_]; [discriminate Hty|].
  destruct (decide (Instrument = Insert)) as [Hty|_]; [discriminate Hty|].
  change (reverse (@nil nat)) with (@nil nat). cbn [first_occupied_at].
  split; [reflexivity|].
  destruct (first_occupied_at (inserts_ ch) (seq 1 (STRIP_SIZE - 1)));
    (split; [reflexivity|]); intros Hin;
    repeat (apply elem_of_cons in Hin as [Hin|Hin]; [congruence|]);
    inversion Hin.
Qed.

(** The instrument of the test strip: wired behind the MIDI FX in slot 4,
    taken out as if it followed the track processor, with the insert in
    slot 3 (not the one in slot 0) as its successor. *)
Lemma disconnect_instrument_keeps_midi_fx_link_witness :
  first_occupied (reverse (midi_fx_ strip_example)) = Some 14%nat
  /\ disconnect_plugin_from_strip strip_example (SlotTypeOnly Instrument)
       (SlotTypeOnly Instrument) 20%nat
     = Some [Disconnect TrackProcessor (Plugin 20%nat);
             Disconnect (Plugin 20%nat) (Plugin 33%nat);
             Connect TrackProcessor (Plugin 33%nat)].
Proof.
  split; [reflexivity|].
  destruct (disconnect_instrument_keeps_midi_fx_link strip_example 0 20%nat
              14%nat eq_refl eq_refl eq_refl ltac:(discriminate))
    as (dst & dops & _ & Hd & Heq & _).
  rewrite Hd, Heq. reflexivity.
Defined.

Lemma elem_of_omap_id (l : list (option PluginUuid)) p :
  p ∈ omap id l <-> exists j, l !! j = Some (Some p).
Proof.
  rewrite list_elem_of_omap. split.
  - intros (x & Hx & Hid). cbn in Hid. subst x.
    apply list_elem_of_lookup in Hx. exact Hx.
  - intros (j & Hj). exists (Some p). split; [|reflexivity].
    apply list_elem_of_lookup. exists j. exact Hj.
Qed.

(** X23.  [get_plugins] collects exactly the plugins that
    [connect_plugins] visits: an id is in its result iff it sits in a MIDI
    FX slot, in the instrument slot or in an insert slot of the strip.  The
    order differs: inserts first, then MIDI FX, then the instrument. *)
Theorem get_plugins_are_the_wired (ch : t) (p : PluginUuid) :
  length (midi_fx_ ch) = STRIP_SIZE ->
  length (inserts_ ch) = STRIP_SIZE ->
  p ∈ get_plugins ch
  <-> exists i j, (i, j) ∈ iterations /\ pl_uuid ch i j = Some p.
Proof.
  intros Hm Hi. unfold get_plugins.
  rewrite !elem_of_app, !elem_of_omap_id.
  assert (Hiter : forall i j, (i, j) ∈ iterations
                    <-> (i < 3)%nat /\ (j < STRIP_SIZE)%nat).
  { intros i j. unfold iterations. rewrite list_elem_of_bind. split.
    - intros (i' & Hj & Hi').
      apply list_elem_of_fmap in Hj as (j' & Heq & Hj').
      injection Heq as -> ->. apply elem_of_seq in Hi', Hj'. lia.
    - intros [Hi' Hj']. exists i. split.
      + apply list_elem_of_fmap. exists j. split; [reflexivity|].
        apply elem_of_seq. lia.
      + apply elem_of_seq. lia. }
  split.
  - intros [(j & Hj)|[(j & Hj)|Hinst]].
    + exists 2%nat, j. split.
      * apply Hiter. apply lookup_lt_Some in Hj. lia.
      * cbn [pl_uuid]. rewrite Hj. reflexivity.
    + exists 0%nat, j. split.
      * apply Hiter. apply lookup_lt_Some in Hj.
        unfold STRIP_SIZE in *. lia.
      * cbn [pl_uuid]. rewrite Hj. reflexivity.
    + exists 1%nat, 0%nat. split.
      * apply Hiter. unfold STRIP_SIZE. lia.
      * cbn [pl_uuid]. destruct (instrument_ ch) as [q|]; cbn in Hinst.
        -- apply list_elem_of_singleton in Hinst. congruence.
        -- inversion Hinst.
  - intros (i & j & _ & Hpl). destruct i as [|[|i]]; cbn [pl_uuid] in Hpl.
    + right. left. exists j.
      destruct (midi_fx_ ch !! j) as [x|]; [|discriminate].
      cbn in Hpl. congruence.
    + right. right. rewrite Hpl. cbn. apply list_elem_of_singleton.
      reflexivity.
    + left. exists j.
      destruct (inserts_ ch !! j) as [x|]; [|discriminate].
      cbn in Hpl. congruence.
Qed.

Lemma get_plugins_are_the_wired_witness :
  get_plugins strip_example = [30; 33; 11; 14; 20]%nat
  /\ exists i j,
       (i, j) ∈ iterations /\ pl_uuid strip_example i j = Some 14%nat.
Proof.
  split; [reflexivity|].
  apply (get_plugins_are_the_wired strip_example 14%nat eq_refl eq_refl).
  vm_compute. do 3 right. left.
Defined.

End ChannelDisconnectFacts.

(** * Theorems: peaks, normalizing and reversing *)

Module dspFacts.

Import float_ranges dsp.

Lemma max_element_from_abs largest rest :
  let r := max_element_from (fun a b => Qltb (Qabs a) (Qabs b)) largest rest in
  r ∈ largest :: rest
  /\ forall y, y ∈ largest :: rest -> (Qabs y <= Qabs r)%Q.
Proof.
  revert largest. induction rest as [|x rest IH]; intros largest;
    cbn [max_element_from].
  - split; [apply list_elem_of_here|].
    intros y Hy. apply list_elem_of_singleton in Hy as ->. apply Qle_refl.
  - destruct (Qltb (Qabs largest) (Qabs x)) eqn:Hlt.
    + apply Qltb_true_lt in Hlt.
      destruct (IH x) as [Hin Hmax]. split.
      * apply list_elem_of_further. exact Hin.
      * intros y Hy. apply elem_of_cons in Hy as [->|Hy].
        -- specialize (Hmax x (list_elem_of_here _ _)). lra.
        -- exact (Hmax y Hy).
    + apply Qltb_false_le in Hlt.
      destruct (IH largest) as [Hin Hmax]. split.
      * apply elem_of_cons in Hin as [Hin|Hin];
          [rewrite Hin; apply list_elem_of_here|].
        apply list_elem_of_further, list_elem_of_further. exact Hin.
      * intros y Hy. apply elem_of_cons in Hy as [->|Hy];
          [exact (Hmax largest (list_elem_of_here _ _))|].
        apply elem_of_cons in Hy as [->|Hy].
        -- specialize (Hmax largest (list_elem_of_here _ _)). lra.
        -- apply Hmax. apply list_elem_of_further. exact Hy.
Qed.

Lemma Qabs_between lo hi y :
  (lo <= y)%Q -> (y <= hi)%Q ->
  (Qabs y <= std_max (Qabs lo) (Qabs hi))%Q.
Proof.
  intros Hlo Hhi. unfold std_max.
  assert (H1 : (Qabs y <= Qabs lo)%Q \/ (Qabs y <= Qabs hi)%Q).
  { destruct (Qlt_le_dec y 0) as [Hneg|Hpos].
    - left. rewrite (Qabs_neg y) by lra. rewrite (Qabs_neg lo) by lra. lra.
    - right. rewrite (Qabs_pos y) by lra. rewrite (Qabs_pos hi) by lra. lra. }
  destruct (Qltb (Qabs lo) (Qabs hi)) eqn:Hlt.
  - apply Qltb_true_lt in Hlt. destruct H1; lra.
  - apply Qltb_false_le in Hlt. destruct H1; lra.
Qed.

(** In both builds [dsp_abs_max] of a range that is not empty is its
    peak. *)
Lemma dsp_abs_max_peak juce optimized buf size :
  juce_ok juce -> take size buf <> [] ->
  exists m, dsp_abs_max juce optimized buf size = Some m
            /\ is_peak (take size buf) m.
Proof.
  intros Hjuce Hne. unfold dsp_abs_max. destruct optimized.
  - eexists. split; [reflexivity|].
    destruct (Hjuce (take size buf) Hne) as (Hlo & Hhi & Hall).
    set (lo := (findMinAndMax juce (take size buf)).1) in *.
    set (hi := (findMinAndMax juce (take size buf)).2) in *.
    split.
    + unfold std_max. destruct (Qltb (Qabs lo) (Qabs hi)).
      * exists hi. split; [exact Hhi|reflexivity].
      * exists lo. split; [exact Hlo|reflexivity].
    + intros y Hy. destruct (Hall y Hy). apply Qabs_between; assumption.
  - destruct (take size buf) as [|x rest]; [congruence|].
    cbn [max_element]. eexists. split; [reflexivity|].
    destruct (max_element_from_abs x rest) as [Hin Hmax].
    split; [|exact Hmax].
    eexists. split; [exact Hin|reflexivity].
Qed.

Lemma test_juce_ok : juce_ok test_juce.
Proof.
  intros range Hne. destruct range as [|x rest]; [congruence|].
  cbn [test_juce findMinAndMax fst snd]. clear Hne.
  assert (Hmin : forall largest l,
    let r := max_element_from (fun a b => Qltb b a) largest l in
    r ∈ largest :: l /\ forall y, y ∈ largest :: l -> (r <= y)%Q).
  { intros largest l. revert largest.
    induction l as [|z l IH]; intros largest; cbn [max_element_from].
    - split; [apply list_elem_of_here|].
      intros y Hy. apply list_elem_of_singleton in Hy as ->. apply Qle_refl.
    - destruct (Qltb z largest) eqn:Hlt.
      + apply Qltb_true_lt in Hlt. destruct (IH z) as [Hin Hall]. split.
        * apply list_elem_of_further. exact Hin.
        * intros y Hy. apply elem_of_cons in Hy as [->|Hy].
          -- specialize (Hall z (list_elem_of_here _ _)). lra.
          -- exact (Hall y Hy).
      + apply Qltb_false_le in Hlt. destruct (IH largest) as [Hin Hall].
        split.
        * apply elem_of_cons in Hin as [Hin|Hin];
            [rewrite Hin; apply list_elem_of_here|].
          apply list_elem_of_further, list_elem_of_further. exact Hin.
        * intros y Hy. apply elem_of_cons in Hy as [->|Hy];
            [exact (Hall largest (list_elem_of_here _ _))|].
          apply elem_of_cons in Hy as [->|Hy].
          -- specialize (Hall largest (list_elem_of_here _ _)). lra.
          -- apply Hall. apply list_elem_of_further. exact Hy. }
  assert (Hmax : forall largest l,
    let r := max_element_from Qltb largest l in
    r ∈ largest :: l /\ forall y, y ∈ largest :: l -> (y <= r)%Q).
  { intros largest l. revert largest.
    induction l as [|z l IH]; intros largest; cbn [max_element_from].
    - split; [apply list_elem_of_here|].
      intros y Hy. apply list_elem_of_singleton in Hy as ->. apply Qle_refl.
    - destruct (Qltb largest z) eqn:Hlt.
      + apply Qltb_true_lt in Hlt. destruct (IH z) as [Hin Hall]. split.
        * apply list_elem_of_further. exact Hin.
        * intros y Hy. apply elem_of_cons in Hy as [->|Hy].
          -- specialize (Hall z (list_elem_of_here _ _)). lra.
          -- exact (Hall y Hy).
      + apply Qltb_false_le in Hlt. destruct (IH largest) as [Hin Hall].
        split.
        * apply elem_of_cons in Hin as [Hin|Hin];
            [rewrite Hin; apply list_elem_of_here|].
          apply list_elem_of_further, list_elem_of_further. exact Hin.
        * intros y Hy. apply elem_of_cons in Hy as [->|Hy];
            [exact (Hall largest (list_elem_of_here _ _))|].
          apply elem_of_cons in Hy as [->|Hy].
          -- specialize (Hall largest (list_elem_of_here _ _)). lra.
          -- apply Hall. apply list_elem_of_further. exact Hy. }
  destruct (Hmin x rest) as [Hin1 Hall1].
  destruct (Hmax x rest) as [Hin2 Hall2].
  split; [exact Hin1|]. split; [exact Hin2|].
  intros y Hy. split; [apply Hall1|apply Hall2]; exact Hy.
Qed.

(** X24.  The two builds of [dsp_abs_max] agree: for a range that is not
    empty, the plain build (the absolute value of the sample of largest
    absolute value) and the optimized build (the larger of the absolute
    values of the range's minimum and maximum) both return the peak of the
    range, and hence the same value. *)
Theorem dsp_abs_max_builds_agree
    (juce : Juce) (buf : list Q) (size : nat) :
  juce_ok juce -> take size buf <> [] ->
  exists plain opt,
    dsp_abs_max juce false buf size = Some plain
    /\ dsp_abs_max juce true buf size = Some opt
    /\ is_peak (take size buf) plain
    /\ is_peak (take size buf) opt
    /\ (plain == opt)%Q.
Proof.
  intros Hjuce Hne.
  destruct (dsp_abs_max_peak juce false buf size Hjuce Hne)
    as (plain & Hp & Hpeak1).
  destruct (dsp_abs_max_peak juce true buf size Hjuce Hne)
    as (opt & Ho & Hpeak2).
  exists plain, opt. do 4 (split; [assumption|]).
  destruct Hpeak1 as [(x1 & Hx1 & He1) Hm1].
  destruct Hpeak2 as [(x2 & Hx2 & He2) Hm2].
  specialize (Hm1 x2 Hx2). specialize (Hm2 x1 Hx1).
  apply Qle_antisym; lra.
Qed.

Lemma dsp_abs_max_builds_agree_witness :
  exists plain opt,
    dsp_abs_max test_juce false [1 # 2; -3; 2; 7]%Q 3 = Some plain
    /\ dsp_abs_max test_juce true [1 # 2; -3; 2; 7]%Q 3 = Some opt
    /\ (plain == 3)%Q /\ (plain == opt)%Q.
Proof.
  destruct (dsp_abs_max_builds_agree test_juce [1 # 2; -3; 2; 7]%Q 3
              test_juce_ok ltac:(discriminate))
    as (plain & opt & Hp & Ho & _ & _ & Heq).
  exists plain, opt. split; [exact Hp|]. split; [exact Ho|].
  split; [|exact Heq].
  cbv in Hp. injection Hp as <-. reflexivity.
Defined.

Lemma foldl_peak_step cur range :
  let new_peak := foldl peak_step cur range in
  (cur <= new_peak)%Q
  /\ (forall y, y ∈ range -> (Qabs y <= new_peak)%Q)
  /\ (new_peak = cur \/ exists x, x ∈ range /\ new_peak = Qabs x).
Proof.
  revert cur. induction range as [|x range IH]; intros cur; cbn [foldl].
  - split; [apply Qle_refl|]. split; [|left; reflexivity].
    intros y Hy. inversion Hy.
  - destruct (IH (peak_step cur x)) as (Hle & Hall & Hfrom).
    assert (Hstep : (cur <= peak_step cur x)%Q
                    /\ (Qabs x <= peak_step cur x)%Q
                    /\ (peak_step cur x = cur \/ peak_step cur x = Qabs x)).
    { unfold peak_step. destruct (Qltb cur (Qabs x)) eqn:Hlt.
      - apply Qltb_true_lt in Hlt. split; [lra|]. split; [lra|auto].
      - apply Qltb_false_le in Hlt. split; [lra|]. split; [lra|auto]. }
    destruct Hstep as (H1 & H2 & H3).
    split; [lra|]. split.
    + intros y Hy. apply elem_of_cons in Hy as [->|Hy]; [lra|].
      exact (Hall y Hy).
    + destruct Hfrom as [Heq|(z & Hz & Heq)].
      * rewrite Heq. destruct H3 as [->| ->]; [left; reflexivity|].
        right. exists x. split; [apply list_elem_of_here|reflexivity].
      * right. exists z. split; [apply list_elem_of_further; exact Hz|].
        exact Heq.
Qed.

(** X25.  The plain build of [dsp_abs_max_with_existing_peak] never
    lowers the peak: the peak stored afterwards is the larger of the peak
    passed in and the peak of the range, so it bounds every sample of the
    range and is either the old peak or the absolute value of a sample.
    The optimized build stores the peak of the range alone, whatever the
    old peak was. *)
Theorem dsp_abs_max_with_existing_peak_keeps
    (juce : Juce) (floats_equal : Q -> Q -> bool) (buf : list Q)
    (cur_peak : Q) (size : nat) :
  (exists changed new_peak,
     dsp_abs_max_with_existing_peak juce false floats_equal buf cur_peak size
     = Some (changed, new_peak)
     /\ changed = negb (floats_equal new_peak cur_peak)
     /\ (cur_peak <= new_peak)%Q
     /\ (forall y, y ∈ take size buf -> (Qabs y <= new_peak)%Q)
     /\ (new_peak = cur_peak
         \/ exists x, x ∈ take size buf /\ new_peak = Qabs x))
  /\ dsp_abs_max_with_existing_peak juce true floats_equal buf cur_peak size
     = option_map (fun m => (negb (floats_equal m cur_peak), m))
         (dsp_abs_max juce true buf size).
Proof.
  split.
  - unfold dsp_abs_max_with_existing_peak. eexists _, _.
    split; [reflexivity|]. split; [reflexivity|].
    exact (foldl_peak_step cur_peak (take size buf)).
  - unfold dsp_abs_max_with_existing_peak.
    destruct (dsp_abs_max juce true buf size); reflexivity.
Qed.

(** A quiet range against an old peak of 1: the plain build keeps 1, the
    optimized build drops to 1/2. *)
Lemma existing_peak_builds_differ :
  dsp_abs_max_with_existing_peak test_juce false Qeq_bool [1 # 2; -1 # 4]%Q
    1 2 = Some (false, 1%Q)
  /\ dsp_abs_max_with_existing_peak test_juce true Qeq_bool [1 # 2; -1 # 4]%Q
       1 2 = Some (true, (1 # 2)%Q).
Proof. split; reflexivity. Qed.

Lemma in_block_prefix size i :
  (i < size)%nat -> in_block 0 size i = true.
Proof. intros H. exact (in_block_true 0 size i H). Qed.




(** The peak need not come out as 1: [41.f * (1.f / 41.f)] is the [float]
    below 1, [0x0.ffffff]. *)
Lemma dsp_normalize_peak_41 :
  exists y,
    dsp_normalize test_juce false [0]%Q [41]%Q 1 = Some [y]
    /\ (y == 16777215 # 16777216)%Q.
Proof. eexists. split; [vm_compute; reflexivity|]. vm_compute. reflexivity. Qed.

(** X27.  [dsp_reverse] writes the first [size] source samples in
    reverse order, [dest[i] = src[size - 1 - i]], and leaves the rest of
    the destination alone; reversing the result once more gives the source
    samples back. *)
Theorem dsp_reverse_involutive
    (dest dest2 src : list Q) (size : nat) :
  (size <= length dest)%nat -> (size <= length dest2)%nat ->
  (size <= length src)%nat ->
  (forall i, (i < size)%nat ->
     dsp_reverse dest src size !! i = src !! (size - 1 - i)%nat
     /\ dsp_reverse dest2 (dsp_reverse dest src size) size !! i = src !! i)
  /\ forall i, (size <= i)%nat ->
       dsp_reverse dest src size !! i = dest !! i.
Proof.
  intros Hd Hd2 Hs.
  assert (Hrev : forall d s i, (size <= length d)%nat ->
            (size <= length s)%nat -> (i < size)%nat ->
            dsp_reverse d s size !! i = s !! (size - 1 - i)%nat).
  { intros d s i Hld Hls Hi. unfold dsp_reverse. rewrite on_range_lookup.
    rewrite (in_block_prefix size i Hi).
    destruct (lookup_lt_is_Some_2 d i ltac:(lia)) as [x Hx].
    destruct (lookup_lt_is_Some_2 s (size - 1 - i) ltac:(lia)) as [y Hy].
    rewrite Hx. cbn [fmap option_fmap option_map].
    rewrite Nat.sub_0_r, Hy. reflexivity. }
  split.
  - intros i Hi. split; [apply Hrev; assumption|].
    rewrite Hrev; [|assumption| |assumption].
    + rewrite Hrev by (try assumption; lia). f_equal. lia.
    + unfold dsp_reverse. rewrite on_range_length. exact Hd.
  - intros i Hi. unfold dsp_reverse. rewrite on_range_lookup.
    assert (Hout : in_block 0 size i = false).
    { unfold in_block. apply andb_false_iff. right.
      apply Nat.ltb_ge. lia. }
    rewrite Hout. destruct (dest !! i); reflexivity.
Qed.

Lemma dsp_reverse_involutive_witness :
  dsp_reverse [9; 9; 9; 9]%Q [1; 2; 3; 4]%Q 3 = [3; 2; 1; 9]%Q
  /\ dsp_reverse [0; 0; 0]%Q (dsp_reverse [9; 9; 9; 9]%Q [1; 2; 3; 4]%Q 3) 3
       !! 0%nat = Some 1%Q.
Proof.
  split; [reflexivity|].
  exact (proj2 (proj1 (dsp_reverse_involutive [9; 9; 9; 9]%Q [0; 0; 0]%Q
                         [1; 2; 3; 4]%Q 3 ltac:(simpl; lia)
                         ltac:(simpl; lia) ltac:(simpl; lia))
                  0%nat ltac:(lia))).
Defined.

End dspFacts.

(** * Theorems: velocities and held notes *)

Module VelocityObjectFacts.

Import VelocityObject.
Import String.StringSyntax.
Local Open Scope string_scope.

(** X28.  [Velocity::set_val] stores a MIDI velocity, but it wraps before
    it clamps: the [int] is converted to [uint8_t] first, so the value
    stored is [min (val mod 256, 127)].  It always lies in [[0, 127]] and
    is [val] itself for a [val] in that range; values 256 apart are stored
    alike (300 is stored as 44, not as 127) and a negative value is stored
    as if 256 had been added. *)
Theorem set_val_wraps_then_clamps (val : Z) :
  set_val val = Z.min (val mod 256) 127
  /\ 0 <= set_val val <= 127
  /\ (0 <= val <= 127 -> set_val val = val)
  /\ set_val (val + 256) = set_val val.
Proof.
  assert (Hform : forall v, set_val v = Z.min (v mod 256) 127).
  { intros v. unfold set_val, clamp_uint8, to_uint8.
    change (0 mod 256) with 0. change (127 mod 256) with 127.
    pose proof (Z.mod_pos_bound v 256 ltac:(lia)) as Hb.
    destruct (Z.ltb_spec (v mod 256) 0); [lia|].
    destruct (Z.ltb_spec 127 (v mod 256)); lia. }
  pose proof (Z.mod_pos_bound val 256 ltac:(lia)) as Hb.
  split; [apply Hform|]. split; [rewrite Hform; lia|]. split.
  - intros Hr. rewrite Hform, Z.mod_small by lia. lia.
  - rewrite !Hform.
    replace (val + 256) with (val + 1 * 256) by lia.
    rewrite Z.mod_add by lia. reflexivity.
Qed.

Lemma set_val_wraps_then_clamps_witness :
  set_val 300 = 44 /\ set_val 200 = 127 /\ set_val (-1) = 127
  /\ set_val (44 + 256) = set_val 44.
Proof.
  split; [reflexivity|]. split; [reflexivity|]. split; [reflexivity|].
  exact (proj2 (proj2 (proj2 (set_val_wraps_then_clamps 44)))).
Defined.

(** X29.  The default-velocity setting survives the round trip through
    its name: each of the four indices is mapped to a name that
    [setting_str_to_enum] maps back to it; every string, known or not, is
    mapped to an index below 4 that has a name; and an unknown string is
    read as index 0, the last-note setting. *)
Theorem setting_round_trip (index : nat) (str : String.string) :
  (setting_enum_to_str index = Some str -> setting_str_to_enum str = index)
  /\ (setting_str_to_enum str < 4)%nat
  /\ setting_enum_to_str (setting_str_to_enum str) <> None
  /\ (setting_enum_to_str (setting_str_to_enum str) <> Some str ->
      setting_str_to_enum str = 0%nat).
Proof.
  split; [|split; [|split]].
  - destruct index as [|[|[|[|index]]]]; cbn [setting_enum_to_str];
      intros [= <-]; reflexivity.
  - unfold setting_str_to_enum.
    repeat match goal with
    | |- context [String.eqb ?a ?b] => destruct (String.eqb a b)
    end; lia.
  - unfold setting_str_to_enum.
    repeat match goal with
    | |- context [String.eqb ?a ?b] => destruct (String.eqb a b)
    end; discriminate.
  - unfold setting_str_to_enum.
    repeat match goal with
    | |- context [String.eqb ?a ?b] => destruct (String.eqb_spec a b)
    end; subst; cbn [setting_enum_to_str]; congruence.
Qed.

Lemma setting_round_trip_witness :
  setting_enum_to_str 2 = Some "90"
  /\ setting_str_to_enum "90" = 2%nat
  /\ setting_str_to_enum "64" = 0%nat.
Proof.
  split; [reflexivity|]. split; [|reflexivity].
  exact (proj1 (setting_round_trip 2 "90") eq_refl).
Defined.

End VelocityObjectFacts.

Module PianoRollFacts.

Import PianoRoll.

(** X30.  [add_current_note] never makes a note current: it appends the
    note only if the note is found among the current notes already, so for
    every note the answer of [contains_current_note] is the same before and
    after, and from the empty list no sequence of additions gets away.  The
    only effect of an addition is a duplicate, which one
    [remove_current_note] does not clear. *)
Theorem add_current_note_adds_nothing
    (current_notes_ : list Z) (note other : Z) :
  contains_current_note (add_current_note current_notes_ note) other
  = contains_current_note current_notes_ other
  /\ (forall notes, foldl add_current_note [] notes = [])
  /\ (contains_current_note current_notes_ note = true ->
      contains_current_note
        (remove_current_note (add_current_note current_notes_ note) note)
        note = true).
Proof.
  split; [|split].
  - unfold contains_current_note, add_current_note.
    destruct (bool_decide_reflect (note ∈ current_notes_)) as [Hin|Hout];
      [|reflexivity].
    apply bool_decide_ext. rewrite elem_of_app, list_elem_of_singleton.
    split; [intros [H| ->]; assumption|auto].
  - intros notes. induction notes as [|n notes IH]; [reflexivity|].
    cbn [foldl]. unfold add_current_note at 2.
    rewrite bool_decide_eq_false_2 by (intros H; inversion H). exact IH.
  - unfold contains_current_note, add_current_note, remove_current_note.
    intros Hin. rewrite Hin. apply bool_decide_eq_true in Hin.
    rewrite (bool_decide_eq_true_2 (note ∈ current_notes_ ++ [note]))
      by (apply elem_of_app; left; exact Hin).
    apply bool_decide_eq_true_2.
    induction current_notes_ as [|n rest IH]; [inversion Hin|].
    cbn [app erase_first].
    destruct (bool_decide_reflect (n = note)) as [->|Hne].
    + apply elem_of_app. right. apply list_elem_of_singleton. reflexivity.
    + apply list_elem_of_further, IH.
      apply elem_of_cons in Hin as [Heq|Hin]; [congruence|exact Hin].
Qed.

Lemma add_current_note_adds_nothing_witness :
  add_current_note [60] 64 = [60]
  /\ contains_current_note (add_current_note [60] 64) 64 = false
  /\ contains_current_note
       (remove_current_note (add_current_note [60; 64] 64) 64) 64 = true.
Proof.
  split; [reflexivity|].
  destruct (add_current_note_adds_nothing [60] 64 64) as (H1 & _ & _).
  destruct (add_current_note_adds_nothing [60; 64] 64 64) as (_ & _ & H3).
  split; [rewrite H1; reflexivity|apply H3; reflexivity].
Defined.

End PianoRollFacts.
